(** * aria-accordion.js: the ARIA accordion controller, embedded in Rocq

    The development follows the source file top to bottom.  The browser
    objects the controller talks to (elements, the document tree, events,
    zero-delay timers) are modelled first; the class [AriaAccordion] and its
    static members come next, each method under the name it has in the
    source; the properties of the controller are stated and proved last. *)

From Stdlib Require Import ZArith Ascii.
From stdpp Require Import base option list gmap strings pretty.

Local Open Scope Z_scope.

#[local] Set Warnings "-clear-no-such-hyp".

(** ** The document object model *)

(** Elements are JavaScript objects: they are compared by identity and are
    never dangling.  An element is named by its allocation number. *)
Definition nid := nat.

(** A JavaScript value that is expected to hold an element: it may also be
    [null] (no match) or [undefined] (array index out of range). *)
Inductive Ref :=
  | Null
  | Undefined
  | Elem (n : nid).

#[global] Instance Ref_eq_dec : EqDecision Ref.
Proof. solve_decision. Defined.

(** The exceptions the controller can run into. *)
Inductive JsError :=
  | TypeError              (* member access on null/undefined, call of a non-function *)
  | NotFoundError          (* DOMException of insertBefore *)
  | SyntaxError            (* DOMException of classList.add with an empty token *)
  | InvalidCharacterError. (* DOMException of classList.add, token with a space *)

Definition error_name (e : JsError) : string :=
  match e with
  | TypeError => "TypeError"
  | NotFoundError => "NotFoundError"
  | SyntaxError => "SyntaxError"
  | InvalidCharacterError => "InvalidCharacterError"
  end.

(** Selectors: the compound selectors the source uses, a type selector, a
    class selector or both ('button', '.js-accordion__panel',
    'button.js-accordion__header'). *)
Record Selector := {
  sel_tag : option string;
  sel_class : option string
}.

(** An element: its (lower-case) local name, the tokens of its class
    attribute, its other attributes, and its content as markup and as
    rendered text.  The content of a header is only ever copied as a whole,
    so it is kept as a string. *)
Record Element := {
  tagName : string;
  classList : list string;
  attributes : gmap string string;
  innerHTML : string;
  innerText : string
}.

(** The document tree: element nodes in document order. The pages of this
    model are HTML documents: the tree holds the elements, and its root
    stands for the html element when it has that name; the document node
    above the root element, document fragments and shadow roots are not
    represented. *)
#[local] Unset Elimination Schemes.
Inductive Tree :=
  | Node (n : nid) (kids : list Tree).
#[local] Set Elimination Schemes.

Definition node_id (t : Tree) : nid := match t with Node n _ => n end.
Definition node_kids (t : Tree) : list Tree := match t with Node _ ks => ks end.

(** The methods of the controller that are registered as event listeners. *)
Inductive Method :=
  | focusButton
  | clickButton
  | keydownButton
  | keydownPanel.

#[global] Instance Method_eq_dec : EqDecision Method.
Proof. solve_decision. Defined.

(** [element.addEventListener(type, event => this.method(event))] *)
Record Listener := {
  l_element : nid;
  l_type : string;
  l_method : Method
}.

#[global] Instance Listener_eq_dec : EqDecision Listener.
Proof. solve_decision. Defined.

(** The state of the page. [fresh] is the allocation pointer of element
    objects; [listeners] are the registered event listeners, in the order
    of registration; [timers] are the pending zero-delay callbacks, each of
    the form [() => target.focus()], oldest first; [defaultPrevented] and
    [propagationStopped] are the flags of the event being dispatched;
    [errors] collects the exceptions no one caught. *)
Record World := {
  elems : nid → Element;
  tree : Tree;
  fresh : nid;
  listeners : list Listener;
  timers : list nid;
  activeElement : option nid;
  defaultPrevented : bool;
  propagationStopped : bool;
  errors : list JsError
}.

Definition with_elems (f : nid → Element) (w : World) : World :=
  {| elems := f;
     tree := tree w;
     fresh := fresh w;
     listeners := listeners w;
     timers := timers w;
     activeElement := activeElement w;
     defaultPrevented := defaultPrevented w;
     propagationStopped := propagationStopped w;
     errors := errors w |}.

Definition with_tree (t : Tree) (w : World) : World :=
  {| elems := elems w;
     tree := t;
     fresh := fresh w;
     listeners := listeners w;
     timers := timers w;
     activeElement := activeElement w;
     defaultPrevented := defaultPrevented w;
     propagationStopped := propagationStopped w;
     errors := errors w |}.

Definition with_fresh (n : nid) (w : World) : World :=
  {| elems := elems w;
     tree := tree w;
     fresh := n;
     listeners := listeners w;
     timers := timers w;
     activeElement := activeElement w;
     defaultPrevented := defaultPrevented w;
     propagationStopped := propagationStopped w;
     errors := errors w |}.

Definition with_listeners (l : list Listener) (w : World) : World :=
  {| elems := elems w;
     tree := tree w;
     fresh := fresh w;
     listeners := l;
     timers := timers w;
     activeElement := activeElement w;
     defaultPrevented := defaultPrevented w;
     propagationStopped := propagationStopped w;
     errors := errors w |}.

Definition with_timers (l : list nid) (w : World) : World :=
  {| elems := elems w;
     tree := tree w;
     fresh := fresh w;
     listeners := listeners w;
     timers := l;
     activeElement := activeElement w;
     defaultPrevented := defaultPrevented w;
     propagationStopped := propagationStopped w;
     errors := errors w |}.

Definition with_activeElement (a : option nid) (w : World) : World :=
  {| elems := elems w;
     tree := tree w;
     fresh := fresh w;
     listeners := listeners w;
     timers := timers w;
     activeElement := a;
     defaultPrevented := defaultPrevented w;
     propagationStopped := propagationStopped w;
     errors := errors w |}.

Definition with_flags (d p : bool) (w : World) : World :=
  {| elems := elems w;
     tree := tree w;
     fresh := fresh w;
     listeners := listeners w;
     timers := timers w;
     activeElement := activeElement w;
     defaultPrevented := d;
     propagationStopped := p;
     errors := errors w |}.

Definition with_errors (l : list JsError) (w : World) : World :=
  {| elems := elems w;
     tree := tree w;
     fresh := fresh w;
     listeners := listeners w;
     timers := timers w;
     activeElement := activeElement w;
     defaultPrevented := defaultPrevented w;
     propagationStopped := propagationStopped w;
     errors := l |}.

(** *** Pure operations on elements and trees *)

Definition set_attr (k v : string) (e : Element) : Element :=
  {| tagName := tagName e; classList := classList e;
     attributes := <[k := v]> (attributes e);
     innerHTML := innerHTML e; innerText := innerText e |}.

Definition del_attr (k : string) (e : Element) : Element :=
  {| tagName := tagName e; classList := classList e;
     attributes := delete k (attributes e);
     innerHTML := innerHTML e; innerText := innerText e |}.

Definition add_class (c : string) (e : Element) : Element :=
  {| tagName := tagName e;
     classList := if bool_decide (c ∈ classList e) then classList e
                  else classList e ++ [c];
     attributes := attributes e;
     innerHTML := innerHTML e; innerText := innerText e |}.

(** [element.innerHTML = s]. The markup is kept as a string: the elements
    that the parser would make of the tags in [s] are not represented, so
    the element keeps the place it has in the tree and gets nothing below
    it. That is what the browser does for markup without tags; what depends
    on the elements below a toggle is stated for such labels only (see
    [plain_labels]). The rendered text of the new content is not tracked:
    the controller never reads the text of a node it wrote to. *)
Definition set_markup (s : string) (e : Element) : Element :=
  {| tagName := tagName e; classList := classList e;
     attributes := attributes e;
     innerHTML := s; innerText := innerText e |}.

(** [cloneNode()] without argument is a shallow copy: name, classes and
    attributes, no children. *)
Definition shallow_copy (e : Element) : Element :=
  {| tagName := tagName e; classList := classList e;
     attributes := attributes e;
     innerHTML := ""; innerText := "" |}.

(** [element.matches(selector)] *)
Definition matches (e : Element) (s : Selector) : bool :=
  match sel_tag s with
  | Some t => bool_decide (tagName e = t)
  | None => true
  end &&
  match sel_class s with
  | Some c => bool_decide (c ∈ classList e)
  | None => true
  end.

(** [element instanceof HTMLHtmlElement] *)
Definition isHTMLHtmlElement (e : Element) : bool :=
  bool_decide (tagName e = "html").

(** The nodes of a tree in document order. *)
Fixpoint preorder (t : Tree) : list nid :=
  match t with
  | Node n ks => n :: flat_map preorder ks
  end.

(** The subtree rooted at the first node named [n]. *)
Fixpoint subtree (t : Tree) (n : nid) : option Tree :=
  match t with
  | Node m ks =>
      if decide (m = n) then Some t
      else (fix first (l : list Tree) : option Tree :=
              match l with
              | [] => None
              | k :: l' =>
                  match subtree k n with
                  | Some s => Some s
                  | None => first l'
                  end
              end) ks
  end.

(** The descendants of [n] in document order, [n] itself excluded. *)
Definition descendants (t : Tree) (n : nid) : list nid :=
  match subtree t n with
  | Some s => flat_map preorder (node_kids s)
  | None => []
  end.

(** The chain [n.parentNode, n.parentNode.parentNode, ...] up to the root
    element; empty for a node that is not in the document. *)
Fixpoint ancestors (t : Tree) (n : nid) : option (list nid) :=
  match t with
  | Node m ks =>
      if decide (m = n) then Some []
      else (fix first (l : list Tree) : option (list nid) :=
              match l with
              | [] => None
              | k :: l' =>
                  match ancestors k n with
                  | Some up => Some (up ++ [m])
                  | None => first l'
                  end
              end) ks
  end.

Definition parentChain (t : Tree) (n : nid) : list nid :=
  default [] (ancestors t n).

(** Insertion of [new] before the child named [ref] in a list of children. *)
Fixpoint kids_insert_before (ks : list Tree) (new : Tree) (ref : nid)
  : option (list Tree) :=
  match ks with
  | [] => None
  | k :: ks' =>
      if decide (node_id k = ref) then Some (new :: k :: ks')
      else (k ::.) <$> kids_insert_before ks' new ref
  end.

(** [parent.insertBefore(new, ref)] on the tree: [None] when [ref] is not a
    child of [parent]. *)
Fixpoint tree_insert_before (t : Tree) (parent : nid) (new : Tree) (ref : nid)
  : option Tree :=
  match t with
  | Node m ks =>
      if decide (m = parent) then Node m <$> kids_insert_before ks new ref
      else Node m <$>
        (fix first (l : list Tree) : option (list Tree) :=
           match l with
           | [] => None
           | k :: l' =>
               if bool_decide (parent ∈ preorder k)
               then (.:: l') <$> tree_insert_before k parent new ref
               else (k ::.) <$> first l'
           end) ks
  end.

(** ** Computations that mutate the page and may throw *)

Inductive Completion (A : Type) :=
  | Normal (a : A)
  | Throw (e : JsError).
Arguments Normal {A} a.
Arguments Throw {A} e.

Definition M (A : Type) : Type := World → World * Completion A.

#[global] Instance M_ret : MRet M := λ A a w, (w, Normal a).

#[global] Instance M_bind : MBind M := λ A B f m w,
  match m w with
  | (w', Normal a) => f a w'
  | (w', Throw e) => (w', Throw e)
  end.

Definition throw {A} (e : JsError) : M A := λ w, (w, Throw e).

(** [array.forEach((x, index) => ...)] *)
Fixpoint forEach_from {A} (i : nat) (l : list A) (f : A → nat → M unit)
  : M unit :=
  match l with
  | [] => mret ()
  | x :: l' => f x i ;; forEach_from (S i) l' f
  end.

Definition forEach {A} (l : list A) (f : A → nat → M unit) : M unit :=
  forEach_from 0 l f.

(** Member access on a value that should be an element: [TypeError] on
    [null] and [undefined]. *)
Definition deref (r : Ref) : M nid :=
  match r with
  | Elem n => mret n
  | _ => throw TypeError
  end.

(** *** Reading the page *)

Definition attr (w : World) (n : nid) (k : string) : option string :=
  attributes (elems w n) !! k.

(** The reflecting property [element.id]: the empty string when the
    attribute is absent. *)
Definition id_of (w : World) (n : nid) : string := default "" (attr w n "id").

Definition querySelectorAll_in (w : World) (n : nid) (s : Selector) : list nid :=
  filter (λ d, matches (elems w d) s) (descendants (tree w) n).

Fixpoint closest_in (w : World) (chain : list nid) (s : Selector) : Ref :=
  match chain with
  | [] => Null
  | e :: up =>
      if matches (elems w e) s then Elem e
      else if isHTMLHtmlElement (elems w e) then Null
      else closest_in w up s
  end.

(** A value passed where the platform expects a string: [null] becomes the
    string "null". *)
Definition DOMString (o : option string) : string := default "null" o.

Definition getElementById_in (w : World) (i : string) : Ref :=
  if decide (i = "") then Null
  else match find (λ n, bool_decide (attr w n "id" = Some i)) (preorder (tree w)) with
       | Some n => Elem n
       | None => Null
       end.

(** *** The methods of elements, of the document and of events *)

Definition update (n : nid) (f : Element → Element) (w : World) : World :=
  with_elems (λ m, if decide (m = n) then f (elems w m) else elems w m) w.

Definition getAttribute (n : nid) (k : string) : M (option string) :=
  λ w, (w, Normal (attr w n k)).

Definition hasAttribute (n : nid) (k : string) : M bool :=
  λ w, (w, Normal (bool_decide (is_Some (attr w n k)))).

Definition setAttribute (n : nid) (k v : string) : M unit :=
  λ w, (update n (set_attr k v) w, Normal ()).

Definition removeAttribute (n : nid) (k : string) : M unit :=
  λ w, (update n (del_attr k) w, Normal ()).

Definition is_ascii_whitespace (c : ascii) : bool :=
  match c with
  | "009" | "010" | "012" | "013" | " " => true
  | _ => false
  end%char.

Fixpoint has_whitespace (s : string) : bool :=
  match s with
  | EmptyString => false
  | String c s' => is_ascii_whitespace c || has_whitespace s'
  end.

(** [element.classList.add(token)] *)
Definition classList_add (n : nid) (c : string) : M unit :=
  if decide (c = "") then throw SyntaxError
  else if has_whitespace c then throw InvalidCharacterError
  else λ w, (update n (add_class c) w, Normal ()).

Definition get_id (n : nid) : M string := λ w, (w, Normal (id_of w n)).

Definition get_innerHTML (n : nid) : M string :=
  λ w, (w, Normal (innerHTML (elems w n))).

Definition get_innerText (n : nid) : M string :=
  λ w, (w, Normal (innerText (elems w n))).

Definition set_innerHTML (n : nid) (s : string) : M unit :=
  λ w, (update n (set_markup s) w, Normal ()).

(** [element.querySelectorAll(selector)], as a static list. *)
Definition querySelectorAll (n : nid) (s : Selector) : M (list nid) :=
  λ w, (w, Normal (querySelectorAll_in w n s)).

(** [element.querySelector(selector)]: the first match, or [null]. *)
Definition querySelector (n : nid) (s : Selector) : M Ref :=
  λ w, (w, Normal match querySelectorAll_in w n s with
                  | [] => Null
                  | d :: _ => Elem d
                  end).

(** [document.getElementById(id)] *)
Definition document_getElementById (i : option string) : M Ref :=
  λ w, (w, Normal (getElementById_in w (DOMString i))).

(** [element.getElementById]: elements have no such member (it belongs to
    documents and document fragments), so the member is [undefined] and
    calling it is a [TypeError], whatever the argument. *)
Definition element_getElementById (n : nid) (i : option string) : M Ref :=
  throw TypeError.

(** [node.cloneNode()] *)
Definition cloneNode (n : nid) : M nid :=
  λ w, let b := fresh w in
       (with_fresh (S b)
          (with_elems (λ m, if decide (m = b) then shallow_copy (elems w n)
                            else elems w m) w),
        Normal b).

(** [parent.insertBefore(new, ref)], for a [new] node that is detached and
    has no element children, as the fresh clones of the controller are. *)
Definition insertBefore (parent new ref : nid) : M unit :=
  λ w, match tree_insert_before (tree w) parent (Node new []) ref with
       | Some t => (with_tree t w, Normal ())
       | None => (w, Throw NotFoundError)
       end.

(** [element.addEventListener(type, listener)] *)
Definition addEventListener (n : nid) (type : string) (m : Method) : M unit :=
  λ w, (with_listeners
          (listeners w ++ [{| l_element := n; l_type := type; l_method := m |}]) w,
        Normal ()).

(** [setTimeout(() => target.focus(), 0)] *)
Definition setTimeout_focus (target : nid) : M unit :=
  λ w, (with_timers (timers w ++ [target]) w, Normal ()).

Definition preventDefault : M unit :=
  λ w, (with_flags true (propagationStopped w) w, Normal ()).

Definition stopPropagation : M unit :=
  λ w, (with_flags (defaultPrevented w) true w, Normal ()).

(** The part of an event the controller reads. *)
Record Event := {
  target : nid;
  keyCode : Z;
  ctrlKey : bool;
  shiftKey : bool;
  altKey : bool;
  metaKey : bool
}.

(** ** The class AriaAccordion *)

(** [AriaAccordionOptions], after the merge with the default configuration.
    [button] is the element that is cloned for every panel. *)
Record AriaAccordionOptions := {
  headersSelector : Selector;
  panelsSelector : Selector;
  buttonsSelector : Selector;
  buttonsGeneratedContent : string;
  button : nid;
  buttonSuffixId : string;
  multiselectable : bool;
  prefixClass : string;
  headerSuffixClass : string;
  buttonSuffixClass : string;
  panelSuffixClass : string;
  direction : string;
  accordionPrefixId : string
}.

(** The members of an instance. [buttons] is assigned last in the
    constructor; the methods that read it run later, from listeners. *)
Record AriaAccordion := {
  options : AriaAccordionOptions;
  root : nid;
  panels : list nid;
  buttons : list nid
}.

(** The selector 'button' of the calls of [closest]. *)
Definition button_selector : Selector :=
  {| sel_tag := Some "button"; sel_class := None |}.

(** [AriaAccordion.keyPageUp] and the other key codes *)
Definition keyPageUp : Z := 33.
Definition keyPageDown : Z := 34.
Definition keyEnd : Z := 35.
Definition keyHome : Z := 36.
Definition keyLeft : Z := 37.
Definition keyUp : Z := 38.
Definition keyRight : Z := 39.
Definition keyDown : Z := 40.

Module Keys.
Record t := {
  prev : list Z;
  next : list Z;
  first : Z;
  last : Z
}.
End Keys.

Definition ltrKeys : Keys.t :=
  {| Keys.prev := [keyUp; keyLeft];
     Keys.next := [keyDown; keyRight];
     Keys.first := keyHome;
     Keys.last := keyEnd |}.

Definition rtlKeys : Keys.t :=
  {| Keys.prev := [keyUp; keyRight];
     Keys.next := [keyDown; keyLeft];
     Keys.first := keyHome;
     Keys.last := keyEnd |}.

(** [AriaAccordion.defaultButton()]: what a new template button looks like. *)
Definition defaultButton : Element :=
  {| tagName := "button";
     classList := ["js-accordion__header"];
     attributes := {["type" := "button"]};
     innerHTML := ""; innerText := "" |}.

(** [AriaAccordion.defaultConfig], for a template button allocated at [b]. *)
Definition defaultConfig (b : nid) : AriaAccordionOptions :=
  {| headersSelector := {| sel_tag := None; sel_class := Some "js-accordion__header" |};
     panelsSelector := {| sel_tag := None; sel_class := Some "js-accordion__panel" |};
     buttonsSelector := {| sel_tag := Some "button"; sel_class := Some "js-accordion__header" |};
     buttonsGeneratedContent := "text";
     button := b;
     buttonSuffixId := "_tab";
     multiselectable := true;
     prefixClass := "accordion";
     headerSuffixClass := "__title";
     buttonSuffixClass := "__header";
     panelSuffixClass := "__panel";
     direction := "ltr";
     accordionPrefixId := "accordion" |}.

(** [bool.toString()] *)
Definition toString (b : bool) : string := if b then "true" else "false".

(** The name under which [setAttribute] stores an attribute on an HTML
    element: the name given, in ASCII lower case. *)
Definition lower (c : ascii) : ascii :=
  let n := nat_of_ascii c in
  if bool_decide (65 ≤ n ≤ 90)%nat then ascii_of_nat (n + 32) else c.

Fixpoint lowercase (s : string) : string :=
  match s with
  | EmptyString => EmptyString
  | String c s' => String (lower c) (lowercase s')
  end.

(** [array[i]] for an array of elements *)
Definition at_index (l : list nid) (i : Z) : Ref :=
  if bool_decide (i < 0) then Undefined
  else match l !! Z.to_nat i with
       | Some n => Elem n
       | None => Undefined
       end.

(** [array.indexOf(x)] for an array of elements *)
Fixpoint index_from (i : Z) (l : list nid) (n : nid) : Z :=
  match l with
  | [] => -1
  | m :: l' => if decide (m = n) then i else index_from (i + 1) l' n
  end.

Definition indexOf (l : list nid) (x : Ref) : Z :=
  match x with
  | Elem n => index_from 0 l n
  | _ => -1
  end.

(** [AriaAccordion.closest(element, selector)]: the recursion of the source
    goes up [parentNode] until a match, the html element or [null]. From an
    element of an HTML document the walk ends at the html element at the
    latest; from an element that is in no tree it ends after one step, its
    parent being [null]. A walk that runs into a node that is no element
    (the document above a root that is not the html element, a document
    fragment, a shadow root) throws in the source, at [element.matches];
    such trees are outside this model, whose pages are HTML documents. *)
Definition closest (element : Ref) (selector : Selector) : M Ref :=
  match element with
  | Null => mret Null
  | Undefined => throw TypeError
  | Elem e => λ w, (w, Normal (closest_in w (e :: parentChain (tree w) e) selector))
  end.

(** [AriaAccordion.goToHeader(target)] *)
Definition goToHeader (target : Ref) : M unit :=
  t ← deref target;
  setAttribute t "aria-selected" "true" ;;
  t ← deref target;
  setAttribute t "tabindex" (DOMString None) ;;
  t ← deref target;
  setTimeout_focus t.

(** The callback of [this.panels.forEach] in [initAttributes()]. *)
Definition decoratePanel (this : AriaAccordion) (panel : nid) (index : nat) : M unit :=
  let o := options this in
  header ← querySelector panel (headersSelector o);
  button ← cloneNode (button o);
  content ← (if decide (buttonsGeneratedContent o = "html")
             then h ← deref header; get_innerHTML h
             else h ← deref header; get_innerText h);
  set_innerHTML button content ;;
  h ← deref header;
  setAttribute h "tabindex" "0" ;;
  h ← deref header;
  classList_add h (prefixClass o +:+ headerSuffixClass o) ;;
  insertBefore (root this) button panel ;;
  panel_id ← get_id panel;
  root_id ← get_id (root this);
  let panelId := (if decide (panel_id = "") then root_id else panel_id)
                   +:+ "-" +:+ pretty index in
  let buttonId := panelId +:+ buttonSuffixId o in
  setAttribute button "aria-controls" panelId ;;
  setAttribute button "aria-expanded" "false" ;;
  setAttribute button "role" "tab" ;;
  setAttribute button "id" buttonId ;;
  setAttribute button (lowercase "tabIndex") "-1" ;;
  setAttribute button "aria-selected" "false" ;;
  classList_add button (prefixClass o +:+ buttonSuffixClass o) ;;
  setAttribute panel "aria-labelledby" buttonId ;;
  setAttribute panel "role" "tabpanel" ;;
  setAttribute panel "id" panelId ;;
  setAttribute panel "aria-hidden" "true" ;;
  classList_add panel (prefixClass o +:+ panelSuffixClass o) ;;
  (* if opened by default *)
  accordionOpen ← getAttribute panel "data-accordion-open";
  (if decide (accordionOpen = Some "true")
   then setAttribute button "aria-expanded" "true" ;;
        setAttribute button "data-accordion-open" (DOMString None) ;;
        setAttribute panel "aria-hidden" "false"
   else mret ()) ;;
  (* init first one focusable *)
  if decide (index = 0%nat) then removeAttribute button "tabindex" else mret ().

(** [initAttributes()]. [readableIndex] is the outcome of
    [Math.random().toString(32).slice(2, 12)]. *)
Definition initAttributes (this : AriaAccordion) (readableIndex : string) : M unit :=
  let o := options this in
  setAttribute (root this) "role" "tablist" ;;
  setAttribute (root this) "aria-multiselectable" (toString (multiselectable o)) ;;
  classList_add (root this) (prefixClass o) ;;
  (* id generated if not present *)
  has_id ← hasAttribute (root this) "id";
  (if negb has_id
   then setAttribute (root this) "id" (accordionPrefixId o +:+ "-" +:+ readableIndex)
   else mret ()) ;;
  forEach (panels this) (decoratePanel this).

(** [initEvents()] *)
Definition initEvents (this : AriaAccordion) : M unit :=
  bs ← querySelectorAll (root this) (buttonsSelector (options this));
  forEach bs (λ button _,
    addEventListener button "focus" focusButton ;;
    addEventListener button "click" clickButton ;;
    addEventListener button "keydown" keydownButton) ;;
  ps ← querySelectorAll (root this) (panelsSelector (options this));
  forEach ps (λ panel _,
    addEventListener panel "keydown" keydownPanel).

(** [new AriaAccordion(container, options)], for options already merged
    with the default configuration. *)
Definition constructor (container : nid) (opts : AriaAccordionOptions)
    (readableIndex : string) : M AriaAccordion :=
  ps ← querySelectorAll container (panelsSelector opts);
  let this := {| options := opts; root := container; panels := ps; buttons := [] |} in
  initAttributes this readableIndex ;;
  initEvents this ;;
  bs ← querySelectorAll container (buttonsSelector opts);
  mret {| options := opts; root := container; panels := ps; buttons := bs |}.

(** [focusButtonEventHandler(event)] *)
Definition focusButtonEventHandler (this : AriaAccordion) (event : Event) : M unit :=
  let target := Elem (target event) in
  currentButton ← closest target button_selector;
  bs ← querySelectorAll (root this) (buttonsSelector (options this));
  forEach bs (λ button _,
    setAttribute button "tabindex" "-1" ;;
    setAttribute button "aria-selected" "false") ;;
  b ← deref currentButton;
  setAttribute b "aria-selected" "true" ;;
  b ← deref currentButton;
  setAttribute b "tabindex" (DOMString None).

(** [clickButtonEventHandler(event)] *)
Definition clickButtonEventHandler (this : AriaAccordion) (event : Event) : M unit :=
  currentButton ← closest (Elem (target event)) button_selector;
  b ← deref currentButton;
  controls ← getAttribute b "aria-controls";
  currentPanel ← document_getElementById controls;
  forEach (buttons this) (λ button _,
    setAttribute button "aria-selected" "false") ;;
  b ← deref currentButton;
  setAttribute b "aria-selected" "true" ;;
  (* opened or closed? *)
  b ← deref currentButton;
  expanded ← getAttribute b "aria-expanded";
  (if decide (expanded = Some "false")
   then (* closed *)
        b ← deref currentButton;
        setAttribute b "aria-expanded" "true" ;;
        p ← deref currentPanel;
        setAttribute p "aria-hidden" "false"
   else (* opened *)
        b ← deref currentButton;
        setAttribute b "aria-expanded" "false" ;;
        p ← deref currentPanel;
        setAttribute p "aria-hidden" "true") ;;
  (if decide (multiselectable (options this) = false)
   then forEach (panels this) (λ panel _,
          if decide (currentPanel ≠ Elem panel)
          then setAttribute panel "aria-hidden" "true"
          else mret ()) ;;
        forEach (buttons this) (λ button _,
          if decide (currentButton ≠ Elem button)
          then setAttribute button "aria-expanded" "false"
          else mret ())
   else mret ()) ;;
  b ← deref currentButton;
  setTimeout_focus b ;;
  stopPropagation ;;
  preventDefault.

(** [keydownButtonEventHandler(event)] *)
Definition keydownButtonEventHandler (this : AriaAccordion) (event : Event) : M unit :=
  currentButton ← closest (Elem (target event)) button_selector;
  let firstButton := at_index (buttons this) 0 in
  let lastButton := at_index (buttons this) (Z.of_nat (length (buttons this)) - 1) in
  let index := indexOf (buttons this) currentButton in
  let keys := if decide (direction (options this) = "ltr") then ltrKeys else rtlKeys in
  let allKeyCode :=
    Keys.prev keys ++ Keys.next keys ++ [Keys.first keys] ++ [Keys.last keys] in
  if bool_decide (keyCode event ∈ allKeyCode) && negb (ctrlKey event)
  then
    forEach (buttons this) (λ button _,
      setAttribute button "tabindex" "-1" ;;
      setAttribute button "aria-selected" "false") ;;
    let newTarget :=
      if decide (keyCode event = keyHome) then firstButton
      else if decide (keyCode event = keyEnd) then
        (* strike end in the tab => last tab *)
        lastButton
      else if bool_decide (keyCode event ∈ Keys.prev keys) then
        (* strike up or left in the tab => previous tab;
           if we are on first one, activate last *)
        if decide (currentButton = firstButton) then lastButton
        else at_index (buttons this) (index - 1)
      else if bool_decide (keyCode event ∈ Keys.next keys) then
        (* strike down or right in the tab => next tab;
           if we are on last one, activate first *)
        if decide (currentButton = lastButton) then firstButton
        else at_index (buttons this) (index + 1)
      else Null in
    (if decide (newTarget ≠ Null) then goToHeader newTarget else mret ()) ;;
    preventDefault
  else mret ().

(** [keydownPanelEventHandler(event)] *)
Definition keydownPanelEventHandler (this : AriaAccordion) (event : Event) : M unit :=
  panel ← querySelector (target event) (panelsSelector (options this));
  p ← deref panel;
  labelledby ← getAttribute p "aria-labelledby";
  button ← element_getElementById (root this) labelledby;
  let firstButton := at_index (buttons this) 0 in
  let lastButton := at_index (buttons this) (Z.of_nat (length (buttons this)) - 1) in
  let index := indexOf (buttons this) button in
  if ctrlKey event
  then
    let target :=
      if decide (keyCode event = keyUp) then
        (* CTRL+UP => go to header *)
        button
      else if decide (keyCode event = keyPageUp) then
        (* CTRL+PAGE-UP => go to previous header *)
        if decide (button = firstButton) then lastButton
        else at_index (buttons this) (index - 1)
      else if decide (keyCode event = keyPageDown) then
        (* CTRL+PAGE-DOWN => go to next header *)
        if decide (button = lastButton) then firstButton
        else at_index (buttons this) (index + 1)
      else Null in
    if decide (target ≠ Null)
    then goToHeader target ;; preventDefault
    else mret ()
  else mret ().

(** ** Event dispatch, focus and timers *)

Definition call (this : AriaAccordion) (m : Method) : Event → M unit :=
  match m with
  | focusButton => focusButtonEventHandler this
  | clickButton => clickButtonEventHandler this
  | keydownButton => keydownButtonEventHandler this
  | keydownPanel => keydownPanelEventHandler this
  end.

(** A listener is run to completion; an exception it throws is reported
    and does not stop the dispatch. *)
Definition invoke (this : AriaAccordion) (event : Event) (w : World) (l : Listener)
  : World :=
  match call this (l_method l) event w with
  | (w', Normal _) => w'
  | (w', Throw e) => with_errors (errors w' ++ [e]) w'
  end.

Definition listens (n : nid) (type : string) (l : Listener) : bool :=
  bool_decide (l_element l = n) && bool_decide (l_type l = type).

(** The listeners of the nodes on the propagation path run from the target
    upwards, until one of them stops the propagation. *)
Fixpoint propagate (this : AriaAccordion) (type : string) (event : Event)
    (path : list nid) (w : World) : World :=
  match path with
  | [] => w
  | n :: up =>
      if propagationStopped w then w
      else propagate this type event up
             (foldl (invoke this event) w (filter (listens n type) (listeners w)))
  end.

(** Focus events do not bubble; click and keydown events do. *)
Definition bubbles (type : string) : bool := negb (bool_decide (type = "focus")).

Definition dispatchEvent (this : AriaAccordion) (type : string) (event : Event)
    (w : World) : World :=
  let path := if bubbles type
              then target event :: parentChain (tree w) (target event)
              else [target event] in
  propagate this type event path (with_flags false false w).

Definition eventAt (t : nid) : Event :=
  {| target := t; keyCode := 0; ctrlKey := false; shiftKey := false;
     altKey := false; metaKey := false |}.

(** [element.focus()]: nothing happens when the element has the focus
    already; otherwise it becomes the active element and a focus event is
    fired at it. *)
Definition focus (this : AriaAccordion) (w : World) (t : nid) : World :=
  if decide (activeElement w = Some t) then w
  else dispatchEvent this "focus" (eventAt t) (with_activeElement (Some t) w).

(** The pending zero-delay callbacks run, oldest first. *)
Definition runTimers (this : AriaAccordion) (w : World) : World :=
  foldl (focus this) (with_timers [] w) (timers w).

(** What the user does. An interaction has settled when the callbacks it
    scheduled have run. *)
Inductive Interaction :=
  | Focus (t : nid)
  | Click (t : nid)
  | Keydown (event : Event).

Definition interact (this : AriaAccordion) (w : World) (i : Interaction) : World :=
  runTimers this
    match i with
    | Focus t => focus this w t
    | Click t => dispatchEvent this "click" (eventAt t) w
    | Keydown event => dispatchEvent this "keydown" event w
    end.

(** ** What an observer sees *)

Definition skip_whitespace : string → string :=
  fix go s :=
    match s with
    | String c s' => if is_ascii_whitespace c then go s' else s
    | EmptyString => EmptyString
    end.

Fixpoint digits (acc : Z) (s : string) : Z :=
  match s with
  | String c s' =>
      match Ascii.is_nat c with
      | Some d => digits (10 * acc + Z.of_nat d) s'
      | None => acc
      end
  | EmptyString => acc
  end.

Definition starts_with_digit (s : string) : bool :=
  match s with
  | String c _ => bool_decide (is_Some (Ascii.is_nat c))
  | EmptyString => false
  end.

(** The rules of HTML for parsing an integer, as used for [tabindex]. *)
Definition parse_integer (s : string) : option Z :=
  match skip_whitespace s with
  | String "-" r => if starts_with_digit r then Some (- digits 0 r) else None
  | String "+" r => if starts_with_digit r then Some (digits 0 r) else None
  | r => if starts_with_digit r then Some (digits 0 r) else None
  end.

(** Reachable: in the sequential (Tab key) focus order. A [tabindex] that is
    a negative integer takes the element out of it; without a valid
    [tabindex] a button is in it and other elements are not. *)
Definition reachable (w : World) (n : nid) : bool :=
  match attr w n "tabindex" ≫= parse_integer with
  | Some z => bool_decide (0 ≤ z)
  | None => bool_decide (tagName (elems w n) = "button")
  end.

Definition selected (w : World) (n : nid) : bool :=
  bool_decide (attr w n "aria-selected" = Some "true").

(** The [expanded] attribute of a toggle control. *)
Definition expanded (w : World) (n : nid) : bool :=
  bool_decide (attr w n "aria-expanded" = Some "true").

(** The visibility of a panel: the negation of its [aria-hidden]. *)
Definition hidden (w : World) (n : nid) : bool :=
  bool_decide (attr w n "aria-hidden" = Some "true").

Definition visible (w : World) (n : nid) : bool := negb (hidden w n).

(** * Properties *)

(** ** Running computations *)

Lemma run_bind {A B} (m : M A) (f : A → M B) (w : World) :
  (m ≫= f) w = match m w with
               | (w', Normal a) => f a w'
               | (w', Throw e) => (w', Throw e)
               end.
Proof. reflexivity. Qed.

Lemma run_ret {A} (a : A) (w : World) : (mret a : M A) w = (w, Normal a).
Proof. reflexivity. Qed.

(** A loop whose body cannot throw is a left fold over the array. *)
Lemma forEach_from_total {A} (g : World → A → World) (f : A → nat → M unit)
    (l : list A) (i : nat) (w : World) :
  (∀ x j w, f x j w = (g w x, Normal ())) →
  forEach_from i l f w = (foldl g w l, Normal ()).
Proof.
  intros Hf. revert i w.
  induction l as [|x l IH]; intros i w; simpl; [reflexivity|].
  rewrite run_bind, Hf. apply IH.
Qed.

Lemma forEach_total {A} (g : World → A → World) (f : A → nat → M unit)
    (l : list A) (w : World) :
  (∀ x j w, f x j w = (g w x, Normal ())) →
  forEach l f w = (foldl g w l, Normal ()).
Proof. apply forEach_from_total. Qed.

(** One equation per primitive, for stepping through straight-line code. *)
Lemma run_throw {A} e w : (throw e : M A) w = (w, Throw e).
Proof. reflexivity. Qed.

Lemma run_deref n w : deref (Elem n) w = (w, Normal n).
Proof. reflexivity. Qed.

Lemma run_closest e s w :
  closest (Elem e) s w = (w, Normal (closest_in w (e :: parentChain (tree w) e) s)).
Proof. reflexivity. Qed.

Lemma run_getAttribute n k w : getAttribute n k w = (w, Normal (attr w n k)).
Proof. reflexivity. Qed.

Lemma run_setAttribute n k v w :
  setAttribute n k v w = (update n (set_attr k v) w, Normal ()).
Proof. reflexivity. Qed.

Lemma run_querySelectorAll n s w :
  querySelectorAll n s w = (w, Normal (querySelectorAll_in w n s)).
Proof. reflexivity. Qed.

Lemma run_document_getElementById i w :
  document_getElementById i w = (w, Normal (getElementById_in w (DOMString i))).
Proof. reflexivity. Qed.

Lemma run_setTimeout_focus t w :
  setTimeout_focus t w = (with_timers (timers w ++ [t]) w, Normal ()).
Proof. reflexivity. Qed.

Lemma run_preventDefault w :
  preventDefault w = (with_flags true (propagationStopped w) w, Normal ()).
Proof. reflexivity. Qed.

Lemma run_stopPropagation w :
  stopPropagation w = (with_flags (defaultPrevented w) true w, Normal ()).
Proof. reflexivity. Qed.

Create Rewrite HintDb run.
#[global] Hint Rewrite @run_bind @run_ret @run_throw run_deref run_closest
  run_getAttribute run_setAttribute run_querySelectorAll
  run_document_getElementById run_setTimeout_focus run_preventDefault
  run_stopPropagation : run.

Ltac mrun := repeat (autorewrite with run; cbv beta iota zeta).

(** ** What updates do to what an observer reads *)

Lemma attr_update_set n k v w m k' :
  attr (update n (set_attr k v) w) m k'
  = if decide (m = n ∧ k' = k) then Some v else attr w m k'.
Proof.
  unfold attr, update; simpl.
  destruct (decide (m = n)) as [->|Hm]; simpl.
  - destruct (decide (k' = k)) as [->|Hk].
    + rewrite decide_True by done. apply lookup_insert_eq.
    + rewrite decide_False by (intros [_ ?]; done). by apply lookup_insert_ne.
  - by rewrite decide_False by (intros [? _]; done).
Qed.

Lemma attr_update_del n k w m k' :
  attr (update n (del_attr k) w) m k'
  = if decide (m = n ∧ k' = k) then None else attr w m k'.
Proof.
  unfold attr, update; simpl.
  destruct (decide (m = n)) as [->|Hm]; simpl.
  - destruct (decide (k' = k)) as [->|Hk].
    + rewrite decide_True by done. apply lookup_delete_eq.
    + rewrite decide_False by (intros [_ ?]; done). by apply lookup_delete_ne.
  - by rewrite decide_False by (intros [? _]; done).
Qed.

Lemma attr_update_class n c w m k :
  attr (update n (add_class c) w) m k = attr w m k.
Proof. unfold attr, update; simpl. by destruct (decide (m = n)). Qed.

Lemma attr_update_markup n s w m k :
  attr (update n (set_markup s) w) m k = attr w m k.
Proof. unfold attr, update; simpl. by destruct (decide (m = n)). Qed.

Lemma tagName_update_set n k v w m :
  tagName (elems (update n (set_attr k v) w) m) = tagName (elems w m).
Proof. unfold update; simpl. by destruct (decide (m = n)). Qed.

Lemma classList_update_set n k v w m :
  classList (elems (update n (set_attr k v) w) m) = classList (elems w m).
Proof. unfold update; simpl. by destruct (decide (m = n)). Qed.

Lemma if_decide_or {A} (P Q : Prop) `{Decision P, Decision Q} (x y : A) :
  (if decide P then x else if decide Q then x else y)
  = if decide (P ∨ Q) then x else y.
Proof. repeat case_decide; tauto. Qed.

(** The loops of the handlers write one or two attributes on the elements
    of an array, possibly skipping one element. *)
Definition set_where (P : nid → bool) (k v : string) (w : World) (n : nid) : World :=
  if P n then update n (set_attr k v) w else w.

Lemma attr_set_where_1 P k v w x m k' :
  attr (set_where P k v w x) m k'
  = if decide ((m = x ∧ P m = true) ∧ k' = k) then Some v else attr w m k'.
Proof.
  unfold set_where. destruct (P x) eqn:HPx.
  - rewrite attr_update_set. apply decide_ext.
    split; [intros [-> ->]; auto | intros [[-> _] ->]; auto].
  - rewrite decide_False; [done|]. intros [[-> ?] _]; congruence.
Qed.

Lemma attr_set_where P k v l w m k' :
  attr (foldl (set_where P k v) w l) m k'
  = if decide ((m ∈ l ∧ P m = true) ∧ k' = k) then Some v else attr w m k'.
Proof.
  revert w. induction l as [|x l IH]; intros w; simpl; [done|].
  rewrite IH, attr_set_where_1, if_decide_or.
  apply decide_ext. rewrite elem_of_cons. tauto.
Qed.

(** ** Frames: what a computation may write *)

(** [writes K w w']: page [w'] has the structure of [w] (tree, listeners,
    element names, classes) and the attributes of [w] except for those
    named in [K]. Timers, focus, event flags and reported errors are free. *)
Record writes (K : list string) (w w' : World) : Prop := {
  w_tree : tree w' = tree w;
  w_listeners : listeners w' = listeners w;
  w_fresh : fresh w' = fresh w;
  w_tag : ∀ n, tagName (elems w' n) = tagName (elems w n);
  w_class : ∀ n, classList (elems w' n) = classList (elems w n);
  w_attr : ∀ n k, k ∉ K → attr w' n k = attr w n k
}.

Lemma writes_refl K w : writes K w w.
Proof. by split. Qed.

Lemma writes_trans K w1 w2 w3 : writes K w1 w2 → writes K w2 w3 → writes K w1 w3.
Proof.
  intros H1 H2; split; intros.
  - by rewrite (w_tree _ _ _ H2), (w_tree _ _ _ H1).
  - by rewrite (w_listeners _ _ _ H2), (w_listeners _ _ _ H1).
  - by rewrite (w_fresh _ _ _ H2), (w_fresh _ _ _ H1).
  - by rewrite (w_tag _ _ _ H2), (w_tag _ _ _ H1).
  - by rewrite (w_class _ _ _ H2), (w_class _ _ _ H1).
  - by rewrite (w_attr _ _ _ H2), (w_attr _ _ _ H1).
Qed.

Lemma writes_mono K K' w w' : K ⊆ K' → writes K w w' → writes K' w w'.
Proof. intros HK []; split; auto. Qed.

Lemma writes_update_set K n k v w : k ∈ K → writes K w (update n (set_attr k v) w).
Proof.
  intros Hk; split; try done.
  - intros m. apply tagName_update_set.
  - intros m. apply classList_update_set.
  - intros m k' Hk'. rewrite attr_update_set, decide_False; [done|].
    intros [_ ->]; done.
Qed.

Lemma writes_set_where K P k v w l :
  k ∈ K → writes K w (foldl (set_where P k v) w l).
Proof.
  intros Hk. revert w. induction l as [|x l IH]; intros w; simpl.
  - apply writes_refl.
  - eapply writes_trans; [|apply IH]. unfold set_where.
    destruct (P x); [by apply writes_update_set|apply writes_refl].
Qed.

(** [modifies K m]: running [m] writes at most [K], whether it returns or
    throws. *)
Definition modifies (K : list string) {A} (m : M A) : Prop :=
  ∀ w, writes K w (fst (m w)).

Lemma modifies_ret K {A} (a : A) : modifies K (mret a : M A).
Proof. intros w. apply writes_refl. Qed.

Lemma modifies_throw K {A} e : modifies K (throw e : M A).
Proof. intros w. apply writes_refl. Qed.

Lemma modifies_bind K {A B} (m : M A) (f : A → M B) :
  modifies K m → (∀ a, modifies K (f a)) → modifies K (m ≫= f).
Proof.
  intros Hm Hf w. rewrite run_bind. specialize (Hm w).
  destruct (m w) as [w' [a|e]]; simpl in *; [|done].
  eapply writes_trans; [done|apply Hf].
Qed.

Lemma modifies_forEach_from K {A} (l : list A) f i :
  (∀ x j, modifies K (f x j)) → modifies K (forEach_from i l f).
Proof.
  intros Hf. revert i. induction l as [|x l IH]; intros i; simpl.
  - apply modifies_ret.
  - apply modifies_bind; [apply Hf|intros _; apply IH].
Qed.

Lemma modifies_forEach K {A} (l : list A) f :
  (∀ x j, modifies K (f x j)) → modifies K (forEach l f).
Proof. apply modifies_forEach_from. Qed.

Lemma modifies_pure K {A} (g : World → A) : modifies K (λ w, (w, Normal (g w))).
Proof. intros w. apply writes_refl. Qed.

Lemma modifies_setAttribute K n k v : k ∈ K → modifies K (setAttribute n k v).
Proof. intros Hk w. by apply writes_update_set. Qed.

Lemma modifies_deref K r : modifies K (deref r).
Proof. destruct r; [apply modifies_throw..|apply modifies_ret]. Qed.

Lemma modifies_closest K r s : modifies K (closest r s).
Proof.
  destruct r; [apply modifies_ret|apply modifies_throw|apply modifies_pure].
Qed.

Lemma modifies_setTimeout_focus K t : modifies K (setTimeout_focus t).
Proof. by intros w. Qed.

Lemma modifies_preventDefault K : modifies K preventDefault.
Proof. by intros w. Qed.

Lemma modifies_stopPropagation K : modifies K stopPropagation.
Proof. by intros w. Qed.

Lemma modifies_goToHeader K target :
  "aria-selected" ∈ K → "tabindex" ∈ K → modifies K (goToHeader target).
Proof.
  intros H1 H2. unfold goToHeader.
  repeat first
    [ apply modifies_bind; [|intros ?]
    | apply modifies_deref
    | by apply modifies_setAttribute
    | apply modifies_setTimeout_focus ].
Qed.

(** A tactic for straight-line handler code. *)
Ltac modifies_step :=
  first
    [ apply modifies_bind; [|intros ?]
    | apply modifies_forEach; intros ? ?
    | apply modifies_ret
    | apply modifies_throw
    | apply modifies_deref
    | apply modifies_closest
    | apply modifies_setTimeout_focus
    | apply modifies_preventDefault
    | apply modifies_stopPropagation
    | apply modifies_goToHeader; [set_solver|set_solver]
    | apply modifies_setAttribute; set_solver
    | apply modifies_pure
    | case_decide
    | case_match ].

Definition focus_ring : list string := ["tabindex"; "aria-selected"].

Definition toggle_state : list string :=
  ["aria-selected"; "aria-expanded"; "aria-hidden"].

Lemma focusButtonEventHandler_modifies this event :
  modifies focus_ring (focusButtonEventHandler this event).
Proof. unfold focusButtonEventHandler, focus_ring. repeat modifies_step. Qed.

Lemma keydownButtonEventHandler_modifies this event :
  modifies focus_ring (keydownButtonEventHandler this event).
Proof.
  unfold keydownButtonEventHandler, focus_ring.
  apply modifies_bind; [apply modifies_closest|intros currentButton].
  cbv zeta. destruct (_ && _); [|apply modifies_ret].
  apply modifies_bind; [|intros _].
  { apply modifies_forEach. intros button _.
    apply modifies_bind; [|intros _]; apply modifies_setAttribute; set_solver. }
  apply modifies_bind; [|intros _; apply modifies_preventDefault].
  match goal with
  | |- modifies _ (if decide (?t ≠ Null) then _ else _) => generalize t
  end.
  intros t. destruct (decide (t ≠ Null)); [|apply modifies_ret].
  apply modifies_goToHeader; set_solver.
Qed.

Lemma keydownPanelEventHandler_modifies this event :
  modifies focus_ring (keydownPanelEventHandler this event).
Proof.
  unfold keydownPanelEventHandler, focus_ring, querySelector, getAttribute,
    element_getElementById.
  repeat modifies_step.
Qed.

Lemma clickButtonEventHandler_modifies this event :
  modifies toggle_state (clickButtonEventHandler this event).
Proof.
  unfold clickButtonEventHandler, toggle_state, getAttribute,
    document_getElementById.
  repeat modifies_step.
Qed.

(** Case analysis on every decision in the goal. *)
Ltac decide_cases :=
  repeat match goal with
         | |- context [decide ?P] => destruct (decide P)
         end.

(** ** The handlers, step by step *)

(** The toggle an event target resolves to: [closest(event.target, 'button')]. *)
Definition resolve (w : World) (t : nid) : Ref :=
  closest_in w (t :: parentChain (tree w) t) button_selector.

(** The body of the loops that take every toggle out of the focus ring. *)
Definition reset (w : World) (b : nid) : World :=
  update b (set_attr "aria-selected" "false")
    (update b (set_attr "tabindex" "-1") w).

(** The two writes of [goToHeader] and of the end of the focus handler. *)
Definition mark (b : nid) (w : World) : World :=
  update b (set_attr "tabindex" "null")
    (update b (set_attr "aria-selected" "true") w).

Lemma attr_reset w b m k :
  attr (reset w b) m k
  = if decide (m = b ∧ k = "aria-selected") then Some "false"
    else if decide (m = b ∧ k = "tabindex") then Some "-1"
    else attr w m k.
Proof. unfold reset. by rewrite !attr_update_set. Qed.

Lemma attr_reset_all l w m k :
  attr (foldl reset w l) m k
  = if decide (m ∈ l ∧ k = "aria-selected") then Some "false"
    else if decide (m ∈ l ∧ k = "tabindex") then Some "-1"
    else attr w m k.
Proof.
  revert w. induction l as [|x l IH]; intros w; simpl; [done|].
  rewrite IH, attr_reset.
  decide_cases; try done; exfalso;
    rewrite ?elem_of_cons in *; intuition congruence.
Qed.

Lemma attr_mark b w m k :
  attr (mark b w) m k
  = if decide (m = b ∧ k = "tabindex") then Some "null"
    else if decide (m = b ∧ k = "aria-selected") then Some "true"
    else attr w m k.
Proof. unfold mark. by rewrite !attr_update_set. Qed.

(** Attribute writes leave timers, focus, event flags and errors alone. *)
Definition same_bookkeeping (w w' : World) : Prop :=
  timers w' = timers w ∧ activeElement w' = activeElement w
  ∧ defaultPrevented w' = defaultPrevented w
  ∧ propagationStopped w' = propagationStopped w
  ∧ errors w' = errors w.

Lemma same_bookkeeping_reset l w : same_bookkeeping w (foldl reset w l).
Proof.
  unfold same_bookkeeping.
  revert w. induction l as [|x l IH]; intros w; simpl; [done|].
  destruct (IH (reset w x)) as (-> & -> & -> & -> & ->). done.
Qed.

Lemma same_bookkeeping_set_where P k v l w :
  same_bookkeeping w (foldl (set_where P k v) w l).
Proof.
  unfold same_bookkeeping.
  revert w. induction l as [|x l IH]; intros w; simpl; [done|].
  destruct (IH (set_where P k v w x)) as (-> & -> & -> & -> & ->).
  unfold set_where. by destruct (P x).
Qed.

Lemma reset_loop l w :
  forEach l (λ button _,
    setAttribute button "tabindex" "-1" ;;
    setAttribute button "aria-selected" "false") w
  = (foldl reset w l, Normal ()).
Proof. by apply forEach_total. Qed.

(** What [goToHeader] and [event.preventDefault()] leave behind. *)
Definition headed (t : nid) (w : World) : World :=
  with_timers (timers w ++ [t]) (mark t w).

Definition prevented (w : World) : World :=
  with_flags true (propagationStopped w) w.

Lemma goToHeader_run t w : goToHeader (Elem t) w = (headed t w, Normal ()).
Proof. reflexivity. Qed.

Lemma goToHeader_null r w :
  r ≠ Null → (∀ t, r ≠ Elem t) → goToHeader r w = (w, Throw TypeError).
Proof. destruct r; [done|done|]. intros _ H. by destruct (H n). Qed.

Lemma focusButtonEventHandler_run this event w :
  focusButtonEventHandler this event w
  = let w1 := foldl reset w
                (querySelectorAll_in w (root this) (buttonsSelector (options this))) in
    match resolve w (target event) with
    | Elem b => (mark b w1, Normal ())
    | _ => (w1, Throw TypeError)
    end.
Proof.
  unfold focusButtonEventHandler. mrun. fold (resolve w (target event)).
  rewrite reset_loop. mrun.
  by destruct (resolve w (target event)).
Qed.

(** The keys of the configured direction, and the target the handler of
    keydown on a toggle computes. *)
Definition keys_of (this : AriaAccordion) : Keys.t :=
  if decide (direction (options this) = "ltr") then ltrKeys else rtlKeys.

Definition allKeyCode (keys : Keys.t) : list Z :=
  Keys.prev keys ++ Keys.next keys ++ [Keys.first keys] ++ [Keys.last keys].

Definition firstButton (this : AriaAccordion) : Ref := at_index (buttons this) 0.

Definition lastButton (this : AriaAccordion) : Ref :=
  at_index (buttons this) (Z.of_nat (length (buttons this)) - 1).

Definition newTarget (this : AriaAccordion) (event : Event) (currentButton : Ref) : Ref :=
  let index := indexOf (buttons this) currentButton in
  if decide (keyCode event = keyHome) then firstButton this
  else if decide (keyCode event = keyEnd) then lastButton this
  else if bool_decide (keyCode event ∈ Keys.prev (keys_of this)) then
    if decide (currentButton = firstButton this) then lastButton this
    else at_index (buttons this) (index - 1)
  else if bool_decide (keyCode event ∈ Keys.next (keys_of this)) then
    if decide (currentButton = lastButton this) then firstButton this
    else at_index (buttons this) (index + 1)
  else Null.

(** Whether the handler of keydown on a toggle acts on the event. *)
Definition directional (this : AriaAccordion) (event : Event) : bool :=
  bool_decide (keyCode event ∈ allKeyCode (keys_of this)) && negb (ctrlKey event).

Lemma keydownButtonEventHandler_run this event w :
  keydownButtonEventHandler this event w
  = if directional this event
    then let w1 := foldl reset w (buttons this) in
         match newTarget this event (resolve w (target event)) with
         | Elem t => (prevented (headed t w1), Normal ())
         | Null => (prevented w1, Normal ())
         | Undefined => (w1, Throw TypeError)
         end
    else (w, Normal ()).
Proof.
  unfold keydownButtonEventHandler. rewrite run_bind, run_closest. cbv beta iota zeta.
  fold (resolve w (target event)) (keys_of this) (allKeyCode (keys_of this))
    (firstButton this) (lastButton this).
  fold (newTarget this event (resolve w (target event))) (directional this event).
  destruct (directional this event); [|done].
  rewrite run_bind, reset_loop. cbv beta iota zeta.
  destruct (newTarget this event (resolve w (target event))).
  - by rewrite decide_False by (intros H; by apply H).
  - by rewrite decide_True by done.
  - by rewrite decide_True, run_bind, goToHeader_run by done.
Qed.

(** The handler of keydown in a panel never gets past its first two
    statements. *)
Lemma keydownPanelEventHandler_run this event w :
  keydownPanelEventHandler this event w = (w, Throw TypeError).
Proof.
  unfold keydownPanelEventHandler, querySelector. rewrite run_bind.
  by destruct (querySelectorAll_in w (target event) (panelsSelector (options this))).
Qed.

(** The handler of click, when the target resolves to toggle [b] and the
    [aria-controls] of [b] resolves to element [p]. *)
Definition unselect_all (this : AriaAccordion) (w : World) : World :=
  foldl (set_where (λ _, true) "aria-selected" "false") w (buttons this).

Definition toggled (b p : nid) (w : World) : World :=
  if decide (attr w b "aria-expanded" = Some "false")
  then update p (set_attr "aria-hidden" "false")
         (update b (set_attr "aria-expanded" "true") w)
  else update p (set_attr "aria-hidden" "true")
         (update b (set_attr "aria-expanded" "false") w).

Definition collapse_others (this : AriaAccordion) (b p : nid) (w : World) : World :=
  if decide (multiselectable (options this) = false)
  then foldl (set_where (λ button, bool_decide (Elem b ≠ Elem button))
                "aria-expanded" "false")
         (foldl (set_where (λ panel, bool_decide (Elem p ≠ Elem panel))
                   "aria-hidden" "true") w (panels this))
         (buttons this)
  else w.

Definition stopped (w : World) : World :=
  with_flags (defaultPrevented w) true w.

Definition clicked (this : AriaAccordion) (b p : nid) (w : World) : World :=
  let w1 := update b (set_attr "aria-selected" "true") (unselect_all this w) in
  let w2 := collapse_others this b p (toggled b p w1) in
  prevented (stopped (with_timers (timers w2 ++ [b]) w2)).

Lemma set_where_loop (Q : nid → Prop) `{∀ x, Decision (Q x)} k v l w :
  forEach l (λ x _, if decide (Q x) then setAttribute x k v else mret ()) w
  = (foldl (set_where (λ x, bool_decide (Q x)) k v) w l, Normal ()).
Proof.
  apply forEach_total. intros x _ w'. unfold set_where.
  by destruct (decide (Q x));
    [rewrite bool_decide_true by done|rewrite bool_decide_false by done].
Qed.

Lemma clickButtonEventHandler_run this event w b p :
  resolve w (target event) = Elem b →
  getElementById_in w (DOMString (attr w b "aria-controls")) = Elem p →
  clickButtonEventHandler this event w = (clicked this b p w, Normal ()).
Proof.
  intros Hb Hp. unfold clickButtonEventHandler.
  rewrite run_bind, run_closest. fold (resolve w (target event)). rewrite Hb.
  mrun. rewrite Hp.
  rewrite (forEach_total (set_where (λ _, true) "aria-selected" "false"))
    by done.
  fold (unselect_all this w). mrun.
  set (w1 := update b (set_attr "aria-selected" "true") (unselect_all this w)).
  assert (∀ w',
    (if decide (multiselectable (options this) = false)
     then forEach (panels this) (λ panel _,
            if decide (Elem p ≠ Elem panel)
            then setAttribute panel "aria-hidden" "true" else mret ()) ;;
          forEach (buttons this) (λ button _,
            if decide (Elem b ≠ Elem button)
            then setAttribute button "aria-expanded" "false" else mret ())
     else mret ()) w' = (collapse_others this b p w', Normal ())) as Hco.
  { intros w'. unfold collapse_others.
    destruct (decide (multiselectable (options this) = false)); [|done].
    rewrite run_bind.
    rewrite (set_where_loop (λ panel, Elem p ≠ Elem panel)). cbv beta iota.
    apply (set_where_loop (λ button, Elem b ≠ Elem button)). }
  unfold clicked. fold w1. unfold toggled.
  destruct (decide (attr w1 b "aria-expanded" = Some "false")); mrun;
    rewrite Hco; by mrun.
Qed.

Lemma clickButtonEventHandler_unresolved this event w :
  (∀ b, resolve w (target event) ≠ Elem b) →
  clickButtonEventHandler this event w = (w, Throw TypeError).
Proof.
  intros Hb. unfold clickButtonEventHandler.
  rewrite run_bind, run_closest. fold (resolve w (target event)).
  destruct (resolve w (target event)) as [| |b]; [done|done|by destruct (Hb b)].
Qed.

(** ** What stays the same when only attributes are written *)

Section statics.
Context {K : list string} {w w' : World} (Hw : writes K w w').

Lemma writes_matches n s : matches (elems w' n) s = matches (elems w n) s.
Proof. unfold matches. by rewrite (w_tag _ _ _ Hw), (w_class _ _ _ Hw). Qed.

Lemma writes_closest_in chain s : closest_in w' chain s = closest_in w chain s.
Proof.
  induction chain as [|e up IH]; simpl; [done|].
  rewrite writes_matches, IH. unfold isHTMLHtmlElement.
  by rewrite (w_tag _ _ _ Hw).
Qed.

Lemma writes_resolve t : resolve w' t = resolve w t.
Proof. unfold resolve. by rewrite (w_tree _ _ _ Hw), writes_closest_in. Qed.

Lemma writes_querySelectorAll_in n s :
  querySelectorAll_in w' n s = querySelectorAll_in w n s.
Proof.
  unfold querySelectorAll_in. rewrite (w_tree _ _ _ Hw).
  apply list_filter_iff. intros d. by rewrite writes_matches.
Qed.

Lemma writes_getElementById_in i :
  "id" ∉ K → getElementById_in w' i = getElementById_in w i.
Proof.
  intros Hid. unfold getElementById_in. rewrite (w_tree _ _ _ Hw).
  destruct (decide (i = "")) as [|Hi]; [done|].
  induction (preorder (tree w)) as [|x l IH]; simpl; [done|].
  rewrite (w_attr _ _ _ Hw) by done.
  destruct (bool_decide (attr w x "id" = Some i)); [done|apply IH].
Qed.

Lemma writes_reachable n : "tabindex" ∉ K → reachable w' n = reachable w n.
Proof.
  intros HK. unfold reachable.
  by rewrite (w_attr _ _ _ Hw), (w_tag _ _ _ Hw) by done.
Qed.
End statics.

Definition state_attributes : list string :=
  ["tabindex"; "aria-selected"; "aria-expanded"; "aria-hidden"].

Lemma call_modifies this m event :
  modifies state_attributes (call this m event).
Proof.
  intros w. destruct m; simpl.
  - eapply writes_mono, focusButtonEventHandler_modifies. set_solver.
  - eapply writes_mono, clickButtonEventHandler_modifies. set_solver.
  - eapply writes_mono, keydownButtonEventHandler_modifies. set_solver.
  - eapply writes_mono, keydownPanelEventHandler_modifies. set_solver.
Qed.

Lemma invoke_writes K this event w l :
  modifies K (call this (l_method l) event) → writes K w (invoke this event w l).
Proof.
  intros H. specialize (H w). unfold invoke.
  destruct (call this (l_method l) event w) as [w' [[]|e]]; simpl in *; [done|].
  eapply writes_trans; [done|]. by split.
Qed.

(** ** Dispatch: induction principles *)

Lemma invoke_listeners this event w l :
  listeners (invoke this event w l) = listeners w.
Proof. eapply w_listeners, invoke_writes, call_modifies. Qed.

Lemma fold_invoke_ind this event (I : World → Prop) (ls : list Listener) w :
  I w →
  (∀ w' l, I w' → listeners w' = listeners w → l ∈ ls → I (invoke this event w' l)) →
  I (foldl (invoke this event) w ls)
  ∧ listeners (foldl (invoke this event) w ls) = listeners w.
Proof.
  revert w. induction ls as [|l ls IH]; intros w Hw H; simpl; [done|].
  destruct (IH (invoke this event w l)) as [H1 H2].
  - apply H; [done|done|set_solver].
  - intros w' l' Hw' Hl' Hin. apply H; [done| |set_solver].
    by rewrite Hl', invoke_listeners.
  - split; [done|]. by rewrite H2, invoke_listeners.
Qed.

Lemma propagate_ind this type event (I : World → Prop) path w :
  I w →
  (∀ w' l, I w' → l ∈ listeners w' → l_type l = type → l_element l ∈ path →
           I (invoke this event w' l)) →
  I (propagate this type event path w).
Proof.
  intros Hw H. revert w Hw. induction path as [|x up IH]; intros w Hw; simpl; [done|].
  destruct (propagationStopped w); [done|].
  apply IH; [intros; apply H; set_solver|].
  apply fold_invoke_ind; [done|].
  intros w' l Hw' Hl [[Hx Ht]%andb_True Hin]%list_elem_of_filter.
  apply bool_decide_unpack in Hx, Ht.
  apply H; [done|by rewrite Hl|done|set_solver].
Qed.

(** The nodes an event of the given type passes through. *)
Definition path_of (w : World) (type : string) (event : Event) : list nid :=
  if bubbles type
  then target event :: parentChain (tree w) (target event)
  else [target event].

(** A property of pages that does not depend on the event flags, the
    focused element and the pending timers. *)
Record bookkeeping_free (I : World → Prop) : Prop := {
  bf_flags : ∀ w d p, I w → I (with_flags d p w);
  bf_active : ∀ w a, I w → I (with_activeElement a w);
  bf_timers : ∀ w l, I w → I (with_timers l w)
}.

Lemma invoke_tree this event w l : tree (invoke this event w l) = tree w.
Proof. eapply w_tree, invoke_writes, call_modifies. Qed.

Lemma dispatchEvent_ind this type event (I : World → Prop) w :
  bookkeeping_free I →
  I w →
  (∀ w' l, I w' → l ∈ listeners w' → l_type l = type →
           l_element l ∈ path_of w' type event →
           I (invoke this event w' l)) →
  I (dispatchEvent this type event w).
Proof.
  intros HI Hw H. unfold dispatchEvent. fold (path_of w type event).
  enough (I (propagate this type event (path_of w type event) (with_flags false false w))
          ∧ tree (propagate this type event (path_of w type event)
                    (with_flags false false w)) = tree w) as [? _]; [done|].
  apply (propagate_ind this type event (λ w', I w' ∧ tree w' = tree w)).
  - split; [by apply bf_flags|done].
  - intros w' l [Hw' Ht] Hl Hty Hel. split.
    + apply H; try done. unfold path_of in *. by rewrite Ht.
    + by rewrite invoke_tree.
Qed.

Lemma focus_ind this (I : World → Prop) w t :
  bookkeeping_free I →
  I w →
  (∀ w' l, I w' → l ∈ listeners w' → l_type l = "focus" → l_element l = t →
           I (invoke this (eventAt t) w' l)) →
  I (focus this w t).
Proof.
  intros HI Hw H. unfold focus.
  destruct (decide (activeElement w = Some t)); [done|].
  apply dispatchEvent_ind; [done|by apply bf_active|].
  intros w' l Hw' Hl Hty Hel. unfold path_of in Hel. simpl in Hel.
  apply list_elem_of_singleton in Hel. by apply H.
Qed.

Lemma fold_focus_ind this (I : World → Prop) ts w :
  bookkeeping_free I →
  I w →
  (∀ w' l, I w' → l ∈ listeners w' → l_type l = "focus" → l_element l ∈ ts →
           I (invoke this (eventAt (l_element l)) w' l)) →
  I (foldl (focus this) w ts).
Proof.
  intros HI. revert w. induction ts as [|t ts IH]; intros w Hw H; simpl; [done|].
  apply IH; [|intros; apply H; set_solver].
  apply focus_ind; [done|done|].
  intros w' l Hw' Hl Hty <-. apply H; set_solver.
Qed.

Lemma runTimers_ind this (I : World → Prop) w :
  bookkeeping_free I →
  I w →
  (∀ w' l, I w' → l ∈ listeners w' → l_type l = "focus" →
           l_element l ∈ timers w →
           I (invoke this (eventAt (l_element l)) w' l)) →
  I (runTimers this w).
Proof.
  intros HI Hw H. unfold runTimers.
  apply fold_focus_ind; [done|by apply bf_timers|done].
Qed.

Definition type_of (i : Interaction) : string :=
  match i with
  | Focus _ => "focus"
  | Click _ => "click"
  | Keydown _ => "keydown"
  end.

Definition event_of (i : Interaction) : Event :=
  match i with
  | Focus t => eventAt t
  | Click t => eventAt t
  | Keydown event => event
  end.

(** To show that a property of pages survives an interaction, it is enough
    to show that it survives every listener call the interaction can cause:
    the focus listeners of any element, called with a focus event at that
    element, and the listeners for the event itself on its path. *)
Lemma interact_ind this (I : World → Prop) w i :
  bookkeeping_free I →
  I w →
  (∀ w' l, I w' → l ∈ listeners w' → l_type l = "focus" →
           I (invoke this (eventAt (l_element l)) w' l)) →
  (∀ w' l, I w' → l ∈ listeners w' → l_type l = type_of i → type_of i ≠ "focus" →
           l_element l ∈ path_of w' (type_of i) (event_of i) →
           I (invoke this (event_of i) w' l)) →
  I (interact this w i).
Proof.
  intros HI Hw Hf He. unfold interact.
  apply runTimers_ind; [done| |by intros; apply Hf].
  destruct i as [t|t|event].
  - apply focus_ind; [done|done|]. intros w' l Hw' Hl Hty <-. by apply Hf.
  - apply dispatchEvent_ind; [done|done|].
    intros w' l Hw' Hl Hty Hel. by apply (He w' l).
  - apply dispatchEvent_ind; [done|done|].
    intros w' l Hw' Hl Hty Hel. by apply (He w' l).
Qed.

(** ** The decorated accordion *)

(** A listener as [initEvents] registers them: the three handlers of
    toggles on tracked toggles, each for its own event type, and the
    handler of panels for keydown. *)
Definition listener_ok (this : AriaAccordion) (l : Listener) : bool :=
  match l_method l with
  | focusButton =>
      bool_decide (l_type l = "focus") && bool_decide (l_element l ∈ buttons this)
  | clickButton =>
      bool_decide (l_type l = "click") && bool_decide (l_element l ∈ buttons this)
  | keydownButton =>
      bool_decide (l_type l = "keydown") && bool_decide (l_element l ∈ buttons this)
  | keydownPanel => bool_decide (l_type l = "keydown")
  end.

Definition listeners_of (b : nid) : list Listener :=
  [ {| l_element := b; l_type := "focus"; l_method := focusButton |};
    {| l_element := b; l_type := "click"; l_method := clickButton |};
    {| l_element := b; l_type := "keydown"; l_method := keydownButton |} ].

(** The page carries listeners of the controller only, and every tracked
    toggle has its three. *)
Definition wired (this : AriaAccordion) (w : World) : bool :=
  forallb (listener_ok this) (listeners w)
  && forallb (λ b, forallb (λ l, bool_decide (l ∈ listeners w)) (listeners_of b))
       (buttons this).

(** The buttons selector finds the tracked toggles, and they are button
    elements. *)
Definition tracked (this : AriaAccordion) (w : World) : bool :=
  bool_decide (querySelectorAll_in w (root this) (buttonsSelector (options this))
               = buttons this)
  && forallb (λ b, bool_decide (tagName (elems w b) = "button")) (buttons this).

Lemma wired_sound this w l :
  wired this w = true → l ∈ listeners w → listener_ok this l = true.
Proof.
  intros [H _]%andb_prop Hl.
  rewrite forallb_forall in H. apply H. by apply list_elem_of_In.
Qed.

Lemma wired_focus this w l :
  wired this w = true → l ∈ listeners w → l_type l = "focus" →
  l_method l = focusButton ∧ l_element l ∈ buttons this.
Proof.
  intros Hw Hl Hty. pose proof (wired_sound _ _ _ Hw Hl) as Hok.
  unfold listener_ok in Hok. rewrite Hty in Hok.
  destruct (l_method l); try done.
  apply andb_prop in Hok as [_ Hb]. by apply bool_decide_eq_true in Hb.
Qed.

Lemma wired_click this w l :
  wired this w = true → l ∈ listeners w → l_type l = "click" →
  l_method l = clickButton ∧ l_element l ∈ buttons this.
Proof.
  intros Hw Hl Hty. pose proof (wired_sound _ _ _ Hw Hl) as Hok.
  unfold listener_ok in Hok. rewrite Hty in Hok.
  destruct (l_method l); try done.
  apply andb_prop in Hok as [_ Hb]. by apply bool_decide_eq_true in Hb.
Qed.

Lemma wired_keydown this w l :
  wired this w = true → l ∈ listeners w → l_type l = "keydown" →
  (l_method l = keydownButton ∧ l_element l ∈ buttons this)
  ∨ l_method l = keydownPanel.
Proof.
  intros Hw Hl Hty. pose proof (wired_sound _ _ _ Hw Hl) as Hok.
  unfold listener_ok in Hok. rewrite Hty in Hok.
  destruct (l_method l); try done; [left|by right].
  apply andb_prop in Hok as [_ Hb]. by apply bool_decide_eq_true in Hb.
Qed.

Lemma wired_writes K this w w' : writes K w w' → wired this w' = wired this w.
Proof. intros H. unfold wired. by rewrite (w_listeners _ _ _ H). Qed.

Lemma tracked_writes K this w w' : writes K w w' → tracked this w' = tracked this w.
Proof.
  intros H. unfold tracked. rewrite (writes_querySelectorAll_in H). f_equal.
  induction (buttons this) as [|b l IH]; simpl; [done|].
  by rewrite IH, (w_tag _ _ _ H).
Qed.

Lemma writes_bookkeeping K w : bookkeeping_free (writes K w).
Proof.
  split; intros;
    match goal with H : writes _ _ _ |- _ => destruct H end; by split.
Qed.

Lemma writes_with_errors K w l : writes K w (with_errors l w).
Proof. by split. Qed.

(** C10. Keyboard navigation between toggles never expands or collapses a
    panel: however a keydown event is handled, with the focus transfers it
    schedules, every element keeps its [aria-hidden] and [aria-expanded]
    attributes. *)
Theorem keydown_keeps_panels this w event n :
  wired this w = true →
  attr (interact this w (Keydown event)) n "aria-hidden" = attr w n "aria-hidden"
  ∧ attr (interact this w (Keydown event)) n "aria-expanded" = attr w n "aria-expanded".
Proof.
  intros Hwired.
  assert (writes focus_ring w (interact this w (Keydown event))) as H.
  { apply interact_ind.
    - apply writes_bookkeeping.
    - apply writes_refl.
    - intros w' l Hw' Hl Hty.
      eapply writes_trans; [done|]. apply invoke_writes.
      rewrite <- (wired_writes _ this _ _ Hw') in Hwired.
      destruct (wired_focus _ _ _ Hwired Hl Hty) as [-> _].
      apply focusButtonEventHandler_modifies.
    - intros w' l Hw' Hl Hty _ _. simpl in Hty.
      eapply writes_trans; [done|]. apply invoke_writes.
      rewrite <- (wired_writes _ this _ _ Hw') in Hwired.
      destruct (wired_keydown _ _ _ Hwired Hl Hty) as [[-> _]| ->].
      + apply keydownButtonEventHandler_modifies.
      + apply keydownPanelEventHandler_modifies. }
  split; apply (w_attr _ _ _ H); unfold focus_ring; set_solver.
Qed.

(** ** Arrays of toggles: indices *)

Lemma at_index_lookup l (k : nat) x :
  l !! k = Some x → at_index l (Z.of_nat k) = Elem x.
Proof.
  intros H. unfold at_index.
  rewrite bool_decide_false by lia. by rewrite Nat2Z.id, H.
Qed.

Lemma at_index_elem l i x : at_index l i = Elem x → x ∈ l.
Proof.
  unfold at_index. destruct (bool_decide (i < 0)); [done|].
  destruct (l !! Z.to_nat i) eqn:H; [|done].
  intros [= <-]. by eapply list_elem_of_lookup_2.
Qed.

Lemma at_index_in_range l i :
  0 ≤ i < Z.of_nat (length l) → ∃ x, at_index l i = Elem x ∧ x ∈ l.
Proof.
  intros Hi. destruct (lookup_lt_is_Some_2 l (Z.to_nat i)) as [x Hx]; [lia|].
  exists x. split; [|by eapply list_elem_of_lookup_2].
  rewrite <- (Z2Nat.id i) by lia. by apply at_index_lookup.
Qed.

Lemma index_from_elem i l n :
  n ∈ l →
  ∃ k : nat, index_from i l n = i + Z.of_nat k ∧ l !! k = Some n.
Proof.
  revert i. induction l as [|m l IH]; intros i Hn; [by apply elem_of_nil in Hn|].
  simpl. destruct (decide (m = n)) as [->|Hm].
  - exists 0%nat. split; [lia|done].
  - apply elem_of_cons in Hn as [->|Hn]; [done|].
    destruct (IH (i + 1) Hn) as (k & Hk & Hl).
    exists (S k). split; [lia|done].
Qed.

Lemma indexOf_elem l n :
  n ∈ l → ∃ k : nat, indexOf l (Elem n) = Z.of_nat k ∧ l !! k = Some n.
Proof.
  intros Hn. destruct (index_from_elem 0 l n Hn) as (k & Hk & Hl).
  exists k. split; [|done]. simpl. lia.
Qed.

Lemma keys_of_first this : Keys.first (keys_of this) = keyHome.
Proof. unfold keys_of. by case_decide. Qed.

Lemma keys_of_last this : Keys.last (keys_of this) = keyEnd.
Proof. unfold keys_of. by case_decide. Qed.

(** On a tracked toggle, every directional key has a tracked toggle as its
    target. *)
Lemma newTarget_tracked this event b :
  b ∈ buttons this →
  keyCode event ∈ allKeyCode (keys_of this) →
  ∃ t, newTarget this event (Elem b) = Elem t ∧ t ∈ buttons this.
Proof.
  intros Hb Hkey.
  assert (0 < Z.of_nat (length (buttons this))) as Hlen.
  { destruct (buttons this); [by apply elem_of_nil in Hb|simpl; lia]. }
  destruct (indexOf_elem _ _ Hb) as (k & Hk & Hl).
  pose proof (lookup_lt_Some _ _ _ Hl) as Hklt.
  unfold newTarget, firstButton, lastButton. rewrite Hk.
  destruct (decide (keyCode event = keyHome)); [apply at_index_in_range; lia|].
  destruct (decide (keyCode event = keyEnd)); [apply at_index_in_range; lia|].
  destruct (bool_decide (keyCode event ∈ Keys.prev (keys_of this))) eqn:Hprev.
  { destruct (decide (Elem b = at_index (buttons this) 0)) as [Hfirst|Hfirst];
      [apply at_index_in_range; lia|].
    apply at_index_in_range. split; [|lia].
    destruct k; [|lia]. by rewrite (at_index_lookup _ 0 b) in Hfirst. }
  destruct (bool_decide (keyCode event ∈ Keys.next (keys_of this))) eqn:Hnext.
  { destruct (decide (Elem b = at_index (buttons this)
                                   (Z.of_nat (length (buttons this)) - 1)))
      as [Hlast|Hlast]; [apply at_index_in_range; lia|].
    apply at_index_in_range. split; [lia|].
    destruct (decide (S k = length (buttons this))) as [Hk'|]; [|lia].
    exfalso. apply Hlast. symmetry.
    replace (Z.of_nat (length (buttons this)) - 1) with (Z.of_nat k) by lia.
    by apply at_index_lookup. }
  exfalso. apply bool_decide_eq_false in Hprev, Hnext.
  unfold allKeyCode in Hkey. rewrite keys_of_first, keys_of_last in Hkey.
  set_solver.
Qed.

(** ** The focus ring *)

(** Exactly one tracked toggle is reachable. *)
Definition single_reachable (this : AriaAccordion) (w : World) : Prop :=
  ∃ b, b ∈ buttons this
       ∧ ∀ b', b' ∈ buttons this → reachable w b' = bool_decide (b' = b).

(** The ring points at [t]: among the elements of [bs], [t] alone is
    reachable and selected. *)
Definition ring_at (bs : list nid) (t : nid) (w : World) : Prop :=
  ∀ b, b ∈ bs →
    attr w b "tabindex" = Some (if decide (b = t) then "null" else "-1")
    ∧ attr w b "aria-selected" = Some (if decide (b = t) then "true" else "false").

Lemma ring_at_mark bs t w : ring_at bs t (mark t (foldl reset w bs)).
Proof.
  intros b Hb. rewrite !attr_mark, !attr_reset_all.
  decide_cases; try done; exfalso; intuition congruence.
Qed.

Lemma ring_at_reachable this t w :
  t ∈ buttons this → tagName (elems w t) = "button" →
  ring_at (buttons this) t w → single_reachable this w.
Proof.
  intros Ht Htag H. exists t. split; [done|]. intros b Hb.
  destruct (H b Hb) as [Htab _]. unfold reachable. rewrite Htab.
  destruct (decide (b = t)) as [->|Hne]; simpl.
  - by rewrite Htag, !bool_decide_true.
  - by rewrite bool_decide_false.
Qed.

(** *** Interactions aimed at toggles *)

(** The event target resolves to a tracked toggle. *)
Definition on_toggle (this : AriaAccordion) (w : World) (t : nid) : bool :=
  match resolve w t with
  | Elem b => bool_decide (b ∈ buttons this)
  | _ => false
  end.

(** The event passes through a tracked toggle on its way up. *)
Definition passes_toggle (this : AriaAccordion) (w : World) (i : Interaction) : bool :=
  bool_decide (Exists (λ n, n ∈ buttons this) (path_of w (type_of i) (event_of i))).

(** A click or a key press that reaches a tracked toggle comes from within
    that toggle: its target resolves to a tracked toggle. *)
Definition well_aimed (this : AriaAccordion) (w : World) (i : Interaction) : bool :=
  match i with
  | Focus _ => true
  | _ => implb (passes_toggle this w i) (on_toggle this w (target (event_of i)))
  end.

Lemma well_aimed_writes K this w w' i :
  writes K w w' → well_aimed this w' i = well_aimed this w i.
Proof.
  intros H. unfold well_aimed, passes_toggle, on_toggle, path_of.
  by rewrite (w_tree _ _ _ H), (writes_resolve H).
Qed.

Lemma tracked_tag this w b :
  tracked this w = true → b ∈ buttons this → tagName (elems w b) = "button".
Proof.
  intros [_ H]%andb_prop Hb. rewrite forallb_forall in H.
  apply list_elem_of_In, H in Hb. by apply bool_decide_eq_true in Hb.
Qed.

Lemma tracked_query this w :
  tracked this w = true →
  querySelectorAll_in w (root this) (buttonsSelector (options this)) = buttons this.
Proof. intros [H _]%andb_prop. by apply bool_decide_eq_true in H. Qed.

(** A tracked toggle resolves to itself. *)
Lemma tracked_resolve this w b :
  tracked this w = true → b ∈ buttons this → resolve w b = Elem b.
Proof.
  intros Ht Hb. unfold resolve. simpl. unfold matches at 1. simpl.
  by rewrite (tracked_tag _ _ _ Ht Hb), bool_decide_true.
Qed.

Lemma well_aimed_resolve this w i l :
  well_aimed this w i = true → type_of i ≠ "focus" →
  l_element l ∈ buttons this →
  l_element l ∈ path_of w (type_of i) (event_of i) →
  ∃ b, resolve w (target (event_of i)) = Elem b ∧ b ∈ buttons this.
Proof.
  intros Hi Hty Hb Hp.
  assert (passes_toggle this w i = true) as Hpass.
  { apply bool_decide_eq_true, Exists_exists. eauto. }
  destruct i as [t|t|event]; [done|..]; simpl in Hi;
    rewrite Hpass in Hi; simpl in Hi; unfold on_toggle in Hi;
    (destruct (resolve w _) as [| |b]; [done|done|]);
    exists b; split; [done| |done|]; by apply bool_decide_eq_true in Hi.
Qed.

(** *** What one listener call does to the focus ring *)

Lemma invoke_focus_ring this w l :
  wired this w = true → tracked this w = true →
  l ∈ listeners w → l_type l = "focus" →
  ring_at (buttons this) (l_element l) (invoke this (eventAt (l_element l)) w l)
  ∧ l_element l ∈ buttons this
  ∧ errors (invoke this (eventAt (l_element l)) w l) = errors w.
Proof.
  intros Hw Ht Hl Hty. destruct (wired_focus _ _ _ Hw Hl Hty) as [Hm Hb].
  unfold invoke. rewrite Hm. simpl.
  rewrite focusButtonEventHandler_run. simpl.
  rewrite (tracked_resolve _ _ _ Ht Hb), (tracked_query _ _ Ht).
  split; [apply ring_at_mark|]. split; [done|].
  apply (same_bookkeeping_reset (buttons this) w).
Qed.

Lemma ring_at_headed bs t w :
  ring_at bs t (prevented (headed t (foldl reset w bs))).
Proof. apply ring_at_mark. Qed.

(** The handler of keydown on a toggle either moves the ring to the target
    of the key, or does nothing at all. *)
Lemma invoke_keydownButton this w l event b :
  tracked this w = true →
  l_method l = keydownButton →
  resolve w (target event) = Elem b → b ∈ buttons this →
  let w' := invoke this event w l in
  (directional this event = true
   ∧ errors w' = errors w
   ∧ ∃ t, newTarget this event (Elem b) = Elem t
          ∧ t ∈ buttons this ∧ ring_at (buttons this) t w'
          ∧ timers w' = timers w ++ [t] ∧ defaultPrevented w' = true)
  ∨ (directional this event = false ∧ w' = w).
Proof.
  intros Ht Hm Hb Hin w'. subst w'. unfold invoke. rewrite Hm. simpl.
  rewrite keydownButtonEventHandler_run.
  destruct (directional this event) eqn:Hdir; [|right; auto].
  left. split; [done|].
  apply andb_prop in Hdir as [Hkey%bool_decide_eq_true _].
  rewrite Hb. destruct (newTarget_tracked this event b Hin Hkey) as (t & -> & Htin).
  simpl. destruct (same_bookkeeping_reset (buttons this) w) as (Ht1 & _ & _ & _ & He).
  split; [done|]. exists t. split; [done|]. split; [done|].
  split; [apply ring_at_headed|]. by rewrite <- Ht1.
Qed.

Lemma invoke_keydownPanel this w l event :
  l_method l = keydownPanel →
  invoke this event w l = with_errors (errors w ++ [TypeError]) w.
Proof.
  intros Hm. unfold invoke. rewrite Hm. simpl.
  by rewrite keydownPanelEventHandler_run.
Qed.

Lemma single_reachable_writes K this w w' :
  "tabindex" ∉ K → writes K w w' →
  single_reachable this w → single_reachable this w'.
Proof.
  intros HK Hw (b & Hb & H). exists b. split; [done|].
  intros b' Hb'. rewrite (writes_reachable Hw) by done. by apply H.
Qed.

Lemma single_reachable_bookkeeping this : bookkeeping_free (single_reachable this).
Proof. by split. Qed.

Lemma and_bookkeeping (I J : World → Prop) :
  bookkeeping_free I → bookkeeping_free J → bookkeeping_free (λ w, I w ∧ J w).
Proof.
  intros HI HJ. split.
  - intros w d p [H1 H2]. split; by apply bf_flags.
  - intros w a [H1 H2]. split; by apply bf_active.
  - intros w l [H1 H2]. split; by apply bf_timers.
Qed.

(** Each settled interaction that is aimed at a toggle leaves exactly one
    toggle reachable. *)
Lemma interact_single_reachable this w i :
  wired this w = true → tracked this w = true → well_aimed this w i = true →
  single_reachable this w →
  writes state_attributes w (interact this w i)
  ∧ single_reachable this (interact this w i).
Proof.
  intros Hwired Htracked Haimed Hsingle.
  apply (interact_ind this
           (λ w', writes state_attributes w w' ∧ single_reachable this w')).
  - apply and_bookkeeping;
      [apply writes_bookkeeping|apply single_reachable_bookkeeping].
  - split; [apply writes_refl|done].
  - intros w' l [Hw' Hs] Hl Hty.
    split; [eapply writes_trans; [done|apply invoke_writes, call_modifies]|].
    rewrite <- (wired_writes _ this _ _ Hw') in Hwired.
    rewrite <- (tracked_writes _ this _ _ Hw') in Htracked.
    destruct (invoke_focus_ring _ _ _ Hwired Htracked Hl Hty) as (Hr & Hb & _).
    apply (ring_at_reachable this (l_element l)); [done| |done].
    erewrite w_tag by (apply invoke_writes, call_modifies).
    by apply (tracked_tag this).
  - intros w' l [Hw' Hs] Hl Hty Hnf Hpath.
    split; [eapply writes_trans; [done|apply invoke_writes, call_modifies]|].
    rewrite <- (wired_writes _ this _ _ Hw') in Hwired.
    rewrite <- (tracked_writes _ this _ _ Hw') in Htracked.
    rewrite <- (well_aimed_writes _ this _ _ _ Hw') in Haimed.
    destruct i as [t|t|event]; [done|..]; simpl in Hty.
    + destruct (wired_click _ _ _ Hwired Hl Hty) as [Hm _].
      eapply (single_reachable_writes toggle_state); [|apply invoke_writes|done].
      * unfold toggle_state. set_solver.
      * rewrite Hm. apply clickButtonEventHandler_modifies.
    + destruct (wired_keydown _ _ _ Hwired Hl Hty) as [[Hm Hb]|Hm].
      * destruct (well_aimed_resolve _ _ _ l Haimed Hnf Hb Hpath) as (b & Hres & Hin).
        change (event_of (Keydown event)) with event in *.
        destruct (invoke_keydownButton this w' l event b Htracked Hm Hres Hin)
          as [(_ & _ & t & _ & Htin & Hr & _)|[_ ->]]; [|done].
        apply (ring_at_reachable this t); [done| |done].
        erewrite w_tag by (apply invoke_writes, call_modifies).
        by apply (tracked_tag this).
      * by rewrite invoke_keydownPanel.
Qed.

(** ** Clicks *)

Lemma attr_prevented w n k : attr (prevented w) n k = attr w n k.
Proof. reflexivity. Qed.

Lemma attr_stopped w n k : attr (stopped w) n k = attr w n k.
Proof. reflexivity. Qed.

Lemma attr_with_timers l w n k : attr (with_timers l w) n k = attr w n k.
Proof. reflexivity. Qed.

(** Whether toggle [b] is about to be opened by a click. *)
Definition closed (w : World) (b : nid) : Prop :=
  attr w b "aria-expanded" = Some "false".

#[global] Instance closed_dec w b : Decision (closed w b).
Proof. unfold closed. apply _. Defined.

(** Decisions on two attribute names that are literally equal or
    literally different. *)
Ltac keys :=
  repeat match goal with
         | |- context [decide (?A ∧ ?k1 = ?k2)] =>
             first
               [ rewrite (decide_ext (A ∧ k1 = k2) A) by (split; [tauto|done])
               | rewrite (decide_False (P := A ∧ k1 = k2))
                   by (intros [_ ?]; discriminate) ]
         end.

Lemma attr_set_others (x : nid) k v l w n k' :
  attr (foldl (set_where (λ y, bool_decide (Elem x ≠ Elem y)) k v) w l) n k'
  = if decide ((n ∈ l ∧ n ≠ x) ∧ k' = k) then Some v else attr w n k'.
Proof.
  rewrite attr_set_where. apply decide_ext.
  rewrite bool_decide_eq_true. split; intros [[? ?] ?]; (split; [split|]); congruence.
Qed.

Lemma attr_toggled b p w n k :
  attr (toggled b p w) n k
  = if decide (n = p ∧ k = "aria-hidden")
    then Some (if decide (closed w b) then "false" else "true")
    else if decide (n = b ∧ k = "aria-expanded")
         then Some (if decide (closed w b) then "true" else "false")
         else attr w n k.
Proof.
  unfold toggled. fold (closed w b).
  destruct (decide (closed w b)); by rewrite !attr_update_set.
Qed.

Lemma attr_collapse_others this b p w n k :
  attr (collapse_others this b p w) n k
  = if decide (multiselectable (options this) = false)
    then if decide ((n ∈ buttons this ∧ n ≠ b) ∧ k = "aria-expanded")
         then Some "false"
         else if decide ((n ∈ panels this ∧ n ≠ p) ∧ k = "aria-hidden")
              then Some "true"
              else attr w n k
    else attr w n k.
Proof.
  unfold collapse_others.
  destruct (decide (multiselectable (options this) = false)); [|done].
  by rewrite !attr_set_others.
Qed.

Lemma closed_selected this b w :
  closed (update b (set_attr "aria-selected" "true") (unselect_all this w)) b
  ↔ closed w b.
Proof.
  unfold closed, unselect_all. rewrite attr_update_set, attr_set_where. by keys.
Qed.

Lemma attr_clicked this b p w n k :
  k ≠ "aria-selected" →
  attr (clicked this b p w) n k
  = attr (collapse_others this b p (toggled b p w)) n k.
Proof.
  intros Hk. unfold clicked.
  rewrite attr_prevented, attr_stopped, attr_with_timers.
  rewrite !attr_collapse_others, !attr_toggled.
  rewrite !(decide_ext _ _ _ _ (closed_selected this b w)).
  unfold unselect_all. rewrite attr_update_set, attr_set_where.
  by rewrite !(decide_False (P := _ ∧ k = "aria-selected")) by (by intros [_ ?]).
Qed.

Lemma clickButtonEventHandler_unpaired this event w b :
  resolve w (target event) = Elem b →
  (∀ p, getElementById_in w (DOMString (attr w b "aria-controls")) ≠ Elem p) →
  ∃ w', clickButtonEventHandler this event w = (w', Throw TypeError)
        ∧ writes ["aria-selected"; "aria-expanded"] w w'.
Proof.
  intros Hb Hp. unfold clickButtonEventHandler.
  rewrite run_bind, run_closest. fold (resolve w (target event)). rewrite Hb.
  mrun.
  rewrite (forEach_total (set_where (λ _, true) "aria-selected" "false")) by done.
  mrun.
  set (w0 := foldl (set_where (λ _, true) "aria-selected" "false") w (buttons this)).
  assert (writes ["aria-selected"; "aria-expanded"] w w0) as H0
    by (apply writes_set_where; set_solver).
  set (w1 := update b (set_attr "aria-selected" "true") w0).
  assert (writes ["aria-selected"; "aria-expanded"] w w1) as H1.
  { eapply writes_trans; [done|]. apply writes_update_set. set_solver. }
  destruct (getElementById_in w (DOMString (attr w b "aria-controls")))
    as [| |p] eqn:Hcp; [| |by destruct (Hp p)];
    destruct (decide (attr w1 b "aria-expanded" = Some "false")); mrun;
    eexists; (split; [reflexivity|]);
    (eapply writes_trans; [done|]); apply writes_update_set; set_solver.
Qed.

(** A click either toggles a toggle and its panel, or stops at a missing
    toggle or panel before it writes any [aria-hidden]. *)
Lemma click_cases this event w :
  (∃ b p, resolve w (target event) = Elem b
          ∧ getElementById_in w (DOMString (attr w b "aria-controls")) = Elem p
          ∧ clickButtonEventHandler this event w = (clicked this b p w, Normal ()))
  ∨ (∃ w', clickButtonEventHandler this event w = (w', Throw TypeError)
           ∧ writes ["aria-selected"; "aria-expanded"] w w').
Proof.
  destruct (resolve w (target event)) as [| |b] eqn:Hb.
  - right. exists w. split; [|apply writes_refl].
    apply clickButtonEventHandler_unresolved. by rewrite Hb.
  - right. exists w. split; [|apply writes_refl].
    apply clickButtonEventHandler_unresolved. by rewrite Hb.
  - destruct (getElementById_in w (DOMString (attr w b "aria-controls")))
      as [| |p] eqn:Hp.
    + right. apply (clickButtonEventHandler_unpaired this event w b); [done|].
      by rewrite Hp.
    + right. apply (clickButtonEventHandler_unpaired this event w b); [done|].
      by rewrite Hp.
    + left. exists b, p. split; [done|]. split; [done|].
      by apply clickButtonEventHandler_run.
Qed.

(** ** At most one panel open *)

Definition at_most_one_visible (this : AriaAccordion) (w : World) : Prop :=
  ∀ p1 p2, p1 ∈ panels this → p2 ∈ panels this →
           visible w p1 = true → visible w p2 = true → p1 = p2.

Lemma visible_writes K w w' n :
  "aria-hidden" ∉ K → writes K w w' → visible w' n = visible w n.
Proof. intros HK H. unfold visible, hidden. by rewrite (w_attr _ _ _ H). Qed.

Lemma visible_clicked this b p w n :
  multiselectable (options this) = false →
  n ∈ panels this → visible (clicked this b p w) n = true → n = p.
Proof.
  intros Hm Hn. unfold visible, hidden.
  rewrite attr_clicked, attr_collapse_others by done.
  rewrite decide_True by done. keys.
  destruct (decide (n = p)) as [|Hne]; [done|].
  rewrite decide_True by done. by rewrite bool_decide_true.
Qed.

Lemma call_at_most_one_visible this m event w :
  multiselectable (options this) = false →
  at_most_one_visible this w →
  at_most_one_visible this (fst (call this m event w)).
Proof.
  intros Hm Hw.
  assert (∀ w', writes focus_ring w w' → at_most_one_visible this w') as Hring.
  { assert ("aria-hidden" ∉ focus_ring) as HK by (unfold focus_ring; set_solver).
    intros w' H p1 p2 H1 H2. rewrite !(visible_writes _ w w' _ HK H).
    by apply Hw. }
  destruct m; simpl.
  - apply Hring, focusButtonEventHandler_modifies.
  - destruct (click_cases this event w) as [(b & p & _ & _ & ->)|(w' & -> & H)]; simpl.
    + intros p1 p2 H1 H2 V1 V2.
      apply (visible_clicked this b p w) in V1, V2; congruence.
    + assert ("aria-hidden" ∉ ["aria-selected"; "aria-expanded"]) as HK
        by set_solver.
      intros p1 p2 H1 H2. rewrite !(visible_writes _ w w' _ HK H).
      by apply Hw.
  - apply Hring, keydownButtonEventHandler_modifies.
  - apply Hring, keydownPanelEventHandler_modifies.
Qed.

Lemma at_most_one_visible_bookkeeping this :
  bookkeeping_free (at_most_one_visible this).
Proof. by split. Qed.

Lemma invoke_at_most_one_visible this event w l :
  multiselectable (options this) = false →
  at_most_one_visible this w →
  at_most_one_visible this (invoke this event w l).
Proof.
  intros Hm Hw.
  pose proof (call_at_most_one_visible this (l_method l) event w Hm Hw) as H.
  unfold invoke. by destruct (call this (l_method l) event w) as [w' [[]|e]].
Qed.

(** In single-select mode an interaction never leaves two panels open. *)
Lemma interact_at_most_one_visible this w i :
  multiselectable (options this) = false →
  at_most_one_visible this w →
  at_most_one_visible this (interact this w i).
Proof.
  intros Hm Hw. apply interact_ind.
  - apply at_most_one_visible_bookkeeping.
  - done.
  - intros. by apply invoke_at_most_one_visible.
  - intros. by apply invoke_at_most_one_visible.
Qed.

(** ** Toggles mirror their panels *)

(** Toggle and panel of the same ordinal. *)
Definition pairs (this : AriaAccordion) : list (nid * nid) :=
  zip (buttons this) (panels this).

Definition mirror (this : AriaAccordion) (w : World) : Prop :=
  ∀ b p, (b, p) ∈ pairs this → expanded w b = visible w p.

(** There is one toggle per panel, and the id that a toggle controls is
    found by [document.getElementById] to be the panel of the same
    ordinal. *)
Definition paired (this : AriaAccordion) (w : World) : bool :=
  bool_decide (length (buttons this) = length (panels this))
  && bool_decide (NoDup (panels this))
  && forallb (λ bp, bool_decide (getElementById_in w
                                   (DOMString (attr w bp.1 "aria-controls"))
                                 = Elem bp.2)) (pairs this).

Lemma paired_length this w :
  paired this w = true → length (buttons this) = length (panels this).
Proof. intros [[H _]%andb_prop _]%andb_prop. by apply bool_decide_eq_true in H. Qed.

Lemma paired_NoDup this w : paired this w = true → NoDup (panels this).
Proof. intros [[_ H]%andb_prop _]%andb_prop. by apply bool_decide_eq_true in H. Qed.

Lemma paired_controls this w b p :
  paired this w = true → (b, p) ∈ pairs this →
  getElementById_in w (DOMString (attr w b "aria-controls")) = Elem p.
Proof.
  intros [_ H]%andb_prop Hbp. rewrite forallb_forall in H.
  apply list_elem_of_In, H in Hbp. by apply bool_decide_eq_true in Hbp.
Qed.

Lemma paired_writes this w w' :
  writes state_attributes w w' → paired this w' = paired this w.
Proof.
  intros H. unfold paired. f_equal.
  induction (pairs this) as [|[b p] l IH]; simpl; [done|].
  rewrite IH, (writes_getElementById_in H), (w_attr _ _ _ H);
    [done|..]; unfold state_attributes; set_solver.
Qed.

Lemma pairs_button this w b :
  paired this w = true → b ∈ buttons this → ∃ p, (b, p) ∈ pairs this.
Proof.
  intros Hp [i Hi]%list_elem_of_lookup_1.
  destruct (lookup_lt_is_Some_2 (panels this) i) as [p Hpi].
  { rewrite <- (paired_length _ _ Hp). by eapply lookup_lt_Some. }
  exists p. apply list_elem_of_lookup_2 with i. unfold pairs.
  rewrite lookup_zip_with. by rewrite Hi, Hpi.
Qed.

Lemma pairs_panel_inj this w b1 b2 p :
  paired this w = true → (b1, p) ∈ pairs this → (b2, p) ∈ pairs this → b1 = b2.
Proof.
  intros Hp [i Hi]%list_elem_of_lookup_1 [j Hj]%list_elem_of_lookup_1.
  unfold pairs in *. rewrite lookup_zip_with in Hi, Hj.
  destruct (buttons this !! i) as [x|] eqn:Hbi; [|done].
  destruct (panels this !! i) as [y|] eqn:Hpi; [|done].
  destruct (buttons this !! j) as [x'|] eqn:Hbj; [|done].
  destruct (panels this !! j) as [y'|] eqn:Hpj; [|done].
  simpl in *. injection Hi as -> ->. injection Hj as -> ->.
  assert (i = j) as -> by (eapply NoDup_lookup; [by eapply paired_NoDup|done..]).
  congruence.
Qed.

Lemma pairs_elem this b p :
  (b, p) ∈ pairs this → b ∈ buttons this ∧ p ∈ panels this.
Proof.
  intros [i Hi]%list_elem_of_lookup_1. unfold pairs in Hi.
  rewrite lookup_zip_with in Hi.
  destruct (buttons this !! i) as [x|] eqn:Hbi; [|done].
  destruct (panels this !! i) as [y|] eqn:Hpi; [|done].
  simpl in Hi. injection Hi as -> ->.
  split; by eapply list_elem_of_lookup_2.
Qed.

Lemma mirror_clicked this b p w :
  paired this w = true → (b, p) ∈ pairs this →
  mirror this w → mirror this (clicked this b p w).
Proof.
  intros Hp Hbp Hw b' p' Hbp'.
  destruct (pairs_elem _ _ _ Hbp') as [Hb' Hp'].
  unfold expanded, visible, hidden.
  rewrite !attr_clicked, !attr_collapse_others, !attr_toggled by done.
  keys.
  destruct (decide (b' = b)) as [->|Hne].
  - assert (p' = p) as ->.
    { pose proof (paired_controls _ _ _ _ Hp Hbp) as H1.
      pose proof (paired_controls _ _ _ _ Hp Hbp') as H2. congruence. }
    rewrite !(decide_False (P := _ ∧ _ ≠ _)) by (by intros [_ ?]).
    rewrite !(decide_True (P := p = p)) by done.
    destruct (decide (multiselectable (options this) = false));
      by destruct (decide (closed w b)).
  - assert (p' ≠ p) as Hnp.
    { intros ->. apply Hne. by eapply pairs_panel_inj. }
    rewrite !(decide_True (P := _ ∧ _ ≠ _)) by done.
    rewrite !(decide_False (P := p' = p)) by done.
    destruct (decide (multiselectable (options this) = false)); [done|].
    by apply Hw.
Qed.

Lemma mirror_writes K this w w' :
  "aria-expanded" ∉ K → "aria-hidden" ∉ K → writes K w w' →
  mirror this w → mirror this w'.
Proof.
  intros H1 H2 H Hw b p Hbp. unfold expanded, visible, hidden.
  rewrite !(w_attr _ _ _ H) by done. by apply Hw.
Qed.

Lemma mirror_bookkeeping this : bookkeeping_free (mirror this).
Proof. by split. Qed.

(** A click that is aimed at a tracked toggle runs to its end. *)
Lemma invoke_click this w l t :
  wired this w = true → tracked this w = true → paired this w = true →
  well_aimed this w (Click t) = true →
  l ∈ listeners w → l_type l = "click" →
  l_element l ∈ path_of w "click" (eventAt t) →
  ∃ b p, (b, p) ∈ pairs this ∧ resolve w t = Elem b
         ∧ invoke this (eventAt t) w l = clicked this b p w.
Proof.
  intros Hwired Htracked Hpaired Haimed Hl Hty Hpath.
  destruct (wired_click _ _ _ Hwired Hl Hty) as [Hm Hb].
  destruct (well_aimed_resolve this w (Click t) l Haimed) as (b & Hres & Hin);
    [done..|].
  destruct (pairs_button _ _ _ Hpaired Hin) as [p Hbp].
  exists b, p. split; [done|]. split; [done|].
  unfold invoke. rewrite Hm. simpl.
  rewrite (clickButtonEventHandler_run this (eventAt t) w b p); [done|done|].
  by apply (paired_controls this).
Qed.

(** Each settled interaction that is aimed at a toggle keeps the toggles
    and their panels in step. *)
Lemma interact_mirror this w i :
  wired this w = true → tracked this w = true → paired this w = true →
  well_aimed this w i = true →
  mirror this w →
  writes state_attributes w (interact this w i)
  ∧ mirror this (interact this w i).
Proof.
  intros Hwired Htracked Hpaired Haimed Hmirror.
  assert (("aria-expanded" ∉ focus_ring) ∧ ("aria-hidden" ∉ focus_ring)) as [K1 K2]
    by (unfold focus_ring; set_solver).
  apply (interact_ind this
           (λ w', writes state_attributes w w' ∧ mirror this w')).
  - apply and_bookkeeping; [apply writes_bookkeeping|apply mirror_bookkeeping].
  - split; [apply writes_refl|done].
  - intros w' l [Hw' Hs] Hl Hty.
    split; [eapply writes_trans; [done|apply invoke_writes, call_modifies]|].
    rewrite <- (wired_writes _ this _ _ Hw') in Hwired.
    destruct (wired_focus _ _ _ Hwired Hl Hty) as [Hm _].
    eapply (mirror_writes focus_ring); [done|done| |done].
    apply invoke_writes. rewrite Hm. apply focusButtonEventHandler_modifies.
  - intros w' l [Hw' Hs] Hl Hty Hnf Hpath.
    split; [eapply writes_trans; [done|apply invoke_writes, call_modifies]|].
    rewrite <- (wired_writes _ this _ _ Hw') in Hwired.
    rewrite <- (tracked_writes _ this _ _ Hw') in Htracked.
    rewrite <- (paired_writes this _ _ Hw') in Hpaired.
    rewrite <- (well_aimed_writes _ this _ _ _ Hw') in Haimed.
    destruct i as [t|t|event]; [done|..]; simpl in Hty.
    + change (event_of (Click t)) with (eventAt t) in *.
      destruct (invoke_click this w' l t) as (b & p & Hbp & _ & ->); try done.
      by apply mirror_clicked.
    + eapply (mirror_writes focus_ring); [done|done| |done].
      apply invoke_writes.
      destruct (wired_keydown _ _ _ Hwired Hl Hty) as [[Hm Hb]|Hm]; rewrite Hm.
      * apply keydownButtonEventHandler_modifies.
      * apply keydownPanelEventHandler_modifies.
Qed.

(** ** No exception on the toggles *)

Lemma errors_clicked this b p w : errors (clicked this b p w) = errors w.
Proof.
  unfold clicked, collapse_others, toggled, unselect_all. simpl.
  destruct (decide (multiselectable (options this) = false)).
  - destruct (same_bookkeeping_set_where
                (λ button, bool_decide (Elem b ≠ Elem button)) "aria-expanded" "false"
                (buttons this)
                (foldl (set_where (λ panel, bool_decide (Elem p ≠ Elem panel))
                          "aria-hidden" "true")
                   (toggled b p (update b (set_attr "aria-selected" "true")
                                   (unselect_all this w))) (panels this)))
      as (_ & _ & _ & _ & He).
    unfold toggled, unselect_all in He. rewrite He. clear He.
    destruct (same_bookkeeping_set_where
                (λ panel, bool_decide (Elem p ≠ Elem panel)) "aria-hidden" "true"
                (panels this)
                (toggled b p (update b (set_attr "aria-selected" "true")
                                (unselect_all this w))))
      as (_ & _ & _ & _ & He).
    unfold toggled, unselect_all in He. rewrite He. clear He.
    destruct (same_bookkeeping_set_where (λ _, true) "aria-selected" "false"
                (buttons this) w) as (_ & _ & _ & _ & He).
    by case_decide.
  - destruct (same_bookkeeping_set_where (λ _, true) "aria-selected" "false"
                (buttons this) w) as (_ & _ & _ & _ & He).
    by case_decide.
Qed.

(** The event does not pass through an element that carries the keydown
    listener of panels. *)
Definition outside_panels (w : World) (i : Interaction) : bool :=
  forallb (λ l, negb (bool_decide (l_method l = keydownPanel)
                      && bool_decide (l_element l
                                      ∈ path_of w (type_of i) (event_of i))))
    (listeners w).

Lemma outside_panels_writes K w w' i :
  writes K w w' → outside_panels w' i = outside_panels w i.
Proof.
  intros H. unfold outside_panels, path_of.
  by rewrite (w_listeners _ _ _ H), (w_tree _ _ _ H).
Qed.

Lemma outside_panels_sound w i l :
  outside_panels w i = true → l ∈ listeners w →
  l_element l ∈ path_of w (type_of i) (event_of i) →
  l_method l ≠ keydownPanel.
Proof.
  intros H Hl Hpath Hm. unfold outside_panels in H.
  rewrite forallb_forall in H. apply list_elem_of_In, H in Hl.
  by rewrite !bool_decide_true in Hl.
Qed.

(** An interaction that is aimed at a toggle, outside the panels, is
    handled without any exception. *)
Lemma interact_no_error this w i :
  wired this w = true → tracked this w = true → paired this w = true →
  well_aimed this w i = true → outside_panels w i = true →
  errors (interact this w i) = errors w.
Proof.
  intros Hwired Htracked Hpaired Haimed Houtside.
  enough (writes state_attributes w (interact this w i)
          ∧ errors (interact this w i) = errors w) as [_ ?]; [done|].
  apply (interact_ind this
           (λ w', writes state_attributes w w' ∧ errors w' = errors w)).
  - split.
    + intros w' d p [H ?]. split; [by destruct H; split|done].
    + intros w' a [H ?]. split; [by destruct H; split|done].
    + intros w' l [H ?]. split; [by destruct H; split|done].
  - split; [apply writes_refl|done].
  - intros w' l [Hw' He] Hl Hty.
    split; [eapply writes_trans; [done|apply invoke_writes, call_modifies]|].
    rewrite <- (wired_writes _ this _ _ Hw') in Hwired.
    rewrite <- (tracked_writes _ this _ _ Hw') in Htracked.
    destruct (invoke_focus_ring _ _ _ Hwired Htracked Hl Hty) as (_ & _ & ->).
    done.
  - intros w' l [Hw' He] Hl Hty Hnf Hpath.
    split; [eapply writes_trans; [done|apply invoke_writes, call_modifies]|].
    rewrite <- (wired_writes _ this _ _ Hw') in Hwired.
    rewrite <- (tracked_writes _ this _ _ Hw') in Htracked.
    rewrite <- (paired_writes this _ _ Hw') in Hpaired.
    rewrite <- (well_aimed_writes _ this _ _ _ Hw') in Haimed.
    rewrite <- (outside_panels_writes _ _ _ _ Hw') in Houtside.
    destruct i as [t|t|event]; [done|..]; simpl in Hty.
    + change (event_of (Click t)) with (eventAt t) in *.
      destruct (invoke_click this w' l t) as (b & p & Hbp & _ & ->); try done.
      by rewrite errors_clicked.
    + change (event_of (Keydown event)) with event in *.
      destruct (wired_keydown _ _ _ Hwired Hl Hty) as [[Hm Hb]|Hm].
      * destruct (well_aimed_resolve _ _ _ l Haimed Hnf Hb Hpath) as (b & Hres & Hin).
        destruct (invoke_keydownButton this w' l event b Htracked Hm Hres Hin)
          as [(_ & -> & _)|[_ ->]]; done.
      * by destruct (outside_panels_sound _ _ _ Houtside Hl Hpath).
Qed.

(** ** Moving the focus ring with the keyboard *)

Lemma wired_complete this w b l :
  wired this w = true → b ∈ buttons this → l ∈ listeners_of b → l ∈ listeners w.
Proof.
  intros [_ H]%andb_prop Hb Hl. rewrite forallb_forall in H.
  apply list_elem_of_In, H in Hb. rewrite forallb_forall in Hb.
  apply list_elem_of_In, Hb in Hl. by apply bool_decide_eq_true in Hl.
Qed.

(** Some listener calls establish a property, the others keep it. *)
Lemma fold_invoke_establish this event (J0 J : World → Prop)
    (est : Listener → bool) ls w :
  (∀ w', J w' → J0 w') →
  (∀ w' l, l ∈ ls → est l = true → J0 w' → J (invoke this event w' l)) →
  (∀ w' l, l ∈ ls → est l = false →
     (J0 w' → J0 (invoke this event w' l)) ∧ (J w' → J (invoke this event w' l))) →
  J0 w → (J w ∨ ∃ l, l ∈ ls ∧ est l = true) →
  J (foldl (invoke this event) w ls).
Proof.
  intros HJ. revert w. induction ls as [|l ls IH]; intros w Hest Hkeep H0 H; simpl.
  - destruct H as [?|(l & Hl & _)]; [done|by apply elem_of_nil in Hl].
  - destruct (est l) eqn:El.
    + assert (J (invoke this event w l)) as HJl by (apply Hest; [set_solver|done..]).
      apply IH; [intros; apply Hest; set_solver|intros; apply Hkeep; set_solver| |];
        auto.
    + destruct (Hkeep w l) as [K0 K]; [set_solver|done|].
      apply IH; [intros; apply Hest; set_solver|intros; apply Hkeep; set_solver| |];
        [auto|].
      destruct H as [?|(l' & Hl' & El')]; [auto|].
      apply elem_of_cons in Hl' as [->|?]; [congruence|eauto].
Qed.

(** Among the tracked toggles, [t] alone is reachable and selected. *)
Definition focus_on (this : AriaAccordion) (t : nid) (w : World) : Prop :=
  ∀ b, b ∈ buttons this →
       reachable w b = bool_decide (b = t) ∧ selected w b = bool_decide (b = t).

Lemma ring_at_focus_on this t w :
  tagName (elems w t) = "button" →
  ring_at (buttons this) t w → focus_on this t w.
Proof.
  intros Htag H b Hb. destruct (H b Hb) as [Htab Hsel].
  unfold reachable, selected. rewrite Htab, Hsel.
  destruct (decide (b = t)) as [->|Hne]; simpl.
  - by rewrite Htag, !bool_decide_true.
  - by rewrite !bool_decide_false.
Qed.

(** A directional key pressed on a tracked toggle, without Ctrl, in a
    settled page: when the interaction has settled, the ring points at the
    target of the key. *)
Lemma keydown_moves_ring this w event :
  wired this w = true → tracked this w = true → timers w = [] →
  target event ∈ buttons this → directional this event = true →
  ∃ t, newTarget this event (Elem (target event)) = Elem t
       ∧ t ∈ buttons this
       ∧ ring_at (buttons this) t (interact this w (Keydown event))
       ∧ writes state_attributes w (interact this w (Keydown event)).
Proof.
  intros Hwired Htracked Htimers Htarget Hdir.
  assert (∃ t, newTarget this event (Elem (target event)) = Elem t
               ∧ t ∈ buttons this) as (t & Ht & Htin).
  { apply newTarget_tracked; [done|].
    by apply andb_prop in Hdir as [?%bool_decide_eq_true _]. }
  exists t. split; [done|]. split; [done|].
  set (J0 := λ w', writes state_attributes w w' ∧ Forall (λ x, x = t) (timers w')).
  set (J := λ w', J0 w' ∧ ring_at (buttons this) t w').
  assert (∀ w', J w' → J0 w') as HJ by (by intros w' [? _]).
  assert (∀ w' l, l_type l = "keydown" → l ∈ listeners w' → J0 w' →
            (l_method l = keydownButton → J (invoke this event w' l))
            ∧ (l_method l ≠ keydownButton →
               J0 (invoke this event w' l)
               ∧ (J w' → J (invoke this event w' l)))) as Hcall.
  { intros w' l Hty Hl [Hw' Hts].
    rewrite <- (tracked_writes _ this _ _ Hw') in Htracked.
    rewrite <- (wired_writes _ this _ _ Hw') in Hwired.
    split.
    - intros Hm.
      destruct (invoke_keydownButton this w' l event (target event))
        as [(_ & _ & t' & Ht' & _ & Hr & Htm & _)|[? _]];
        [done|done|by apply (tracked_resolve this)|done| |congruence].
      assert (t' = t) as -> by congruence.
      split; [split|done].
      + eapply writes_trans; [done|apply invoke_writes, call_modifies].
      + rewrite Htm. apply Forall_app. split; [done|by constructor].
    - intros Hm.
      destruct (wired_keydown _ _ _ Hwired Hl Hty) as [[? _]|Hp]; [done|].
      rewrite (invoke_keydownPanel _ _ _ _ Hp).
      split; [split; [|done]|intros [_ ?]; split; [split; [|done]|done]];
        (eapply writes_trans; [done|apply writes_with_errors]). }
  assert (J (dispatchEvent this "keydown" event w)) as [[Hw1 Hts1] Hr1].
  { unfold dispatchEvent.
    change (bubbles "keydown") with true. cbv iota.
    set (w0 := with_flags false false w).
    change (propagate this "keydown" event
              (target event :: parentChain (tree w) (target event)) w0)
      with (propagate this "keydown" event (parentChain (tree w) (target event))
              (foldl (invoke this event) w0
                 (filter (listens (target event) "keydown") (listeners w0)))).
    apply (propagate_ind this "keydown" event J).
    - 
      assert (J0 w0) as H0.
      { split; [by split|]. unfold w0. simpl. rewrite Htimers. constructor. }
      assert (∀ w' l,
                l ∈ filter (listens (target event) "keydown") (listeners w0) →
                J0 w' → l_type l = "keydown" ∧ l ∈ listeners w') as Hin.
      { intros w' l [[Hx Hty]%andb_True Hl]%list_elem_of_filter [Hw' _].
        apply bool_decide_unpack in Hty. split; [done|].
        rewrite (w_listeners _ _ _ Hw'). exact Hl. }
      apply (fold_invoke_establish this event J0 J
               (λ l, bool_decide (l_method l = keydownButton)));
        [exact HJ|..|exact H0|].
      + intros w' l Hl Hm%bool_decide_eq_true Hw'.
        destruct (Hin w' l Hl Hw') as [Hty Hl'].
        destruct (Hcall w' l Hty Hl' Hw') as [H1 _]. by apply H1.
      + intros w' l Hl Hm%bool_decide_eq_false.
        split.
        * intros Hw'. destruct (Hin w' l Hl Hw') as [Hty Hl'].
          destruct (Hcall w' l Hty Hl' Hw') as [_ H2].
          destruct (H2 Hm) as [H3 _]. exact H3.
        * intros Hw'. destruct (Hin w' l Hl (HJ _ Hw')) as [Hty Hl'].
          destruct (Hcall w' l Hty Hl' (HJ _ Hw')) as [_ H2].
          destruct (H2 Hm) as [_ H3]. by apply H3.
      + right.
        exists {| l_element := target event; l_type := "keydown";
                  l_method := keydownButton |}.
        split; [|done]. apply list_elem_of_filter. split.
        * unfold listens. simpl. by rewrite !bool_decide_true.
        * apply (wired_complete this w (target event)); [done|done|].
          unfold listeners_of. set_solver.
    - intros w' l Hw' Hl Hty _.
      destruct (Hcall w' l Hty Hl (HJ _ Hw')) as [H1 H2].
      destruct (decide (l_method l = keydownButton)) as [Hm|Hm].
      + by apply H1.
      + destruct (H2 Hm) as [_ H3]. by apply H3. }
  assert (wired this (dispatchEvent this "keydown" event w) = true) as Hwired1
    by (by rewrite (wired_writes _ this _ _ Hw1)).
  assert (tracked this (dispatchEvent this "keydown" event w) = true) as Htracked1
    by (by rewrite (tracked_writes _ this _ _ Hw1)).
  enough (writes state_attributes w (interact this w (Keydown event))
          ∧ ring_at (buttons this) t (interact this w (Keydown event)))
    as [? ?]; [done|].
  unfold interact.
  apply (runTimers_ind this
           (λ w', writes state_attributes w w' ∧ ring_at (buttons this) t w')).
  - apply and_bookkeeping; [apply writes_bookkeeping|by split].
  - done.
  - intros w' l [Hw' Hr'] Hl Hty Hel.
    rewrite Forall_forall in Hts1. apply Hts1 in Hel.
    rewrite <- (wired_writes _ this _ _ Hw') in Hwired.
    rewrite <- (tracked_writes _ this _ _ Hw') in Htracked.
    destruct (invoke_focus_ring _ _ _ Hwired Htracked Hl Hty) as (Hr & _ & _).
    rewrite Hel in *.
    split; [|done].
    eapply writes_trans; [done|apply invoke_writes, call_modifies].
Qed.

Lemma firstButton_head this b :
  head (buttons this) = Some b → firstButton this = Elem b.
Proof.
  intros H. unfold firstButton. apply (at_index_lookup _ 0).
  by rewrite <- head_lookup.
Qed.

Lemma lastButton_last this b :
  last (buttons this) = Some b → lastButton this = Elem b.
Proof.
  intros H. unfold lastButton. rewrite last_lookup in H.
  assert (buttons this ≠ []) as Hne by (by intros E; rewrite E in H).
  replace (Z.of_nat (length (buttons this)) - 1)
    with (Z.of_nat (pred (length (buttons this)))).
  - by apply at_index_lookup.
  - destruct (buttons this); [done|simpl; lia].
Qed.

Lemma keys_of_cases this :
  (Keys.prev (keys_of this) = [keyUp; keyLeft]
   ∧ Keys.next (keys_of this) = [keyDown; keyRight])
  ∨ (Keys.prev (keys_of this) = [keyUp; keyRight]
     ∧ Keys.next (keys_of this) = [keyDown; keyLeft]).
Proof. unfold keys_of. case_decide; auto. Qed.

Lemma prev_key this k :
  k ∈ Keys.prev (keys_of this) →
  k ≠ keyHome ∧ k ≠ keyEnd ∧ k ∈ allKeyCode (keys_of this).
Proof.
  intros Hk. split_and!; [| |unfold allKeyCode; set_solver];
    destruct (keys_of_cases this) as [[Hp _]|[Hp _]]; rewrite Hp in Hk;
    set_unfold; unfold keyHome, keyEnd, keyUp, keyLeft, keyRight in *; lia.
Qed.

Lemma next_key this k :
  k ∈ Keys.next (keys_of this) →
  k ≠ keyHome ∧ k ≠ keyEnd ∧ (k ∉ Keys.prev (keys_of this))
  ∧ k ∈ allKeyCode (keys_of this).
Proof.
  intros Hk. split_and!; [| | |unfold allKeyCode; set_solver];
    destruct (keys_of_cases this) as [[Hp Hn]|[Hp Hn]];
    rewrite ?Hp; rewrite Hn in Hk;
    set_unfold;
    unfold keyHome, keyEnd, keyUp, keyDown, keyLeft, keyRight in *; lia.
Qed.

Lemma newTarget_prev_first this event b0 bn :
  head (buttons this) = Some b0 → last (buttons this) = Some bn →
  keyCode event ∈ Keys.prev (keys_of this) →
  newTarget this event (Elem b0) = Elem bn.
Proof.
  intros H0 Hn Hk. destruct (prev_key _ _ Hk) as (? & ? & _).
  unfold newTarget.
  rewrite (firstButton_head _ _ H0), (lastButton_last _ _ Hn).
  rewrite !decide_False by done.
  by rewrite bool_decide_true, decide_True.
Qed.

Lemma newTarget_next_last this event b0 bn :
  head (buttons this) = Some b0 → last (buttons this) = Some bn →
  keyCode event ∈ Keys.next (keys_of this) →
  newTarget this event (Elem bn) = Elem b0.
Proof.
  intros H0 Hn Hk. destruct (next_key _ _ Hk) as (? & ? & ? & _).
  unfold newTarget.
  rewrite (firstButton_head _ _ H0), (lastButton_last _ _ Hn).
  rewrite !decide_False by done.
  by rewrite bool_decide_false, bool_decide_true, decide_True.
Qed.


(** ** Modifier keys *)

(** C9, as amended. The handler of keydown on a toggle reads one modifier,
    Ctrl: two events that agree on target, key and Ctrl are handled alike
    whatever Shift, Alt and Meta are, and with Ctrl held a key press
    changes nothing, schedules nothing and is not default-prevented. *)
Theorem only_ctrl_holds_back this event event' w :
  target event' = target event → keyCode event' = keyCode event →
  ctrlKey event' = ctrlKey event →
  keydownButtonEventHandler this event' w = keydownButtonEventHandler this event w
  ∧ (ctrlKey event = true →
     keydownButtonEventHandler this event w = (w, Normal ())).
Proof.
  intros Ht Hk Hc. split.
  - rewrite !keydownButtonEventHandler_run.
    unfold directional, newTarget. by rewrite Ht, Hk, Hc.
  - intros Hctrl. rewrite keydownButtonEventHandler_run.
    unfold directional. rewrite Hctrl. by rewrite andb_false_r.
Qed.

(** ** Keys pressed inside a panel *)

(** C4. Ctrl+Up inside a panel does not move the focus to the owning
    toggle: the handler looks for the panel among the descendants of the
    event target and asks the container element, not the document, for the
    toggle, so for every event it throws a TypeError before it has written
    anything. *)
Theorem keydown_in_panel_throws this event w :
  keydownPanelEventHandler this event w = (w, Throw TypeError).
Proof. apply keydownPanelEventHandler_run. Qed.

(** * Construction *)

(** ** Document trees *)

Lemma Tree_ind (P : Tree → Prop) :
  (∀ n ks, Forall P ks → P (Node n ks)) → ∀ t, P t.
Proof.
  intros H. fix IH 1. intros [n ks]. apply H.
  induction ks as [|k ks IHks]; constructor; [apply IH|apply IHks].
Qed.

(** The inner loops of [subtree] and [tree_insert_before], by name. *)
Definition first_subtree (ks : list Tree) (n : nid) : option Tree :=
  (fix first (l : list Tree) : option Tree :=
     match l with
     | [] => None
     | k :: l' =>
         match subtree k n with
         | Some s => Some s
         | None => first l'
         end
     end) ks.

Definition first_insert (ks : list Tree) (parent : nid) (new : Tree) (ref : nid)
  : option (list Tree) :=
  (fix first (l : list Tree) : option (list Tree) :=
     match l with
     | [] => None
     | k :: l' =>
         if bool_decide (parent ∈ preorder k)
         then (.:: l') <$> tree_insert_before k parent new ref
         else (k ::.) <$> first l'
     end) ks.

Lemma subtree_Node m ks n :
  subtree (Node m ks) n
  = if decide (m = n) then Some (Node m ks) else first_subtree ks n.
Proof. reflexivity. Qed.

Lemma first_subtree_cons k ks n :
  first_subtree (k :: ks) n
  = match subtree k n with Some s => Some s | None => first_subtree ks n end.
Proof. reflexivity. Qed.

Lemma tree_insert_before_Node m ks parent new ref :
  tree_insert_before (Node m ks) parent new ref
  = if decide (m = parent) then Node m <$> kids_insert_before ks new ref
    else Node m <$> first_insert ks parent new ref.
Proof. reflexivity. Qed.

Lemma first_insert_cons k ks parent new ref :
  first_insert (k :: ks) parent new ref
  = if bool_decide (parent ∈ preorder k)
    then (.:: ks) <$> tree_insert_before k parent new ref
    else (k ::.) <$> first_insert ks parent new ref.
Proof. reflexivity. Qed.

Lemma preorder_Node m ks : preorder (Node m ks) = m :: flat_map preorder ks.
Proof. reflexivity. Qed.

(** A subtree occupies a segment of the document order, and it is rooted
    at the node asked for. *)
Lemma subtree_segment t n s :
  subtree t n = Some s →
  node_id s = n ∧ ∃ l1 l2, preorder t = l1 ++ preorder s ++ l2.
Proof.
  revert s. induction t as [m ks IH] using Tree_ind. intros s.
  rewrite subtree_Node. destruct (decide (m = n)) as [->|Hm].
  - intros [= <-]. split; [done|]. exists [], []. by rewrite app_nil_r.
  - intros Hs.
    enough (node_id s = n ∧ ∃ l1 l2, flat_map preorder ks = l1 ++ preorder s ++ l2)
      as [? (l1 & l2 & E)].
    { split; [done|]. exists (m :: l1), l2. by rewrite preorder_Node, E. }
    induction ks as [|k ks IHks]; [done|].
    rewrite first_subtree_cons in Hs. inversion IH as [|?? Hk Hks]; subst.
    destruct (subtree k n) as [s'|] eqn:Hkn.
    + injection Hs as ->. destruct (Hk s eq_refl) as [? (l1 & l2 & E)].
      split; [done|]. exists l1, (l2 ++ flat_map preorder ks).
      simpl. rewrite E. by rewrite <- !app_assoc.
    + destruct (IHks Hks Hs) as [? (l1 & l2 & E)].
      split; [done|]. exists (preorder k ++ l1), l2.
      simpl. rewrite E. by rewrite <- !app_assoc.
Qed.

Lemma subtree_None t n : subtree t n = None → n ∉ preorder t.
Proof.
  induction t as [m ks IH] using Tree_ind.
  rewrite subtree_Node, preorder_Node.
  destruct (decide (m = n)) as [->|Hm]; [done|].
  intros Hs [?|Hin]%elem_of_cons; [done|]. revert Hs Hin.
  induction ks as [|k ks IHks]; simpl; [by intros _ ?%elem_of_nil|].
  inversion IH as [|?? Hk Hks]; subst.
  fold (first_subtree ks n). destruct (subtree k n) eqn:Hkn; [done|].
  intros Hs [?|?]%elem_of_app; [by apply Hk|by apply IHks].
Qed.

Lemma descendants_preorder t n s :
  subtree t n = Some s → preorder s = n :: descendants t n.
Proof.
  intros Hs. unfold descendants. rewrite Hs.
  destruct (subtree_segment _ _ _ Hs) as [<- _]. by destruct s.
Qed.

Lemma descendants_segment t n :
  n ∈ preorder t →
  ∃ l1 l2, preorder t = l1 ++ n :: descendants t n ++ l2.
Proof.
  intros Hn. destruct (subtree t n) as [s|] eqn:Hs.
  - destruct (subtree_segment _ _ _ Hs) as [_ (l1 & l2 & E)].
    exists l1, l2. by rewrite E, (descendants_preorder _ _ _ Hs).
  - by apply subtree_None in Hs.
Qed.

Lemma descendants_elem t n d : d ∈ descendants t n → d ∈ preorder t.
Proof.
  unfold descendants. destruct (subtree t n) as [s|] eqn:Hs;
    [|by intros ?%elem_of_nil].
  destruct (subtree_segment _ _ _ Hs) as [_ (l1 & l2 & ->)].
  destruct s as [m ks]. simpl. set_solver.
Qed.

Lemma descendants_NoDup t n :
  NoDup (preorder t) → NoDup (descendants t n) ∧ n ∉ descendants t n.
Proof.
  intros Hnd. destruct (subtree t n) as [s|] eqn:Hs.
  - destruct (subtree_segment _ _ _ Hs) as [_ (l1 & l2 & E)].
    rewrite E, (descendants_preorder _ _ _ Hs) in Hnd.
    apply NoDup_app in Hnd as (_ & _ & Hnd).
    apply NoDup_app in Hnd as (Hnd & _ & _).
    apply NoDup_cons in Hnd. tauto.
  - unfold descendants. rewrite Hs. split; [constructor|by intros ?%elem_of_nil].
Qed.

(** In document order an element comes before its descendants, so two
    elements are never descendants of each other. *)
Lemma descendants_acyclic t q r :
  NoDup (preorder t) → q ∈ descendants t r → r ∉ descendants t q.
Proof.
  intros Hnd Hq Hr.
  assert (r ∈ preorder t) as Hrt by (by eapply descendants_elem).
  assert (q ∈ preorder t) as Hqt by (by eapply descendants_elem).
  destruct (descendants_segment _ _ Hrt) as (a & c & E1).
  destruct (descendants_segment _ _ Hqt) as (a' & c' & E2).
  apply list_elem_of_split in Hq as (b1 & b2 & Eq).
  apply list_elem_of_split in Hr as (b1' & b2' & Er).
  rewrite Eq in E1. rewrite Er in E2.
  assert (preorder t !! length a = Some r) as L1.
  { rewrite E1. by apply list_lookup_middle. }
  assert (preorder t !! (length a + S (length b1))%nat = Some q) as L2.
  { rewrite E1. rewrite lookup_app_r by lia.
    replace (length a + S (length b1) - length a)%nat with (S (length b1)) by lia.
    simpl. rewrite <- app_assoc. by apply list_lookup_middle. }
  assert (preorder t !! length a' = Some q) as L3.
  { rewrite E2. by apply list_lookup_middle. }
  assert (preorder t !! (length a' + S (length b1'))%nat = Some r) as L4.
  { rewrite E2. rewrite lookup_app_r by lia.
    replace (length a' + S (length b1') - length a')%nat with (S (length b1')) by lia.
    simpl. rewrite <- app_assoc. by apply list_lookup_middle. }
  pose proof (NoDup_lookup _ _ _ _ Hnd L1 L4).
  pose proof (NoDup_lookup _ _ _ _ Hnd L2 L3). lia.
Qed.

(** *** Insertion of a fresh leaf *)

Lemma kids_insert_before_preorder ks b p ks' :
  kids_insert_before ks (Node b []) p = Some ks' →
  flat_map preorder ks' ≡ₚ b :: flat_map preorder ks
  ∧ p ∈ map node_id ks.
Proof.
  revert ks'. induction ks as [|k ks IH]; intros ks'; simpl; [done|].
  destruct (decide (node_id k = p)) as [<-|Hk].
  - intros [= <-]. split; [done|]. set_solver.
  - destruct (kids_insert_before ks (Node b []) p) as [ks''|]; [|done].
    intros [= <-]. destruct (IH _ eq_refl) as [E ?]. split; [|set_solver].
    simpl. rewrite E. by rewrite Permutation_middle.
Qed.

Lemma tree_insert_before_preorder t r b p t' :
  tree_insert_before t r (Node b []) p = Some t' →
  preorder t' ≡ₚ b :: preorder t.
Proof.
  revert t'. induction t as [m ks IH] using Tree_ind. intros t'.
  rewrite tree_insert_before_Node. destruct (decide (m = r)) as [->|Hm].
  - destruct (kids_insert_before ks (Node b []) p) as [ks'|] eqn:E; [|done].
    intros [= <-]. apply kids_insert_before_preorder in E as [E _].
    rewrite !preorder_Node, E. apply perm_swap.
  - destruct (first_insert ks r (Node b []) p) as [ks'|] eqn:E; [|done].
    intros [= <-]. rewrite !preorder_Node.
    enough (flat_map preorder ks' ≡ₚ b :: flat_map preorder ks) as ->
      by apply perm_swap.
    revert ks' E. induction ks as [|k ks IHks]; intros ks'; [done|].
    rewrite first_insert_cons. inversion IH as [|?? Hk Hks]; subst.
    destruct (bool_decide (r ∈ preorder k)).
    + destruct (tree_insert_before k r (Node b []) p) as [k'|] eqn:Ek; [|done].
      intros [= <-]. simpl. by rewrite (Hk _ eq_refl).
    + destruct (first_insert ks r (Node b []) p) as [ks''|] eqn:E; [|done].
      intros [= <-]. simpl. rewrite (IHks Hks _ eq_refl).
      by rewrite Permutation_middle.
Qed.

Lemma first_subtree_None ks q :
  first_subtree ks q = None → q ∉ flat_map preorder ks.
Proof.
  induction ks as [|k ks IH]; [by intros _ ?%elem_of_nil|].
  rewrite first_subtree_cons. destruct (subtree k q) eqn:E; [done|].
  intros H [?|?]%elem_of_app; [by apply (subtree_None k q)|by apply IH].
Qed.

Lemma kids_insert_before_first_subtree ks b p ks' q :
  kids_insert_before ks (Node b []) p = Some ks' → q ≠ b →
  first_subtree ks' q = first_subtree ks q.
Proof.
  intros E Hq. revert ks' E. induction ks as [|k ks IH]; intros ks'; simpl; [done|].
  destruct (decide (node_id k = p)) as [<-|Hk].
  - intros [= <-]. rewrite first_subtree_cons, subtree_Node.
    by rewrite decide_False by done.
  - destruct (kids_insert_before ks (Node b []) p) as [ks''|]; [|done].
    intros [= <-]. rewrite !first_subtree_cons. by rewrite (IH _ eq_refl).
Qed.

(** Inserting a leaf under [r] leaves alone the subtree of every element
    that does not have [r] below it. *)
Lemma tree_insert_before_subtree t r b p t' q :
  tree_insert_before t r (Node b []) p = Some t' →
  q ≠ b → q ≠ r → r ∉ descendants t q →
  subtree t' q = subtree t q.
Proof.
  intros E Hqb Hqr. revert t' E.
  induction t as [m ks IH] using Tree_ind. intros t'.
  rewrite tree_insert_before_Node. destruct (decide (m = r)) as [->|Hm].
  - destruct (kids_insert_before ks (Node b []) p) as [ks'|] eqn:E; [|done].
    intros [= <-] _. rewrite !subtree_Node, !decide_False by done.
    by eapply kids_insert_before_first_subtree.
  - destruct (first_insert ks r (Node b []) p) as [ks'|] eqn:E; [|done].
    intros [= <-]. rewrite !subtree_Node.
    destruct (decide (m = q)) as [->|Hmq].
    + unfold descendants. rewrite subtree_Node, decide_True by done. simpl.
      intros Hr. exfalso. apply Hr. clear -E.
      revert ks' E. induction ks as [|k ks IHks]; intros ks'; [done|].
      rewrite first_insert_cons. destruct (bool_decide (r ∈ preorder k)) eqn:Hk.
      * intros _. apply bool_decide_eq_true in Hk. simpl. set_solver.
      * destruct (first_insert ks r (Node b []) p) eqn:E'; [|done].
        intros _. simpl. apply elem_of_app. right. by eapply IHks.
    + unfold descendants. rewrite subtree_Node, decide_False by done.
      revert ks' E. induction ks as [|k ks IHks]; intros ks'; [done|].
      rewrite first_insert_cons. inversion IH as [|?? Hk Hks]; subst.
      rewrite first_subtree_cons.
      destruct (bool_decide (r ∈ preorder k)).
      * destruct (tree_insert_before k r (Node b []) p) as [k'|] eqn:Ek; [|done].
        intros [= <-] Hr. rewrite first_subtree_cons.
        rewrite (Hk _ eq_refl); [done|].
        unfold descendants. destruct (subtree k q); [done|apply not_elem_of_nil].
      * destruct (first_insert ks r (Node b []) p) as [ks''|] eqn:E; [|done].
        intros [= <-] Hr. rewrite first_subtree_cons.
        destruct (subtree k q); [done|]. by apply (IHks Hks).
Qed.

Lemma tree_insert_before_descendants t r b p t' q :
  tree_insert_before t r (Node b []) p = Some t' →
  q ≠ b → q ≠ r → r ∉ descendants t q →
  descendants t' q = descendants t q.
Proof.
  intros. unfold descendants.
  by rewrite (tree_insert_before_subtree t r b p t' q).
Qed.

(** ** Decoration *)

Lemma run_querySelector n s w :
  querySelector n s w
  = (w, Normal match querySelectorAll_in w n s with
               | [] => Null
               | d :: _ => Elem d
               end).
Proof. reflexivity. Qed.

Lemma run_get_id n w : get_id n w = (w, Normal (id_of w n)).
Proof. reflexivity. Qed.

Lemma run_removeAttribute n k w :
  removeAttribute n k w = (update n (del_attr k) w, Normal ()).
Proof. reflexivity. Qed.

Lemma run_set_innerHTML n s w :
  set_innerHTML n s w = (update n (set_markup s) w, Normal ()).
Proof. reflexivity. Qed.

(** A class token that [classList.add] accepts. *)
Definition token_ok (c : string) : bool :=
  negb (bool_decide (c = "")) && negb (has_whitespace c).

Lemma run_classList_add n c w :
  token_ok c = true → classList_add n c w = (update n (add_class c) w, Normal ()).
Proof.
  unfold token_ok, classList_add. intros [H1 H2]%andb_prop.
  apply negb_true_iff in H1, H2. apply bool_decide_eq_false in H1.
  by rewrite decide_False, H2.
Qed.

Lemma classList_add_throws n c w :
  token_ok c = false → ∃ e, classList_add n c w = (w, Throw e).
Proof.
  unfold token_ok, classList_add. intros H.
  destruct (decide (c = "")); [by eexists|].
  rewrite bool_decide_false in H by done. simpl in H.
  apply negb_false_iff in H. rewrite H. by eexists.
Qed.

(** The page after [cloneNode()] of the template. *)
Definition cloned (template : nid) (w : World) : World :=
  with_fresh (S (fresh w))
    (with_elems (λ m, if decide (m = fresh w) then shallow_copy (elems w template)
                      else elems w m) w).

Lemma run_cloneNode n w : cloneNode n w = (cloned n w, Normal (fresh w)).
Proof. reflexivity. Qed.

(** What the callback writes on the new toggle [b], on the panel and on
    the header [h], once the toggle is in the tree [t]. *)
Definition panelId_of (this : AriaAccordion) (w : World) (panel : nid) (index : nat)
  : string :=
  (if decide (id_of w panel = "") then id_of w (root this) else id_of w panel)
    +:+ "-" +:+ pretty index.

Definition dress_toggle (this : AriaAccordion) (b : nid) (panelId : string)
    (w : World) : World :=
  let o := options this in
  update b (add_class (prefixClass o +:+ buttonSuffixClass o))
    (update b (set_attr "aria-selected" "false")
       (update b (set_attr "tabindex" "-1")
          (update b (set_attr "id" (panelId +:+ buttonSuffixId o))
             (update b (set_attr "role" "tab")
                (update b (set_attr "aria-expanded" "false")
                   (update b (set_attr "aria-controls" panelId) w)))))).

Definition dress_panel (this : AriaAccordion) (panel : nid) (panelId : string)
    (w : World) : World :=
  let o := options this in
  update panel (add_class (prefixClass o +:+ panelSuffixClass o))
    (update panel (set_attr "aria-hidden" "true")
       (update panel (set_attr "id" panelId)
          (update panel (set_attr "role" "tabpanel")
             (update panel (set_attr "aria-labelledby"
                              (panelId +:+ buttonSuffixId o)) w)))).

Definition open_by_default (b panel : nid) (w : World) : World :=
  if decide (attr w panel "data-accordion-open" = Some "true")
  then update panel (set_attr "aria-hidden" "false")
         (update b (set_attr "data-accordion-open" "null")
            (update b (set_attr "aria-expanded" "true") w))
  else w.

Definition first_focusable (b : nid) (index : nat) (w : World) : World :=
  if decide (index = 0%nat) then update b (del_attr "tabindex") w else w.

Definition header_content (this : AriaAccordion) (h : nid) (w : World) : string :=
  if decide (buttonsGeneratedContent (options this) = "html")
  then innerHTML (elems w h) else innerText (elems w h).

(** The page once the toggle is cloned, labelled and inserted, and the
    header marked: tree [t] is the tree with the toggle in it. *)
Definition staged (this : AriaAccordion) (h : nid) (t : Tree) (w : World) : World :=
  let o := options this in
  let w1 := cloned (button o) w in
  with_tree t
    (update h (add_class (prefixClass o +:+ headerSuffixClass o))
       (update h (set_attr "tabindex" "0")
          (update (fresh w) (set_markup (header_content this h w1)) w1))).

(** The attributes of toggle [b] and of the panel, from identifier
    [panelId]. *)
Definition finished (this : AriaAccordion) (b panel : nid) (index : nat)
    (panelId : string) (w : World) : World :=
  first_focusable b index
    (open_by_default b panel
       (dress_panel this panel panelId (dress_toggle this b panelId w))).

Definition decorated (this : AriaAccordion) (panel : nid) (index : nat)
    (h : nid) (t : Tree) (w : World) : World :=
  finished this (fresh w) panel index
    (panelId_of this (staged this h t w) panel index) (staged this h t w).

(** The class tokens of the configuration are accepted by
    [classList.add]. *)
Definition tokens_ok (o : AriaAccordionOptions) : bool :=
  token_ok (prefixClass o)
  && token_ok (prefixClass o +:+ headerSuffixClass o)
  && token_ok (prefixClass o +:+ buttonSuffixClass o)
  && token_ok (prefixClass o +:+ panelSuffixClass o).

Lemma run_insertBefore parent new ref w t :
  tree_insert_before (tree w) parent (Node new []) ref = Some t →
  insertBefore parent new ref w = (with_tree t w, Normal ()).
Proof. intros H. unfold insertBefore. by rewrite H. Qed.

#[global] Hint Rewrite run_querySelector run_get_id run_removeAttribute
  run_set_innerHTML run_cloneNode : run.

Lemma tree_cloned n w : tree (cloned n w) = tree w.
Proof. reflexivity. Qed.

(** The callback on a panel that has a header and is a child of the
    container. *)
Lemma decoratePanel_run this panel index w h hs t :
  tokens_ok (options this) = true →
  querySelectorAll_in w panel (headersSelector (options this)) = h :: hs →
  tree_insert_before (tree w) (root this) (Node (fresh w) []) panel = Some t →
  decoratePanel this panel index w = (decorated this panel index h t w, Normal ()).
Proof.
  intros Htok Hh Ht. unfold tokens_ok in Htok.
  apply andb_prop in Htok as [[[T0 T1]%andb_prop T2]%andb_prop T3].
  unfold decoratePanel. cbv zeta.
  rewrite run_bind, run_querySelector, Hh. cbv beta iota.
  rewrite run_bind, run_cloneNode. cbv beta iota.
  rewrite run_bind.
  assert ((if decide (buttonsGeneratedContent (options this) = "html")
           then h0 ← deref (Elem h); get_innerHTML h0
           else h0 ← deref (Elem h); get_innerText h0)
            (cloned (button (options this)) w)
          = (cloned (button (options this)) w,
             Normal (header_content this h (cloned (button (options this)) w))))
    as ->.
  { unfold header_content. by case_decide. }
  cbv beta iota. mrun.
  rewrite (run_classList_add _ _ _ T1). cbv beta iota.
  rewrite run_bind, (run_insertBefore _ _ _ _ t) by done. cbv beta iota.
  mrun. rewrite (run_classList_add _ _ _ T2). cbv beta iota. mrun.
  rewrite (run_classList_add _ _ _ T3). cbv beta iota. mrun.
  unfold decorated, finished, staged, first_focusable, open_by_default, dress_panel,
    dress_toggle, panelId_of. cbv zeta.
  repeat case_decide; try done.
Qed.

(** A panel without header: the callback clones the template and then
    fails on the header. *)
Lemma decoratePanel_no_header this panel index w :
  querySelectorAll_in w panel (headersSelector (options this)) = [] →
  decoratePanel this panel index w
  = (cloned (button (options this)) w, Throw TypeError).
Proof.
  intros Hh. unfold decoratePanel. cbv zeta.
  rewrite run_bind, run_querySelector, Hh. cbv beta iota.
  rewrite run_bind, run_cloneNode. cbv beta iota.
  rewrite run_bind. by case_decide.
Qed.

(** When the callback returns, the panel had a header, it was a child of
    the container, and the class tokens were acceptable. *)
Lemma decoratePanel_Normal this panel index w :
  snd (decoratePanel this panel index w) = Normal () →
  ∃ h hs t,
    querySelectorAll_in w panel (headersSelector (options this)) = h :: hs
    ∧ tree_insert_before (tree w) (root this) (Node (fresh w) []) panel = Some t
    ∧ token_ok (prefixClass (options this) +:+ headerSuffixClass (options this)) = true
    ∧ token_ok (prefixClass (options this) +:+ buttonSuffixClass (options this)) = true
    ∧ token_ok (prefixClass (options this) +:+ panelSuffixClass (options this)) = true
    ∧ fst (decoratePanel this panel index w) = decorated this panel index h t w.
Proof.
  destruct (querySelectorAll_in w panel (headersSelector (options this)))
    as [|h hs] eqn:Hh.
  { by rewrite decoratePanel_no_header. }
  destruct (tree_insert_before (tree w) (root this) (Node (fresh w) []) panel)
    as [t|] eqn:Ht.
  2:{ unfold decoratePanel. cbv zeta.
      rewrite run_bind, run_querySelector, Hh. cbv beta iota.
      rewrite run_bind, run_cloneNode. cbv beta iota.
      rewrite run_bind.
      assert (∃ c, (if decide (buttonsGeneratedContent (options this) = "html")
           then h0 ← deref (Elem h); get_innerHTML h0
           else h0 ← deref (Elem h); get_innerText h0)
            (cloned (button (options this)) w)
          = (cloned (button (options this)) w, Normal c)) as [c ->].
      { case_decide; by eexists. }
      cbv beta iota. mrun.
      destruct (token_ok (prefixClass (options this) +:+ headerSuffixClass (options this)))
        eqn:T1.
      - rewrite (run_classList_add _ _ _ T1). cbv beta iota.
        rewrite run_bind. unfold insertBefore. simpl tree.
        by rewrite Ht.
      - edestruct classList_add_throws as [e ->]; [done|]. done. }
  intros Hn.
  destruct (token_ok (prefixClass (options this) +:+ headerSuffixClass (options this)))
    eqn:T1;
  destruct (token_ok (prefixClass (options this) +:+ buttonSuffixClass (options this)))
    eqn:T2;
  destruct (token_ok (prefixClass (options this) +:+ panelSuffixClass (options this)))
    eqn:T3.
  1:{ exists h, hs, t. split_and!; try done.
      (* the first token is not needed by the callback *)
      revert Hn. unfold decoratePanel. cbv zeta.
      rewrite run_bind, run_querySelector, Hh. cbv beta iota.
      rewrite run_bind, run_cloneNode. cbv beta iota.
      rewrite run_bind.
      assert ((if decide (buttonsGeneratedContent (options this) = "html")
           then h0 ← deref (Elem h); get_innerHTML h0
           else h0 ← deref (Elem h); get_innerText h0)
            (cloned (button (options this)) w)
          = (cloned (button (options this)) w,
             Normal (header_content this h (cloned (button (options this)) w))))
        as ->.
      { unfold header_content. by case_decide. }
      cbv beta iota. mrun.
      rewrite (run_classList_add _ _ _ T1). cbv beta iota.
      rewrite run_bind, (run_insertBefore _ _ _ _ t) by done. cbv beta iota.
      mrun. rewrite (run_classList_add _ _ _ T2). cbv beta iota. mrun.
      rewrite (run_classList_add _ _ _ T3). cbv beta iota. mrun.
      intros _.
      unfold decorated, finished, staged, first_focusable, open_by_default,
        dress_panel, dress_toggle, panelId_of. cbv zeta.
      repeat case_decide; try done. }
  all: exfalso; revert Hn; unfold decoratePanel; cbv zeta;
    rewrite run_bind, run_querySelector, Hh; cbv beta iota;
    rewrite run_bind, run_cloneNode; cbv beta iota;
    rewrite run_bind;
    (assert (∃ c, (if decide (buttonsGeneratedContent (options this) = "html")
           then h0 ← deref (Elem h); get_innerHTML h0
           else h0 ← deref (Elem h); get_innerText h0)
            (cloned (button (options this)) w)
          = (cloned (button (options this)) w, Normal c)) as [c ->]
       by (case_decide; by eexists));
    cbv beta iota; mrun.
  all: try (edestruct (classList_add_throws h) as [e ->]; [exact T1|]; done).
  all: rewrite (run_classList_add _ _ _ T1); cbv beta iota;
    rewrite run_bind, (run_insertBefore _ _ _ _ t) by done; cbv beta iota; mrun.
  all: try (edestruct (classList_add_throws (fresh w)) as [e ->]; [exact T2|]; done).
  all: rewrite (run_classList_add _ _ _ T2); cbv beta iota; mrun.
  all: edestruct (classList_add_throws panel) as [e ->]; [exact T3|]; done.
Qed.

(** *** One panel decorated: what changed *)

Lemma attr_cloned n w m k :
  attr (cloned n w) m k = if decide (m = fresh w) then attr w n k else attr w m k.
Proof. unfold attr, cloned. simpl. by case_decide. Qed.

Lemma attr_with_tree t w m k : attr (with_tree t w) m k = attr w m k.
Proof. reflexivity. Qed.

Lemma id_of_with_tree t w m : id_of (with_tree t w) m = id_of w m.
Proof. reflexivity. Qed.

Definition marked (w : World) (p : nid) : Prop :=
  attr w p "data-accordion-open" = Some "true".

#[global] Instance marked_dec w p : Decision (marked w p).
Proof. unfold marked. apply _. Defined.

Lemma tagName_update n f w m :
  (∀ e, tagName (f e) = tagName e) →
  tagName (elems (update n f w) m) = tagName (elems w m).
Proof. intros Hf. unfold update; simpl. destruct (decide (m = n)); by rewrite ?Hf. Qed.

Lemma tagName_cloned n w m :
  tagName (elems (cloned n w) m)
  = if decide (m = fresh w) then tagName (elems w n) else tagName (elems w m).
Proof. unfold cloned; simpl. by destruct (decide (m = fresh w)). Qed.

(** The toggle staged. *)
Section staging.
Context (this : AriaAccordion) (h : nid) (t : Tree) (w : World).

Lemma staged_fresh : fresh (staged this h t w) = S (fresh w).
Proof. reflexivity. Qed.

Lemma staged_tree : tree (staged this h t w) = t.
Proof. reflexivity. Qed.

Lemma staged_listeners : listeners (staged this h t w) = listeners w.
Proof. reflexivity. Qed.

Lemma staged_tagName x :
  tagName (elems (staged this h t w) x)
  = if decide (x = fresh w) then tagName (elems w (button (options this)))
    else tagName (elems w x).
Proof.
  unfold staged. cbv zeta.
  change (elems (with_tree ?t ?w)) with (elems w).
  rewrite !tagName_update by done. apply tagName_cloned.
Qed.

Lemma attr_staged x k :
  attr (staged this h t w) x k
  = if decide (x = h ∧ k = "tabindex") then Some "0"
    else if decide (x = fresh w) then attr w (button (options this)) k
         else attr w x k.
Proof.
  unfold staged. cbv zeta.
  by rewrite attr_with_tree, attr_update_class, attr_update_set,
    attr_update_markup, attr_cloned.
Qed.
End staging.

(** The attributes written from the staged page [w], for any toggle [b]
    other than the panel [p]. *)
Section finishing.
Context (this : AriaAccordion) (b p : nid) (i : nat) (pid : string) (w : World).
Hypothesis Hpb : p ≠ b.

Let w' := finished this b p i pid w.

Local Ltac stages :=
  unfold w', finished, first_focusable, open_by_default; cbv zeta;
  repeat match goal with
         | |- context [if decide ?P then update _ _ _ else _] => destruct (decide P)
         end.

Local Ltac attrs :=
  unfold dress_panel, dress_toggle; cbv zeta;
  rewrite ?attr_update_del, ?attr_update_set, ?attr_update_class,
    ?attr_update_set, ?attr_update_class, ?attr_update_set;
  keys.

Lemma finished_fresh : fresh w' = fresh w.
Proof. by stages. Qed.

Lemma finished_tree : tree w' = tree w.
Proof. by stages. Qed.

Lemma finished_listeners : listeners w' = listeners w.
Proof. by stages. Qed.

Lemma finished_tagName x : tagName (elems w' x) = tagName (elems w x).
Proof.
  stages; unfold dress_panel, dress_toggle; cbv zeta;
    by rewrite !tagName_update by done.
Qed.

Lemma finished_attr_other x k : x ≠ b → x ≠ p → attr w' x k = attr w x k.
Proof.
  intros Hb Hp. stages; attrs;
    rewrite ?(decide_False (P := x = _ ∧ _)) by (intros [? _]; done);
    by rewrite ?(decide_False (P := x = _)) by done.
Qed.

Lemma dressed_marker :
  attr (dress_panel this p pid (dress_toggle this b pid w)) p "data-accordion-open"
  = attr w p "data-accordion-open".
Proof. attrs. by rewrite ?(decide_False (P := p = b)) by done. Qed.

Lemma finished_marker :
  attr w' p "data-accordion-open" = attr w p "data-accordion-open".
Proof.
  stages; attrs; by rewrite ?(decide_False (P := p = b)) by done.
Qed.

Lemma finished_panel_id : attr w' p "id" = Some pid.
Proof.
  stages; attrs; rewrite ?(decide_False (P := p = b)) by done;
    by rewrite ?(decide_True (P := p = p)) by done.
Qed.

Lemma finished_panel_labelledby :
  attr w' p "aria-labelledby" = Some (pid +:+ buttonSuffixId (options this)).
Proof.
  stages; attrs; rewrite ?(decide_False (P := p = b)) by done;
    by rewrite ?(decide_True (P := p = p)) by done.
Qed.

Lemma finished_panel_hidden :
  attr w' p "aria-hidden"
  = Some (if decide (attr w p "data-accordion-open" = Some "true")
          then "false" else "true").
Proof.
  unfold w', finished, first_focusable, open_by_default. cbv zeta.
  rewrite dressed_marker.
  destruct (decide (attr w p "data-accordion-open" = Some "true"));
    destruct (decide (i = 0%nat));
    attrs; rewrite ?(decide_False (P := p = b)) by done;
    by rewrite ?(decide_True (P := p = p)) by done.
Qed.

Lemma finished_toggle_id :
  attr w' b "id" = Some (pid +:+ buttonSuffixId (options this)).
Proof.
  stages; attrs; rewrite ?(decide_False (P := b = p)) by done;
    by rewrite ?(decide_True (P := b = b)) by done.
Qed.

Lemma finished_toggle_controls : attr w' b "aria-controls" = Some pid.
Proof.
  stages; attrs; rewrite ?(decide_False (P := b = p)) by done;
    by rewrite ?(decide_True (P := b = b)) by done.
Qed.

Lemma finished_toggle_role : attr w' b "role" = Some "tab".
Proof.
  stages; attrs; rewrite ?(decide_False (P := b = p)) by done;
    by rewrite ?(decide_True (P := b = b)) by done.
Qed.

Lemma finished_toggle_selected : attr w' b "aria-selected" = Some "false".
Proof.
  stages; attrs; rewrite ?(decide_False (P := b = p)) by done;
    by rewrite ?(decide_True (P := b = b)) by done.
Qed.

Lemma finished_toggle_tabindex :
  attr w' b "tabindex" = if decide (i = 0%nat) then None else Some "-1".
Proof.
  stages; attrs; rewrite ?(decide_False (P := b = p)) by done;
    by rewrite ?(decide_True (P := b = b)) by done.
Qed.

Lemma finished_toggle_expanded :
  attr w' b "aria-expanded"
  = Some (if decide (attr w p "data-accordion-open" = Some "true")
          then "true" else "false").
Proof.
  unfold w', finished, first_focusable, open_by_default. cbv zeta.
  rewrite dressed_marker.
  destruct (decide (attr w p "data-accordion-open" = Some "true"));
    destruct (decide (i = 0%nat));
    attrs; rewrite ?(decide_False (P := b = p)) by done;
    by rewrite ?(decide_True (P := b = b)) by done.
Qed.
End finishing.

(** One turn of the loop, in terms of the page [w] it starts from. *)
Section one_panel.
Context (this : AriaAccordion) (p : nid) (i : nat) (h : nid) (t : Tree) (w : World).
Let w' := decorated this p i h t w.
Hypothesis Hpb : p ≠ fresh w.

Lemma decorated_fresh : fresh w' = S (fresh w).
Proof. unfold w', decorated. by rewrite finished_fresh. Qed.

Lemma decorated_tree : tree w' = t.
Proof. unfold w', decorated. by rewrite finished_tree. Qed.

Lemma decorated_listeners : listeners w' = listeners w.
Proof. unfold w', decorated. by rewrite finished_listeners. Qed.

Lemma decorated_tagName x :
  tagName (elems w' x)
  = if decide (x = fresh w) then tagName (elems w (button (options this)))
    else tagName (elems w x).
Proof. unfold w', decorated. by rewrite finished_tagName, staged_tagName. Qed.

Lemma decorated_attr_other x k :
  x ≠ fresh w → x ≠ p → x ≠ h ∨ k ≠ "tabindex" →
  attr w' x k = attr w x k.
Proof.
  intros Hb Hp Hh. unfold w', decorated.
  rewrite finished_attr_other, attr_staged by done.
  rewrite decide_False by (intros [? ?]; by destruct Hh).
  by rewrite decide_False.
Qed.

Lemma staged_panel k : attr (staged this h t w) p k
                       = if decide (p = h ∧ k = "tabindex") then Some "0"
                         else attr w p k.
Proof. rewrite attr_staged. by rewrite (decide_False (P := p = fresh w)). Qed.

Lemma decorated_marker :
  attr w' p "data-accordion-open" = attr w p "data-accordion-open".
Proof.
  unfold w', decorated. rewrite finished_marker, staged_panel by done.
  by rewrite decide_False by (by intros [_ ?]).
Qed.

Lemma decorated_toggle_tabindex :
  attr w' (fresh w) "tabindex" = if decide (i = 0%nat) then None else Some "-1".
Proof. unfold w', decorated. by rewrite finished_toggle_tabindex. Qed.

Lemma decorated_toggle_role : attr w' (fresh w) "role" = Some "tab".
Proof. unfold w', decorated. by rewrite finished_toggle_role. Qed.

Lemma decorated_toggle_selected : attr w' (fresh w) "aria-selected" = Some "false".
Proof. unfold w', decorated. by rewrite finished_toggle_selected. Qed.

Lemma decorated_panel_hidden :
  attr w' p "aria-hidden" = Some (if decide (marked w p) then "false" else "true").
Proof.
  unfold w', decorated. rewrite finished_panel_hidden by done.
  f_equal. apply decide_ext. unfold marked. rewrite staged_panel.
  by rewrite decide_False by (by intros [_ ?]).
Qed.

Lemma decorated_toggle_expanded :
  attr w' (fresh w) "aria-expanded"
  = Some (if decide (marked w p) then "true" else "false").
Proof.
  unfold w', decorated. rewrite finished_toggle_expanded by done.
  f_equal. apply decide_ext. unfold marked. rewrite staged_panel.
  by rewrite decide_False by (by intros [_ ?]).
Qed.

(** The identifiers do not see the staging when the container is not
    the new element. *)
Hypothesis Hrb : root this ≠ fresh w.

Lemma panelId_of_staged : panelId_of this (staged this h t w) p i = panelId_of this w p i.
Proof.
  unfold panelId_of, id_of. rewrite !attr_staged.
  rewrite !(decide_False (P := _ ∧ "id" = "tabindex")) by (by intros [_ ?]).
  rewrite !(decide_False (P := p = fresh w)) by done.
  by rewrite !(decide_False (P := root this = fresh w)) by done.
Qed.

Lemma decorated_panel_id : attr w' p "id" = Some (panelId_of this w p i).
Proof.
  unfold w', decorated. by rewrite finished_panel_id, panelId_of_staged.
Qed.

Lemma decorated_panel_labelledby :
  attr w' p "aria-labelledby"
  = Some (panelId_of this w p i +:+ buttonSuffixId (options this)).
Proof.
  unfold w', decorated. by rewrite finished_panel_labelledby, panelId_of_staged.
Qed.

Lemma decorated_toggle_id :
  attr w' (fresh w) "id"
  = Some (panelId_of this w p i +:+ buttonSuffixId (options this)).
Proof.
  unfold w', decorated. by rewrite finished_toggle_id, panelId_of_staged.
Qed.

Lemma decorated_toggle_controls :
  attr w' (fresh w) "aria-controls" = Some (panelId_of this w p i).
Proof.
  unfold w', decorated. by rewrite finished_toggle_controls, panelId_of_staged.
Qed.
End one_panel.

(** *** The loop over the panels *)

(** The conditions under which the loop is analysed: [N] bounds the
    elements that existed before the loop; the container, the template and
    the panels are among them; the panels are distinct, none has the
    container below it, and all that is below a panel existed before. *)
Record fit (N : nid) (this : AriaAccordion) (w : World) (ps : list nid) : Prop := {
  fit_fresh : (N ≤ fresh w)%nat;
  fit_root : (root this < N)%nat;
  fit_template : (button (options this) < N)%nat;
  fit_NoDup : NoDup ps;
  fit_panel : ∀ p, p ∈ ps →
    (p < N)%nat ∧ p ≠ root this ∧ root this ∉ descendants (tree w) p
    ∧ ∀ d, d ∈ descendants (tree w) p → (d < N)%nat
}.

Lemma forEach_from_cons {A} i (x : A) l f w :
  forEach_from i (x :: l) f w
  = match f x i w with
    | (w', Normal _) => forEach_from (S i) l f w'
    | (w', Throw e) => (w', Throw e)
    end.
Proof. simpl. rewrite run_bind. by destruct (f x i w) as [w' [[]|e]]. Qed.

(** One turn of a successful loop. *)
Lemma loop_turn N this p ps i w w' :
  fit N this w (p :: ps) →
  forEach_from i (p :: ps) (decoratePanel this) w = (w', Normal ()) →
  ∃ h t,
    h ∈ descendants (tree w) p
    ∧ tree_insert_before (tree w) (root this) (Node (fresh w) []) p = Some t
    ∧ fit N this (decorated this p i h t w) ps
    ∧ forEach_from (S i) ps (decoratePanel this) (decorated this p i h t w)
      = (w', Normal ()).
Proof.
  intros Hfit. rewrite forEach_from_cons.
  destruct (decoratePanel this p i w) as [w1 [[]|e]] eqn:E; [|done].
  destruct (decoratePanel_Normal this p i w) as (h & hs & t & Hq & Ht & _ & _ & _ & E1).
  { by rewrite E. }
  rewrite E in E1. simpl in E1. subst w1. intros Hloop.
  exists h, t.
  assert (h ∈ descendants (tree w) p) as Hh.
  { assert (h ∈ querySelectorAll_in w p (headersSelector (options this))) as Hin
      by (rewrite Hq; set_solver).
    unfold querySelectorAll_in in Hin. by apply list_elem_of_filter in Hin as [_ ?]. }
  split; [done|]. split; [done|]. split; [|done].
  destruct Hfit as [F1 F2 F3 F4 F5].
  assert (p ≠ fresh w) as Hpb.
  { destruct (F5 p) as (? & _); [set_solver|lia]. }
  split.
  - rewrite decorated_fresh by done. lia.
  - done.
  - done.
  - by apply NoDup_cons in F4 as [_ ?].
  - intros q Hq'. destruct (F5 q) as (Q1 & Q2 & Q3 & Q4); [set_solver|].
    rewrite decorated_tree by done.
    rewrite (tree_insert_before_descendants (tree w) (root this) (fresh w) p t q);
      [done|done|lia|done|done].
Qed.

Lemma forEach_from_nil {A} i (f : A → nat → M unit) w :
  forEach_from i [] f w = (w, Normal ()).
Proof. reflexivity. Qed.

(** What a successful loop leaves alone. *)
Lemma loop_frame N this ps i w w' :
  fit N this w ps →
  forEach_from i ps (decoratePanel this) w = (w', Normal ()) →
  fresh w' = (fresh w + length ps)%nat
  ∧ listeners w' = listeners w
  ∧ (∀ x, (x < fresh w)%nat →
          tagName (elems w' x) = tagName (elems w x))
  ∧ (∀ x k, (x < fresh w)%nat → x ∉ ps → k ≠ "tabindex" ∨ (N ≤ x)%nat →
            attr w' x k = attr w x k).
Proof.
  revert i w. induction ps as [|p ps IH]; intros i w Hfit Hloop.
  - rewrite forEach_from_nil in Hloop. injection Hloop as <-.
    split_and!; [simpl; lia|done..].
  - destruct (loop_turn _ _ _ _ _ _ _ Hfit Hloop) as (h & t & Hh & Ht & Hfit1 & Hloop1).
    destruct (IH _ _ Hfit1 Hloop1) as (I1 & I2 & I3 & I4).
    assert (p ≠ fresh w) as Hpb.
    { destruct (fit_panel _ _ _ _ Hfit p) as (? & _); [set_solver|].
      pose proof (fit_fresh _ _ _ _ Hfit). lia. }
    assert ((h < N)%nat) as HhN.
    { destruct (fit_panel _ _ _ _ Hfit p) as (_ & _ & _ & H); [set_solver|].
      by apply H. }
    rewrite decorated_fresh in I1, I3, I4 by done.
    split_and!.
    + rewrite I1. simpl. lia.
    + rewrite I2. by apply decorated_listeners.
    + intros x Hx. rewrite I3 by lia. rewrite decorated_tagName by done.
      rewrite decide_False by lia. done.
    + intros x k Hx Hxp Hk. rewrite I4; [|lia|set_solver|done].
      apply decorated_attr_other; [lia|set_solver|].
      destruct Hk as [?|?]; [by right|left; lia].
Qed.

(** Panel [p] of ordinal [i] and its toggle [b], as the loop leaves them in
    page [w'], in terms of the page [w] it started from. *)
Record dressed (this : AriaAccordion) (w w' : World) (p : nid) (i : nat) (b : nid)
  : Prop := {
  d_panel_id : attr w' p "id" = Some (panelId_of this w p i);
  d_hidden :
    attr w' p "aria-hidden" = Some (if decide (marked w p) then "false" else "true");
  d_labelledby :
    attr w' p "aria-labelledby"
    = Some (panelId_of this w p i +:+ buttonSuffixId (options this));
  d_toggle_id :
    attr w' b "id" = Some (panelId_of this w p i +:+ buttonSuffixId (options this));
  d_controls : attr w' b "aria-controls" = Some (panelId_of this w p i);
  d_expanded :
    attr w' b "aria-expanded" = Some (if decide (marked w p) then "true" else "false");
  d_tabindex :
    attr w' b "tabindex" = if decide (i = 0%nat) then None else Some "-1";
  d_tag : tagName (elems w' b) = tagName (elems w (button (options this)))
}.

Lemma loop_spec N this ps i w w' :
  fit N this w ps →
  forEach_from i ps (decoratePanel this) w = (w', Normal ()) →
  ∀ j p, ps !! j = Some p → dressed this w w' p (i + j)%nat (fresh w + j)%nat.
Proof.
  revert i w. induction ps as [|p ps IH]; intros i w Hfit Hloop j q Hj; [done|].
  destruct (loop_turn _ _ _ _ _ _ _ Hfit Hloop) as (h & t & Hh & Ht & Hfit1 & Hloop1).
  destruct (loop_frame _ _ _ _ _ _ Hfit1 Hloop1) as (_ & _ & Htag & Hframe).
  pose proof (fit_fresh _ _ _ _ Hfit) as HN.
  pose proof (fit_root _ _ _ _ Hfit) as Hroot.
  pose proof (fit_template _ _ _ _ Hfit) as Htemplate.
  pose proof (fit_NoDup _ _ _ _ Hfit) as [Hpps Hnd]%NoDup_cons.
  assert ((p < N)%nat ∧ p ≠ fresh w ∧ p ≠ root this) as (HpN & Hpb & Hpr).
  { destruct (fit_panel _ _ _ _ Hfit p) as (? & ? & _); [set_solver|].
    split_and!; [done|lia|done]. }
  assert (root this ≠ fresh w) as Hrb by lia.
  assert (∀ x, x ∈ ps → (x < N)%nat) as Hps.
  { intros x Hx. destruct (fit_panel _ _ _ _ Hfit x) as (? & _); [set_solver|done]. }
  rewrite decorated_fresh in Htag, Hframe by done.
  destruct j as [|j]; simpl in Hj.
  - injection Hj as <-. rewrite !Nat.add_0_r.
    assert (fresh w ∉ ps) as Hbps by (intros ?%Hps; lia).
    split.
    + rewrite Hframe; [|lia|done|by left]. by apply decorated_panel_id.
    + rewrite Hframe; [|lia|done|by left]. by apply decorated_panel_hidden.
    + rewrite Hframe; [|lia|done|by left]. by apply decorated_panel_labelledby.
    + rewrite Hframe; [|lia|done|by left]. by apply decorated_toggle_id.
    + rewrite Hframe; [|lia|done|by left]. by apply decorated_toggle_controls.
    + rewrite Hframe; [|lia|done|by left]. by apply decorated_toggle_expanded.
    + rewrite Hframe; [|lia|done|right; lia]. by apply decorated_toggle_tabindex.
    + rewrite Htag by lia. rewrite decorated_tagName by done. by rewrite decide_True.
  - assert (q ∈ ps) as Hq by (by eapply list_elem_of_lookup_2).
    assert (q ≠ p) as Hqp by (by intros ->).
    pose proof (Hps q Hq) as HqN.
    destruct (IH _ _ Hfit1 Hloop1 j q Hj) as [D1 D2 D3 D4 D5 D6 D7 D8].
    rewrite decorated_fresh in * by done.
    replace (S i + j)%nat with (i + S j)%nat in * by lia.
    replace (S (fresh w) + j)%nat with (fresh w + S j)%nat in * by lia.
    assert (panelId_of this (decorated this p i h t w) q (i + S j)
            = panelId_of this w q (i + S j)) as Epid.
    { unfold panelId_of, id_of.
      rewrite !(decorated_attr_other this p i h t w) by (done || lia || by right).
      done. }
    assert (marked (decorated this p i h t w) q ↔ marked w q) as Emark.
    { unfold marked.
      by rewrite (decorated_attr_other this p i h t w) by (done || lia || by right). }
    rewrite Epid in *.
    rewrite (decide_ext _ _ _ _ Emark) in D2.
    rewrite (decide_ext _ _ _ _ Emark) in D6.
    rewrite decorated_tagName, decide_False in D8 by (done || lia).
    by split.
Qed.

(** *** The container, the listeners, the constructor *)

Lemma run_hasAttribute n k w :
  hasAttribute n k w = (w, Normal (bool_decide (is_Some (attr w n k)))).
Proof. reflexivity. Qed.

(** The page after the statements of [initAttributes] on the container. *)
Definition rooted (this : AriaAccordion) (readableIndex : string) (w : World) : World :=
  let o := options this in
  let w1 := update (root this) (add_class (prefixClass o))
              (update (root this)
                 (set_attr "aria-multiselectable" (toString (multiselectable o)))
                 (update (root this) (set_attr "role" "tablist") w)) in
  if bool_decide (is_Some (attr w (root this) "id")) then w1
  else update (root this)
         (set_attr "id" (accordionPrefixId o +:+ "-" +:+ readableIndex)) w1.

Lemma initAttributes_run this readableIndex w :
  token_ok (prefixClass (options this)) = true →
  initAttributes this readableIndex w
  = forEach (panels this) (decoratePanel this) (rooted this readableIndex w).
Proof.
  intros T0. unfold initAttributes. cbv zeta. mrun.
  rewrite (run_classList_add _ _ _ T0). cbv beta iota.
  rewrite run_bind, run_hasAttribute. cbv beta iota.
  rewrite attr_update_class, !attr_update_set. keys.
  unfold rooted. cbv zeta.
  destruct (bool_decide (is_Some (attr w (root this) "id"))); simpl negb; by mrun.
Qed.

Lemma initAttributes_bad_token this readableIndex w :
  token_ok (prefixClass (options this)) = false →
  ∃ w' e, initAttributes this readableIndex w = (w', Throw e).
Proof.
  intros T0. unfold initAttributes. cbv zeta. mrun.
  edestruct classList_add_throws as [e ->]; [exact T0|]. by eexists _, _.
Qed.

Lemma attr_rooted this readableIndex w x k :
  x ≠ root this → attr (rooted this readableIndex w) x k = attr w x k.
Proof.
  intros Hx. unfold rooted. cbv zeta. case_match;
    rewrite ?attr_update_set, ?attr_update_class, ?attr_update_set;
    by rewrite ?(decide_False (P := x = root this ∧ _)) by (by intros [? _]).
Qed.

Lemma rooted_static this readableIndex w :
  tree (rooted this readableIndex w) = tree w
  ∧ fresh (rooted this readableIndex w) = fresh w
  ∧ listeners (rooted this readableIndex w) = listeners w
  ∧ ∀ x, tagName (elems (rooted this readableIndex w) x) = tagName (elems w x).
Proof.
  unfold rooted. cbv zeta. case_match; split_and!; try done;
    intros x; unfold update; simpl; repeat case_decide; done.
Qed.

(** The id of the container once [initAttributes] has seen to it. *)
Definition root_id (this : AriaAccordion) (readableIndex : string) (w : World)
  : string :=
  match attr w (root this) "id" with
  | Some i => i
  | None => accordionPrefixId (options this) +:+ "-" +:+ readableIndex
  end.

Lemma id_of_rooted this readableIndex w :
  id_of (rooted this readableIndex w) (root this) = root_id this readableIndex w.
Proof.
  unfold id_of, root_id, rooted. cbv zeta.
  destruct (attr w (root this) "id") as [i|] eqn:E.
  - rewrite bool_decide_true by done.
    rewrite attr_update_class, !attr_update_set. keys. by rewrite E.
  - rewrite bool_decide_false by (by intros [? ?]).
    rewrite attr_update_set. by rewrite decide_True.
Qed.

(** A page fit for decoration: its elements are distinct and were allocated
    before, as was the template, and the container is in the document. *)
Definition well_formed (w : World) (container : nid) (o : AriaAccordionOptions)
  : bool :=
  bool_decide (NoDup (preorder (tree w)))
  && forallb (λ n, bool_decide (n < fresh w)%nat) (preorder (tree w))
  && bool_decide (container ∈ preorder (tree w))
  && bool_decide (button o < fresh w)%nat.

Lemma well_formed_fit this readableIndex w :
  well_formed w (root this) (options this) = true →
  panels this = querySelectorAll_in w (root this) (panelsSelector (options this)) →
  fit (fresh w) this (rooted this readableIndex w) (panels this).
Proof.
  intros Hwf Hps. unfold well_formed in Hwf.
  apply andb_prop in Hwf as [[[Hnd Hb]%andb_prop Hr]%andb_prop Ht].
  apply bool_decide_eq_true in Hnd, Hr, Ht.
  rewrite forallb_forall in Hb.
  assert (∀ n, n ∈ preorder (tree w) → (n < fresh w)%nat) as Hbound.
  { intros n Hn. apply list_elem_of_In, Hb in Hn. by apply bool_decide_eq_true in Hn. }
  destruct (rooted_static this readableIndex w) as (Et & Ef & _ & _).
  assert (∀ p, p ∈ panels this → p ∈ descendants (tree w) (root this)) as Hdesc.
  { intros p. rewrite Hps. unfold querySelectorAll_in.
    by intros [_ ?]%list_elem_of_filter. }
  split.
  - by rewrite Ef.
  - by apply Hbound.
  - done.
  - rewrite Hps. unfold querySelectorAll_in. apply NoDup_filter.
    by apply descendants_NoDup.
  - intros p Hp. apply Hdesc in Hp. rewrite Et. split_and!.
    + by eapply Hbound, descendants_elem.
    + intros ->. by apply (descendants_NoDup (tree w) (root this)).
    + by apply descendants_acyclic.
    + intros d Hd. by eapply Hbound, descendants_elem.
Qed.

Definition panel_listener (p : nid) : Listener :=
  {| l_element := p; l_type := "keydown"; l_method := keydownPanel |}.

Definition listening (ls : list Listener) (w : World) : World :=
  with_listeners (listeners w ++ ls) w.

Lemma listening_listening ls1 ls2 w :
  listening ls2 (listening ls1 w) = listening (ls1 ++ ls2) w.
Proof. unfold listening. simpl. by rewrite app_assoc. Qed.

Lemma listening_nil w : listening [] w = w.
Proof. unfold listening. rewrite app_nil_r. by destruct w. Qed.

Lemma run_addEventListener n type m w :
  addEventListener n type m w
  = (listening [{| l_element := n; l_type := type; l_method := m |}] w, Normal ()).
Proof. reflexivity. Qed.

Lemma initEvents_run this w :
  initEvents this w
  = (listening
       (flat_map listeners_of
          (querySelectorAll_in w (root this) (buttonsSelector (options this)))
        ++ map panel_listener
             (querySelectorAll_in w (root this) (panelsSelector (options this)))) w,
     Normal ()).
Proof.
  unfold initEvents. rewrite run_bind, run_querySelectorAll. cbv beta iota.
  rewrite run_bind.
  rewrite (forEach_total (λ w b, listening (listeners_of b) w)).
  2:{ intros b j w0. rewrite run_bind, run_addEventListener. cbv beta iota.
      rewrite run_bind, run_addEventListener. cbv beta iota.
      by rewrite run_addEventListener, !listening_listening. }
  cbv beta iota. rewrite run_bind, run_querySelectorAll. cbv beta iota.
  rewrite (forEach_total (λ w p, listening [panel_listener p] w)) by done.
  f_equal.
  assert (∀ bs w0, foldl (λ w b, listening (listeners_of b) w) w0 bs
                   = listening (flat_map listeners_of bs) w0) as E1.
  { induction bs as [|b bs IH]; intros w0; simpl foldl.
    - by rewrite listening_nil.
    - rewrite IH, listening_listening. done. }
  assert (∀ ps w0, foldl (λ w p, listening [panel_listener p] w) w0 ps
                   = listening (map panel_listener ps) w0) as E2.
  { induction ps as [|p ps IH]; intros w0; simpl foldl.
    - by rewrite listening_nil.
    - rewrite IH, listening_listening. done. }
  rewrite E1, E2, listening_listening. done.
Qed.

(** What the constructor returns and the page it leaves, when it returns. *)
Lemma constructor_Normal container opts readableIndex w this :
  snd (constructor container opts readableIndex w) = Normal this →
  ∃ wa,
    options this = opts ∧ root this = container
    ∧ panels this = querySelectorAll_in w container (panelsSelector opts)
    ∧ buttons this = querySelectorAll_in wa container (buttonsSelector opts)
    ∧ token_ok (prefixClass opts) = true
    ∧ forEach (panels this) (decoratePanel this) (rooted this readableIndex w)
      = (wa, Normal ())
    ∧ fst (constructor container opts readableIndex w)
      = listening
          (flat_map listeners_of (buttons this)
           ++ map panel_listener
                (querySelectorAll_in wa container (panelsSelector opts))) wa.
Proof.
  unfold constructor. rewrite run_bind, run_querySelectorAll. cbv beta iota zeta.
  set (ps := querySelectorAll_in w container (panelsSelector opts)).
  set (this0 := {| options := opts; root := container; panels := ps; buttons := [] |}).
  rewrite run_bind.
  destruct (token_ok (prefixClass opts)) eqn:T0.
  2:{ destruct (initAttributes_bad_token this0 readableIndex w) as (w' & e & ->);
        done. }
  rewrite (initAttributes_run this0) by done.
  destruct (forEach (panels this0) (decoratePanel this0)
              (rooted this0 readableIndex w)) as [wa [[]|e]] eqn:E; [|done].
  rewrite run_bind, initEvents_run. cbv beta iota.
  rewrite run_bind, run_querySelectorAll. cbv beta iota.
  simpl snd. intros [= <-]. exists wa. simpl. split_and!; try done.
Qed.

(** *** The accordion as the constructor leaves it *)

(** The element cloned for the panel of ordinal [j]. *)
Definition toggle_of (w0 : World) (j : nat) : nid := (fresh w0 + j)%nat.

(** The id that the panel of ordinal [j] receives: [(panel.id ||
    this.root.id) + '-' + index], read in the page before construction. *)
Definition assigned_id (this : AriaAccordion) (readableIndex : string) (w0 : World)
    (p : nid) (j : nat) : string :=
  (if decide (id_of w0 p = "") then root_id this readableIndex w0 else id_of w0 p)
    +:+ "-" +:+ pretty j.

Lemma panelId_of_rooted this readableIndex w0 p j :
  p ≠ root this →
  panelId_of this (rooted this readableIndex w0) p j
  = assigned_id this readableIndex w0 p j.
Proof.
  intros Hp. unfold panelId_of, assigned_id.
  rewrite id_of_rooted. unfold id_of. by rewrite attr_rooted.
Qed.

Lemma marked_rooted this readableIndex w0 p :
  p ≠ root this → marked (rooted this readableIndex w0) p ↔ marked w0 p.
Proof. intros Hp. unfold marked. by rewrite attr_rooted. Qed.

(** Page [w1] and object [this] as construction on page [w0] leaves them. *)
Record initial (this : AriaAccordion) (readableIndex : string) (w0 w1 : World)
  : Prop := {
  i_buttons :
    buttons this = querySelectorAll_in w1 (root this) (buttonsSelector (options this));
  i_listeners :
    listeners w1
    = listeners w0 ++ flat_map listeners_of (buttons this)
      ++ map panel_listener
           (querySelectorAll_in w1 (root this) (panelsSelector (options this)));
  i_fresh : fresh w1 = (fresh w0 + length (panels this))%nat;
  i_NoDup : NoDup (panels this);
  i_old : ∀ p, p ∈ panels this → (p < fresh w0)%nat;
  i_panel_id : ∀ j p, panels this !! j = Some p →
    attr w1 p "id" = Some (assigned_id this readableIndex w0 p j);
  i_labelledby : ∀ j p, panels this !! j = Some p →
    attr w1 p "aria-labelledby"
    = Some (assigned_id this readableIndex w0 p j +:+ buttonSuffixId (options this));
  i_hidden : ∀ p, p ∈ panels this →
    attr w1 p "aria-hidden" = Some (if decide (marked w0 p) then "false" else "true");
  i_toggle_id : ∀ j p, panels this !! j = Some p →
    attr w1 (toggle_of w0 j) "id"
    = Some (assigned_id this readableIndex w0 p j +:+ buttonSuffixId (options this));
  i_controls : ∀ j p, panels this !! j = Some p →
    attr w1 (toggle_of w0 j) "aria-controls"
    = Some (assigned_id this readableIndex w0 p j);
  i_expanded : ∀ j p, panels this !! j = Some p →
    attr w1 (toggle_of w0 j) "aria-expanded"
    = Some (if decide (marked w0 p) then "true" else "false");
  i_tabindex : ∀ j, (j < length (panels this))%nat →
    attr w1 (toggle_of w0 j) "tabindex"
    = if decide (j = 0%nat) then None else Some "-1";
  i_tag : ∀ j, (j < length (panels this))%nat →
    tagName (elems w1 (toggle_of w0 j)) = tagName (elems w0 (button (options this)))
}.

Lemma constructor_initial container opts readableIndex w0 w1 this :
  well_formed w0 container opts = true →
  constructor container opts readableIndex w0 = (w1, Normal this) →
  options this = opts ∧ root this = container
  ∧ panels this = querySelectorAll_in w0 container (panelsSelector opts)
  ∧ initial this readableIndex w0 w1.
Proof.
  intros Hwf Hc.
  destruct (constructor_Normal container opts readableIndex w0 this)
    as (wa & Eo & Er & Ep & Eb & T0 & Hloop & Ew).
  { by rewrite Hc. }
  rewrite Hc in Ew. simpl in Ew. subst w1.
  split; [done|]. split; [done|]. split; [done|].
  assert (fit (fresh w0) this (rooted this readableIndex w0) (panels this)) as Hfit.
  { apply well_formed_fit; by rewrite ?Eo, ?Er. }
  pose proof (loop_spec _ _ _ _ _ _ Hfit Hloop) as Hspec.
  destruct (loop_frame _ _ _ _ _ _ Hfit Hloop) as (Hfresh & Hlist & _ & _).
  destruct (rooted_static this readableIndex w0) as (_ & Ef & El & Etag).
  rewrite Ef in Hfresh, Hspec. rewrite El in Hlist.
  assert (∀ p, p ∈ panels this → p ≠ root this) as Hapart.
  { intros p Hp. by destruct (fit_panel _ _ _ _ Hfit p Hp) as (_ & ? & _). }
  assert (∀ j p, panels this !! j = Some p → p ≠ root this) as Hapart'.
  { intros j p Hj. by eapply Hapart, list_elem_of_lookup_2. }
  split.
  - by rewrite Er, Eo.
  - simpl. by rewrite Hlist, Er, Eo.
  - done.
  - apply (fit_NoDup _ _ _ _ Hfit).
  - intros p Hp. by destruct (fit_panel _ _ _ _ Hfit p Hp) as (? & _).
  - intros j p Hj. rewrite <- panelId_of_rooted by eauto.
    apply (d_panel_id _ _ _ _ _ _ (Hspec j p Hj)).
  - intros j p Hj. rewrite <- panelId_of_rooted by eauto.
    apply (d_labelledby _ _ _ _ _ _ (Hspec j p Hj)).
  - intros p Hp. destruct (list_elem_of_lookup_1 _ _ Hp) as [j Hj].
    rewrite <- (decide_ext _ _ _ _ (marked_rooted this readableIndex w0 p (Hapart p Hp))).
    apply (d_hidden _ _ _ _ _ _ (Hspec j p Hj)).
  - intros j p Hj. rewrite <- panelId_of_rooted by eauto.
    apply (d_toggle_id _ _ _ _ _ _ (Hspec j p Hj)).
  - intros j p Hj. rewrite <- panelId_of_rooted by eauto.
    apply (d_controls _ _ _ _ _ _ (Hspec j p Hj)).
  - intros j p Hj.
    rewrite <- (decide_ext _ _ _ _ (marked_rooted this readableIndex w0 p (Hapart' j p Hj))).
    apply (d_expanded _ _ _ _ _ _ (Hspec j p Hj)).
  - intros j Hj. destruct (lookup_lt_is_Some_2 (panels this) j Hj) as [p Hp].
    apply (d_tabindex _ _ _ _ _ _ (Hspec j p Hp)).
  - intros j Hj. destruct (lookup_lt_is_Some_2 (panels this) j Hj) as [p Hp].
    rewrite <- Etag. apply (d_tag _ _ _ _ _ _ (Hspec j p Hp)).
Qed.

(** *** Sequences of interactions *)

Lemma interact_writes this w i : writes state_attributes w (interact this w i).
Proof.
  apply interact_ind.
  - apply writes_bookkeeping.
  - apply writes_refl.
  - intros w' l Hw' _ _. eapply writes_trans; [done|apply invoke_writes, call_modifies].
  - intros w' l Hw' _ _ _ _.
    eapply writes_trans; [done|apply invoke_writes, call_modifies].
Qed.

Lemma trace_writes this w trace :
  writes state_attributes w (foldl (interact this) w trace).
Proof.
  revert w. induction trace as [|i trace IH]; intros w; simpl.
  - apply writes_refl.
  - eapply writes_trans; [apply interact_writes|apply IH].
Qed.

Lemma forallb_well_aimed K this w w' trace :
  writes K w w' →
  forallb (well_aimed this w') trace = forallb (well_aimed this w) trace.
Proof.
  intros H. induction trace as [|i trace IH]; simpl; [done|].
  by rewrite IH, (well_aimed_writes _ _ _ _ _ H).
Qed.

(** An invariant of aimed interactions holds after any sequence of
    them. *)
Lemma trace_ind this (I : World → Prop) w trace :
  (∀ w' i, writes state_attributes w w' → well_aimed this w i = true →
           I w' → I (interact this w' i)) →
  forallb (well_aimed this w) trace = true →
  I w → I (foldl (interact this) w trace).
Proof.
  intros Hstep Haimed HI.
  assert (∀ w', writes state_attributes w w' → I w' →
                I (foldl (interact this) w' trace)) as H.
  { induction trace as [|i trace IH]; intros w' Hw' HI'; simpl; [done|].
    simpl in Haimed. apply andb_prop in Haimed as [Hi Htrace].
    apply IH; [done| |by apply Hstep].
    eapply writes_trans; [done|apply interact_writes]. }
  apply H; [apply writes_refl|done].
Qed.

Lemma trace_single_reachable this w trace :
  wired this w = true → tracked this w = true →
  forallb (well_aimed this w) trace = true →
  single_reachable this w →
  single_reachable this (foldl (interact this) w trace).
Proof.
  intros Hwired Htracked Haimed. apply trace_ind; [|done].
  intros w' i Hw' Hi Hs.
  apply interact_single_reachable; [| | |done].
  - by rewrite (wired_writes _ _ _ _ Hw').
  - by rewrite (tracked_writes _ _ _ _ Hw').
  - by rewrite (well_aimed_writes _ _ _ _ _ Hw').
Qed.

Lemma trace_mirror this w trace :
  wired this w = true → tracked this w = true → paired this w = true →
  forallb (well_aimed this w) trace = true →
  mirror this w →
  mirror this (foldl (interact this) w trace).
Proof.
  intros Hwired Htracked Hpaired Haimed. apply trace_ind; [|done].
  intros w' i Hw' Hi Hs.
  apply interact_mirror; [| | | |done].
  - by rewrite (wired_writes _ _ _ _ Hw').
  - by rewrite (tracked_writes _ _ _ _ Hw').
  - by rewrite (paired_writes _ _ _ Hw').
  - by rewrite (well_aimed_writes _ _ _ _ _ Hw').
Qed.

Lemma trace_at_most_one_visible this w trace :
  multiselectable (options this) = false →
  at_most_one_visible this w →
  at_most_one_visible this (foldl (interact this) w trace).
Proof.
  intros Hm. revert w. induction trace as [|i trace IH]; intros w Hw; simpl; [done|].
  by apply IH, interact_at_most_one_visible.
Qed.

Lemma trace_no_error this w trace :
  wired this w = true → tracked this w = true → paired this w = true →
  forallb (λ i, well_aimed this w i && outside_panels w i) trace = true →
  errors (foldl (interact this) w trace) = errors w.
Proof.
  intros Hwired Htracked Hpaired Haimed.
  assert (∀ w', writes state_attributes w w' →
                errors (foldl (interact this) w' trace) = errors w') as H.
  { induction trace as [|i trace IH]; intros w' Hw'; simpl; [done|].
    simpl in Haimed. apply andb_prop in Haimed as [[Hi Ho]%andb_prop Htrace].
    rewrite IH; [|done|eapply writes_trans; [done|apply interact_writes]].
    apply interact_no_error.
    - by rewrite (wired_writes _ _ _ _ Hw').
    - by rewrite (tracked_writes _ _ _ _ Hw').
    - by rewrite (paired_writes _ _ _ Hw').
    - by rewrite (well_aimed_writes _ _ _ _ _ Hw').
    - by rewrite (outside_panels_writes _ _ _ _ Hw'). }
  apply H, writes_refl.
Qed.

(** *** The accordion at the start *)

(** The buttons selector finds the toggles that construction made, one per
    panel and in the order of the panels, and nothing else. *)
Definition generated (this : AriaAccordion) (w0 : World) : bool :=
  bool_decide (buttons this
               = map (toggle_of w0) (seq 0 (length (panels this)))).

Lemma generated_lookup this w0 j :
  generated this w0 = true → (j < length (panels this))%nat →
  buttons this !! j = Some (toggle_of w0 j).
Proof.
  intros H%bool_decide_eq_true Hj. rewrite H, list_lookup_fmap.
  by rewrite lookup_seq_lt.
Qed.

Lemma generated_pairs this w0 b p :
  generated this w0 = true → (b, p) ∈ pairs this →
  ∃ j, panels this !! j = Some p ∧ b = toggle_of w0 j.
Proof.
  intros Hg [j Hj]%list_elem_of_lookup_1. unfold pairs in Hj.
  apply lookup_zip_with_Some in Hj as (b' & p' & [= <- <-] & Hb & Hp).
  exists j. split; [done|].
  rewrite (generated_lookup _ _ _ Hg) in Hb by (by eapply lookup_lt_Some).
  congruence.
Qed.

Lemma generated_buttons this w0 b :
  generated this w0 = true → b ∈ buttons this →
  ∃ j, (j < length (panels this))%nat ∧ b = toggle_of w0 j.
Proof.
  intros H%bool_decide_eq_true. rewrite H.
  intros (j & -> & Hj)%list_elem_of_fmap. apply elem_of_seq in Hj.
  exists j. split; [lia|done].
Qed.

Section start.
Context (this : AriaAccordion) (readableIndex : string) (w0 w1 : World).
Hypothesis Hinit : initial this readableIndex w0 w1.

Lemma initial_wired : listeners w0 = [] → wired this w1 = true.
Proof.
  intros Hl. unfold wired. rewrite (i_listeners _ _ _ _ Hinit), Hl. simpl app.
  apply andb_true_intro. split.
  - rewrite forallb_app. apply andb_true_intro. split.
    + apply forallb_forall. intros l Hl'.
      apply in_flat_map in Hl' as (b & Hb%list_elem_of_In & Hl').
      simpl in Hl'.
      destruct Hl' as [<-|[<-|[<-|[]]]]; unfold listener_ok;
        cbn [l_method l_type l_element]; apply andb_true_intro;
        split; by apply bool_decide_eq_true.
    + apply forallb_forall. intros l Hl'%list_elem_of_In.
      by apply list_elem_of_fmap in Hl' as (p & -> & _).
  - apply forallb_forall. intros b Hb%list_elem_of_In.
    apply forallb_forall. intros l Hl'.
    apply bool_decide_eq_true, elem_of_app. left.
    apply list_elem_of_In, in_flat_map. exists b. split; [|done].
    by apply list_elem_of_In.
Qed.

Lemma initial_tracked :
  sel_tag (buttonsSelector (options this)) = Some "button" → tracked this w1 = true.
Proof.
  intros Htag. unfold tracked. apply andb_true_intro. split.
  - apply bool_decide_eq_true. symmetry. apply (i_buttons _ _ _ _ Hinit).
  - apply forallb_forall. intros b Hb%list_elem_of_In.
    rewrite (i_buttons _ _ _ _ Hinit) in Hb. unfold querySelectorAll_in in Hb.
    apply list_elem_of_filter in Hb as [Hm _]. unfold matches in Hm.
    rewrite Htag in Hm. apply andb_True in Hm as [Hm _]. by apply Is_true_true.
Qed.

Hypothesis Hgen : generated this w0 = true.

Lemma initial_mirror : mirror this w1.
Proof.
  intros b p (j & Hj & ->)%(generated_pairs _ w0); [|done].
  unfold expanded, visible, hidden.
  rewrite (i_expanded _ _ _ _ Hinit j p Hj).
  rewrite (i_hidden _ _ _ _ Hinit p) by (by eapply list_elem_of_lookup_2).
  by destruct (decide (marked w0 p)).
Qed.

Lemma initial_reachable b :
  tracked this w1 = true → b ∈ buttons this →
  reachable w1 b = bool_decide (b = toggle_of w0 0).
Proof.
  intros Htr Hb. pose proof (tracked_tag _ _ _ Htr Hb) as Htag.
  destruct (generated_buttons _ _ _ Hgen Hb) as (j & Hj & ->).
  unfold reachable. rewrite (i_tabindex _ _ _ _ Hinit j Hj).
  destruct (decide (j = 0%nat)) as [->|Hne]; simpl.
  - by rewrite Htag, !bool_decide_true.
  - symmetry. apply bool_decide_eq_false. unfold toggle_of. lia.
Qed.

Lemma initial_single_reachable :
  tracked this w1 = true → (0 < length (panels this))%nat →
  single_reachable this w1.
Proof.
  intros Htr Hne. exists (toggle_of w0 0). split.
  - eapply list_elem_of_lookup_2, generated_lookup; done.
  - intros b Hb. by apply initial_reachable.
Qed.
End start.

Lemma initial_at_most_one_visible this readableIndex w0 w1 :
  initial this readableIndex w0 w1 →
  (length (filter (marked w0) (panels this)) ≤ 1)%nat →
  at_most_one_visible this w1.
Proof.
  intros Hinit Hone p1 p2 Hp1 Hp2. unfold visible, hidden.
  rewrite !(i_hidden _ _ _ _ Hinit) by done.
  destruct (decide (marked w0 p1)) as [H1|]; [|done].
  destruct (decide (marked w0 p2)) as [H2|]; [|done].
  intros _ _.
  assert (p1 ∈ filter (marked w0) (panels this)) as F1
    by (by apply list_elem_of_filter).
  assert (p2 ∈ filter (marked w0) (panels this)) as F2
    by (by apply list_elem_of_filter).
  destruct (filter (marked w0) (panels this)) as [|x [|y l]]; simpl in Hone.
  - by apply elem_of_nil in F1.
  - apply list_elem_of_singleton in F1, F2. congruence.
  - lia.
Qed.

(** *** A panel without header *)

Lemma matches_add_class c e s :
  sel_class s ≠ Some c → matches (add_class c e) s = matches e s.
Proof.
  intros Hc. unfold matches, add_class. simpl. f_equal.
  destruct (sel_class s) as [c'|]; [|done].
  apply bool_decide_ext. case_bool_decide; [done|].
  rewrite elem_of_app, list_elem_of_singleton. naive_solver.
Qed.

Lemma matches_add_class_mono c e s :
  matches e s = true → matches (add_class c e) s = true.
Proof.
  unfold matches, add_class. simpl.
  intros [H1 H2]%andb_prop. rewrite H1. simpl.
  destruct (sel_class s) as [c'|]; [|done].
  apply bool_decide_eq_true in H2. apply bool_decide_eq_true.
  case_bool_decide; [done|]. apply elem_of_app. by left.
Qed.

Lemma matches_update n f w d s :
  (d = n → matches (f (elems w n)) s = matches (elems w n) s) →
  matches (elems (update n f w) d) s = matches (elems w d) s.
Proof.
  intros H. unfold update. simpl. destruct (decide (d = n)) as [->|]; auto.
Qed.

Lemma elems_update_eq n f w : elems (update n f w) n = f (elems w n).
Proof. unfold update. simpl. by rewrite decide_True. Qed.

Lemma filter_ext_elem {A} (P Q : A → Prop) `{∀ x, Decision (P x), ∀ x, Decision (Q x)}
    (l : list A) :
  (∀ x, x ∈ l → P x ↔ Q x) → filter P l = filter Q l.
Proof.
  induction l as [|x l IH]; intros Hl; [done|].
  rewrite !filter_cons, IH by (intros y Hy; apply Hl; by right).
  apply decide_ext, Hl. by left.
Qed.

Lemma matches_cloned n w d s :
  d ≠ fresh w → matches (elems (cloned n w) d) s = matches (elems w d) s.
Proof. intros H. unfold cloned. simpl. by rewrite decide_False. Qed.

Lemma matches_staged this h t w d s :
  d ≠ fresh w → matches (elems w h) s = true →
  matches (elems (staged this h t w) d) s = matches (elems w d) s.
Proof.
  intros Hd Hh. unfold staged. cbv zeta.
  change (elems (with_tree ?t ?w)) with (elems w).
  destruct (decide (d = h)) as [->|Hdh].
  - rewrite Hh, elems_update_eq. apply matches_add_class_mono.
    rewrite !matches_update by done. by rewrite matches_cloned.
  - rewrite !matches_update by done. by apply matches_cloned.
Qed.

(** One turn that returns, from the condition of the loop. *)
Lemma turn_fit N this p ps i w :
  fit N this w (p :: ps) →
  snd (decoratePanel this p i w) = Normal () →
  ∃ h t,
    h ∈ querySelectorAll_in w p (headersSelector (options this))
    ∧ tree_insert_before (tree w) (root this) (Node (fresh w) []) p = Some t
    ∧ fst (decoratePanel this p i w) = decorated this p i h t w
    ∧ fit N this (decorated this p i h t w) ps
    ∧ ∀ q, q ∈ ps → descendants t q = descendants (tree w) q.
Proof.
  intros Hfit Hn.
  destruct (decoratePanel_Normal this p i w Hn) as (h & hs & t & Hq & Ht & _ & _ & _ & E1).
  exists h, t. split; [rewrite Hq; set_solver|]. split; [done|]. split; [done|].
  destruct Hfit as [F1 F2 F3 F4 F5].
  assert (p ≠ fresh w) as Hpb.
  { destruct (F5 p) as (? & _); [set_solver|lia]. }
  assert (∀ q, q ∈ ps → descendants t q = descendants (tree w) q) as Hdesc.
  { intros q Hq'. destruct (F5 q) as (Q1 & Q2 & Q3 & Q4); [set_solver|].
    apply (tree_insert_before_descendants (tree w) (root this) (fresh w) p t q);
      [done|lia|done|done]. }
  split; [|done]. split.
  - rewrite decorated_fresh. lia.
  - done.
  - done.
  - by apply NoDup_cons in F4 as [_ ?].
  - intros q Hq'. destruct (F5 q) as (Q1 & Q2 & Q3 & Q4); [set_solver|].
    rewrite decorated_tree. by rewrite (Hdesc q Hq').
Qed.

Lemma querySelectorAll_in_rooted this readableIndex w p s :
  root this ∉ descendants (tree w) p →
  querySelectorAll_in (rooted this readableIndex w) p s = querySelectorAll_in w p s.
Proof.
  intros Hr. unfold querySelectorAll_in.
  destruct (rooted_static this readableIndex w) as (-> & _).
  apply filter_ext_elem. intros d Hd.
  assert (d ≠ root this) as Hne by (by intros ->).
  unfold rooted. cbv zeta. case_match; by rewrite !matches_update.
Qed.


(** * Sample pages *)

Module Sample.

Definition el (tag : string) (cls : list string) (ats : list (string * string))
    (text : string) : Element :=
  {| tagName := tag; classList := cls; attributes := list_to_map ats;
     innerHTML := text; innerText := text |}.

(** A page whose elements are numbered in the order of [es], with the
    document tree [t]. *)
Definition document (es : list Element) (t : Tree) : World :=
  {| elems := λ n, default (el "" [] [] "") (es !! n);
     tree := t;
     fresh := length es;
     listeners := []; timers := []; activeElement := None;
     defaultPrevented := false; propagationStopped := false; errors := [] |}.

Definition panel (ats : list (string * string)) : Element :=
  el "div" ["js-accordion__panel"] ats "".

Definition header (tag text : string) : Element :=
  el tag ["js-accordion__header"] [] text.

(** html 0, body 1, container 2, panels 3 5 7 with headers 4 6 8, and the
    template button 9, which is not in the document. *)
Definition outline : Tree :=
  (Node 0 [Node 1 [Node 2 [Node 3 [Node 4 []]; Node 5 [Node 6 []];
                           Node 7 [Node 8 []]]]])%nat.

Definition page (p1 p2 p3 : list (string * string)) (tag : string) : World :=
  document
    [ el "html" [] [] ""; el "body" [] [] "";
      el "div" ["js-accordion"] [("id", "acc")] "";
      panel p1; header tag "One";
      panel p2; header tag "Two";
      panel p3; header tag "Three";
      defaultButton ]
    outline.

Definition config : AriaAccordionOptions := defaultConfig 9%nat.

Definition single_select : AriaAccordionOptions :=
  {| headersSelector := headersSelector config;
     panelsSelector := panelsSelector config;
     buttonsSelector := buttonsSelector config;
     buttonsGeneratedContent := buttonsGeneratedContent config;
     button := button config;
     buttonSuffixId := buttonSuffixId config;
     multiselectable := false;
     prefixClass := prefixClass config;
     headerSuffixClass := headerSuffixClass config;
     buttonSuffixClass := buttonSuffixClass config;
     panelSuffixClass := panelSuffixClass config;
     direction := direction config;
     accordionPrefixId := accordionPrefixId config |}.

(** Three panels under [h2] headers; the second has an id of its own and
    is marked open. *)
Definition plain : World :=
  page [] [("id", "second"); ("data-accordion-open", "true")] [] "h2".

(** The first two panels are marked open. *)
Definition two_open : World :=
  page [("data-accordion-open", "true")] [("data-accordion-open", "true")] [] "h2".

(** The headers are buttons: the buttons selector finds them too. *)
Definition button_headers : World := page [] [] [] "button".

(** The third panel has no header. *)
Definition headless : World :=
  document
    [ el "html" [] [] ""; el "body" [] [] "";
      el "div" ["js-accordion"] [("id", "acc")] "";
      panel []; header "h2" "One";
      panel []; header "h2" "Two";
      panel []; el "p" [] [] "Three";
      defaultButton ]
    outline.

(** The accordion on a page: the object and the page that construction
    leaves. *)
Definition built (o : AriaAccordionOptions) (w : World) : World :=
  fst (constructor 2%nat o "k3v9" w).

Definition accordion (o : AriaAccordionOptions) (bs : list nid) : AriaAccordion :=
  {| options := o; root := 2%nat; panels := [3; 5; 7]%nat; buttons := bs |}.

Definition key (t : nid) (code : Z) : Event :=
  {| target := t; keyCode := code; ctrlKey := false; shiftKey := false;
     altKey := false; metaKey := false |}.

Definition shift (e : Event) : Event :=
  {| target := target e; keyCode := keyCode e; ctrlKey := ctrlKey e;
     shiftKey := true; altKey := altKey e; metaKey := metaKey e |}.

Definition ctrl (e : Event) : Event :=
  {| target := target e; keyCode := keyCode e; ctrlKey := true;
     shiftKey := shiftKey e; altKey := altKey e; metaKey := metaKey e |}.

(** Focus on the second toggle, arrow down, a click on the third toggle,
    arrow down again, a key in the body. *)
Definition session : list Interaction :=
  [ Focus 11%nat; Keydown (key 11%nat keyDown); Click 12%nat;
    Keydown (key 12%nat keyDown); Keydown (key 1%nat keyEnd) ].

End Sample.


(** * The accordion from construction on *)

Lemma constructor_pair container opts readableIndex w0 w1 this :
  fst (constructor container opts readableIndex w0) = w1 →
  snd (constructor container opts readableIndex w0) = Normal this →
  constructor container opts readableIndex w0 = (w1, Normal this).
Proof. destruct (constructor _ _ _ _). simpl. congruence. Qed.

(** After construction on a page without listeners, under a buttons
    selector for button elements, the page is wired and the toggles are
    tracked. *)
Lemma constructed container opts readableIndex w0 w1 this :
  fst (constructor container opts readableIndex w0) = w1 →
  snd (constructor container opts readableIndex w0) = Normal this →
  well_formed w0 container opts = true →
  options this = opts ∧ initial this readableIndex w0 w1
  ∧ (listeners w0 = [] → wired this w1 = true)
  ∧ (sel_tag (buttonsSelector opts) = Some "button" → tracked this w1 = true).
Proof.
  intros H1 H2 Hwf.
  destruct (constructor_initial _ _ _ _ _ _ Hwf (constructor_pair _ _ _ _ _ _ H1 H2))
    as (Ho & _ & _ & Hinit).
  split; [done|]. split; [done|]. split.
  - by apply (initial_wired _ readableIndex w0).
  - intros Htag. apply (initial_tracked _ readableIndex w0); [done|]. by rewrite Ho.
Qed.


(** C5 (amended). After construction, no handler throws on a sequence of
    events that are aimed at the tracked toggles and do not pass through a
    panel, when the ids that the toggles control resolve to their panels:
    the list of reported errors stays as it was. *)
Theorem aimed_events_raise_nothing container opts readableIndex w0 w1 this trace :
  fst (constructor container opts readableIndex w0) = w1 →
  snd (constructor container opts readableIndex w0) = Normal this →
  well_formed w0 container opts = true →
  listeners w0 = [] →
  sel_tag (buttonsSelector opts) = Some "button" →
  paired this w1 = true →
  forallb (λ i, well_aimed this w1 i && outside_panels w1 i) trace = true →
  errors (foldl (interact this) w1 trace) = errors w1.
Proof.
  intros H1 H2 Hwf Hl Htag Hpaired Haimed.
  destruct (constructed _ _ _ _ _ _ H1 H2 Hwf) as (Ho & Hinit & Hwired & Htracked).
  apply trace_no_error; auto.
Qed.

(** C6 (amended). The panel of ordinal [j] receives the id made of its own
    id, or of the id of the container when it has none or an empty one,
    followed by ["-"] and [j]: the ordinal is appended in both cases. The
    toggle cloned for it receives that id followed by the button suffix;
    the toggle controls the id of the panel and the panel is labelled by
    the id of the toggle. *)
Theorem assigned_ids container opts readableIndex w0 w1 this j p :
  fst (constructor container opts readableIndex w0) = w1 →
  snd (constructor container opts readableIndex w0) = Normal this →
  well_formed w0 container opts = true →
  panels this !! j = Some p →
  let panelId :=
    (if decide (id_of w0 p = "") then root_id this readableIndex w0 else id_of w0 p)
      +:+ "-" +:+ pretty j in
  attr w1 p "id" = Some panelId
  ∧ attr w1 (toggle_of w0 j) "id" = Some (panelId +:+ buttonSuffixId opts)
  ∧ attr w1 (toggle_of w0 j) "aria-controls" = Some panelId
  ∧ attr w1 p "aria-labelledby" = Some (panelId +:+ buttonSuffixId opts).
Proof.
  intros H1 H2 Hwf Hj.
  destruct (constructed _ _ _ _ _ _ H1 H2 Hwf) as (Ho & Hinit & _).
  cbv zeta. fold (assigned_id this readableIndex w0 p j). rewrite <- Ho.
  split_and!.
  - by apply (i_panel_id _ _ _ _ Hinit).
  - by apply (i_toggle_id _ _ _ _ Hinit).
  - by apply (i_controls _ _ _ _ Hinit).
  - by apply (i_labelledby _ _ _ _ Hinit).
Qed.

(** * The theorems at work on the sample pages *)



Lemma aimed_events_raise_nothing_witness :
  errors (foldl (interact (Sample.accordion Sample.config [10; 11; 12]%nat))
            (Sample.built Sample.config Sample.plain) Sample.session)
  = errors (Sample.built Sample.config Sample.plain).
Proof.
  apply (aimed_events_raise_nothing 2%nat Sample.config "k3v9" Sample.plain).
  - reflexivity.
  - vm_compute. reflexivity.
  - vm_compute. reflexivity.
  - reflexivity.
  - reflexivity.
  - vm_compute. reflexivity.
  - vm_compute. reflexivity.
Defined.

(** The headers are buttons that the buttons selector finds: construction
    returns, and a click on the first header makes the click handler
    throw. *)
Lemma click_on_a_header_button_throws :
  snd (constructor 2%nat Sample.config "k3v9" Sample.button_headers)
  = Normal (Sample.accordion Sample.config [10; 4; 11; 6; 12; 8]%nat)
  ∧ errors (Sample.built Sample.config Sample.button_headers) = []
  ∧ errors (interact (Sample.accordion Sample.config [10; 4; 11; 6; 12; 8]%nat)
              (Sample.built Sample.config Sample.button_headers) (Click 4%nat))
    = [TypeError].
Proof. split_and!; vm_compute; reflexivity. Qed.

Lemma assigned_ids_witness :
  attr (Sample.built Sample.config Sample.plain) 5%nat "id" = Some "second-1"
  ∧ attr (Sample.built Sample.config Sample.plain) 11%nat "id" = Some "second-1_tab"
  ∧ attr (Sample.built Sample.config Sample.plain) 11%nat "aria-controls"
    = Some "second-1"
  ∧ attr (Sample.built Sample.config Sample.plain) 5%nat "aria-labelledby"
    = Some "second-1_tab".
Proof.
  apply (assigned_ids 2%nat Sample.config "k3v9" Sample.plain
           (Sample.built Sample.config Sample.plain)
           (Sample.accordion Sample.config [10; 11; 12]%nat) 1%nat 5%nat).
  - reflexivity.
  - vm_compute. reflexivity.
  - vm_compute. reflexivity.
  - reflexivity.
Defined.

(** The second panel has the id ["second"] before construction and another
    one after it. *)
Lemma own_id_gets_the_ordinal :
  snd (constructor 2%nat Sample.config "k3v9" Sample.plain)
  = Normal (Sample.accordion Sample.config [10; 11; 12]%nat)
  ∧ attr Sample.plain 5%nat "id" = Some "second"
  ∧ attr (Sample.built Sample.config Sample.plain) 5%nat "id" = Some "second-1".
Proof. split_and!; vm_compute; reflexivity. Qed.

(** The third panel has no header: construction throws a [TypeError]. *)
Lemma missing_header_is_a_TypeError :
  querySelectorAll_in Sample.headless 7%nat (headersSelector Sample.config) = []
  ∧ snd (constructor 2%nat Sample.config "k3v9" Sample.headless) = Throw TypeError
  ∧ error_name TypeError ≠ "MissingHeaderError".
Proof. split_and!; [vm_compute; reflexivity..|discriminate]. Qed.


Lemma only_ctrl_holds_back_witness :
  keydownButtonEventHandler (Sample.accordion Sample.config [10; 11; 12]%nat)
    (Sample.shift (Sample.ctrl (Sample.key 10%nat keyDown)))
    (Sample.built Sample.config Sample.plain)
  = keydownButtonEventHandler (Sample.accordion Sample.config [10; 11; 12]%nat)
      (Sample.ctrl (Sample.key 10%nat keyDown))
      (Sample.built Sample.config Sample.plain)
  ∧ (ctrlKey (Sample.ctrl (Sample.key 10%nat keyDown)) = true →
     keydownButtonEventHandler (Sample.accordion Sample.config [10; 11; 12]%nat)
       (Sample.ctrl (Sample.key 10%nat keyDown))
       (Sample.built Sample.config Sample.plain)
     = (Sample.built Sample.config Sample.plain, Normal ())).
Proof.
  apply (only_ctrl_holds_back (Sample.accordion Sample.config [10; 11; 12]%nat)
           (Sample.ctrl (Sample.key 10%nat keyDown))
           (Sample.shift (Sample.ctrl (Sample.key 10%nat keyDown)))).
  - reflexivity.
  - reflexivity.
  - reflexivity.
Defined.

(** Shift with arrow down on the first toggle: the handler suppresses the
    default action and schedules a focus transfer, and the second toggle
    is the reachable and selected one afterwards. *)
Lemma shift_does_not_hold_back :
  shiftKey (Sample.shift (Sample.key 10%nat keyDown)) = true
  ∧ (let w := fst (keydownButtonEventHandler
                     (Sample.accordion Sample.config [10; 11; 12]%nat)
                     (Sample.shift (Sample.key 10%nat keyDown))
                     (Sample.built Sample.config Sample.plain)) in
     defaultPrevented w = true ∧ timers w = [11%nat])
  ∧ (let w := Sample.built Sample.config Sample.plain in
     reachable w 10%nat = true ∧ reachable w 11%nat = false
     ∧ selected w 11%nat = false)
  ∧ (let w := interact (Sample.accordion Sample.config [10; 11; 12]%nat)
                (Sample.built Sample.config Sample.plain)
                (Keydown (Sample.shift (Sample.key 10%nat keyDown))) in
     reachable w 10%nat = false ∧ reachable w 11%nat = true
     ∧ selected w 11%nat = true ∧ activeElement w = Some 11%nat).
Proof. cbv zeta. split_and!; vm_compute; reflexivity. Qed.

Lemma keydown_keeps_panels_witness :
  attr (interact (Sample.accordion Sample.config [10; 11; 12]%nat)
          (Sample.built Sample.config Sample.plain)
          (Keydown (Sample.key 10%nat keyDown))) 5%nat "aria-hidden"
  = attr (Sample.built Sample.config Sample.plain) 5%nat "aria-hidden"
  ∧ attr (interact (Sample.accordion Sample.config [10; 11; 12]%nat)
            (Sample.built Sample.config Sample.plain)
            (Keydown (Sample.key 10%nat keyDown))) 5%nat "aria-expanded"
    = attr (Sample.built Sample.config Sample.plain) 5%nat "aria-expanded".
Proof.
  apply (keydown_keeps_panels (Sample.accordion Sample.config [10; 11; 12]%nat)).
  vm_compute. reflexivity.
Defined.

(** * More of the keyboard *)

(** A directional key on a tracked toggle leaves the ring on the target
    that the handler computes. *)
Lemma keydown_focus_on this w event t :
  wired this w = true → tracked this w = true → timers w = [] →
  target event ∈ buttons this →
  keyCode event ∈ allKeyCode (keys_of this) → ctrlKey event = false →
  newTarget this event (Elem (target event)) = Elem t →
  focus_on this t (interact this w (Keydown event)).
Proof.
  intros Hwired Htracked Htimers Htarget Hkey Hctrl Hnew.
  destruct (keydown_moves_ring this w event) as (t' & Ht & Htin & Hr & Hw);
    [done|done|done|done| |].
  { unfold directional. by rewrite bool_decide_true, Hctrl. }
  rewrite Hnew in Ht. injection Ht as <-.
  apply ring_at_focus_on; [|done].
  rewrite (w_tag _ _ _ Hw). by apply (tracked_tag this).
Qed.

(** Home and End on any tracked toggle lead to the first and to the last
    toggle. *)
Theorem home_end_navigation this w event b0 bn :
  wired this w = true → tracked this w = true → timers w = [] →
  head (buttons this) = Some b0 → last (buttons this) = Some bn →
  target event ∈ buttons this → ctrlKey event = false →
  (keyCode event = keyHome → focus_on this b0 (interact this w (Keydown event)))
  ∧ (keyCode event = keyEnd → focus_on this bn (interact this w (Keydown event))).
Proof.
  intros Hwired Htracked Htimers H0 Hn Htarget Hctrl.
  split; intros Hkey; apply keydown_focus_on; try done.
  - rewrite Hkey, <- (keys_of_first this). unfold allKeyCode. set_solver.
  - unfold newTarget. rewrite decide_True by done. by apply firstButton_head.
  - rewrite Hkey, <- (keys_of_last this). unfold allKeyCode. set_solver.
  - unfold newTarget. rewrite decide_False, decide_True by (by rewrite ?Hkey).
    by apply lastButton_last.
Qed.

Lemma indexOf_NoDup l (k : nat) n :
  NoDup l → l !! k = Some n → indexOf l (Elem n) = Z.of_nat k.
Proof.
  intros Hnd Hk.
  destruct (indexOf_elem l n) as (k' & -> & Hk'); [by eapply list_elem_of_lookup_2|].
  f_equal. by eapply NoDup_lookup.
Qed.

(** The targets of the arrow keys between two neighbours. *)
Lemma newTarget_neighbours this event (j : nat) b b' :
  NoDup (buttons this) →
  buttons this !! j = Some b → buttons this !! S j = Some b' →
  (keyCode event ∈ Keys.next (keys_of this) →
   newTarget this event (Elem b) = Elem b')
  ∧ (keyCode event ∈ Keys.prev (keys_of this) →
     newTarget this event (Elem b') = Elem b).
Proof.
  intros Hnd Hb Hb'.
  assert (is_Some (head (buttons this))) as [b0 H0].
  { rewrite head_lookup. apply lookup_lt_is_Some. apply lookup_lt_Some in Hb. lia. }
  assert (is_Some (last (buttons this))) as [bn Hn].
  { rewrite last_lookup. apply lookup_lt_is_Some. apply lookup_lt_Some in Hb. lia. }
  assert (b ≠ bn) as Hbn.
  { intros ->. rewrite last_lookup in Hn.
    pose proof (NoDup_lookup _ _ _ _ Hnd Hb Hn) as E.
    apply lookup_lt_Some in Hb'. lia. }
  assert (b' ≠ b0) as Hb0.
  { intros ->. rewrite head_lookup in H0.
    by pose proof (NoDup_lookup _ _ _ _ Hnd Hb' H0). }
  split; intros Hk; unfold newTarget;
    rewrite (firstButton_head _ _ H0), (lastButton_last _ _ Hn).
  - destruct (next_key _ _ Hk) as (? & ? & ? & _).
    rewrite !decide_False by done.
    rewrite bool_decide_false, bool_decide_true by done.
    rewrite decide_False by congruence.
    rewrite (indexOf_NoDup _ j) by done.
    replace (Z.of_nat j + 1) with (Z.of_nat (S j)) by lia.
    by apply at_index_lookup.
  - destruct (prev_key _ _ Hk) as (? & ? & _).
    rewrite !decide_False by done.
    rewrite bool_decide_true by done.
    rewrite decide_False by congruence.
    rewrite (indexOf_NoDup _ (S j)) by done.
    replace (Z.of_nat (S j) - 1) with (Z.of_nat j) by lia.
    by apply at_index_lookup.
Qed.

(** Between the ends, a 'next' key leads from a toggle to the toggle after
    it and a 'prev' key leads back. *)
Theorem neighbour_navigation this w event (j : nat) b b' :
  wired this w = true → tracked this w = true → timers w = [] →
  NoDup (buttons this) →
  buttons this !! j = Some b → buttons this !! S j = Some b' →
  ctrlKey event = false →
  (target event = b → keyCode event ∈ Keys.next (keys_of this) →
   focus_on this b' (interact this w (Keydown event)))
  ∧ (target event = b' → keyCode event ∈ Keys.prev (keys_of this) →
     focus_on this b (interact this w (Keydown event))).
Proof.
  intros Hwired Htracked Htimers Hnd Hb Hb' Hctrl.
  destruct (newTarget_neighbours this event j b b') as [Hnext Hprev]; [done..|].
  split; intros Htarget Hkey; apply keydown_focus_on; try done.
  - rewrite Htarget. by eapply list_elem_of_lookup_2.
  - by destruct (next_key _ _ Hkey) as (_ & _ & _ & ?).
  - rewrite Htarget. by apply Hnext.
  - rewrite Htarget. by eapply list_elem_of_lookup_2.
  - by destruct (prev_key _ _ Hkey) as (_ & _ & ?).
  - rewrite Htarget. by apply Hprev.
Qed.

(** Every direction other than ["ltr"] is handled as right to left: the
    left arrow leads to the toggle after the current one and the right
    arrow leads back, while the up and down arrows keep their meaning. *)
Theorem other_directions_swap_left_and_right this w event (j : nat) b b' :
  wired this w = true → tracked this w = true → timers w = [] →
  NoDup (buttons this) →
  buttons this !! j = Some b → buttons this !! S j = Some b' →
  ctrlKey event = false →
  direction (options this) ≠ "ltr" →
  (target event = b → keyCode event ∈ [keyLeft; keyDown] →
   focus_on this b' (interact this w (Keydown event)))
  ∧ (target event = b' → keyCode event ∈ [keyRight; keyUp] →
     focus_on this b (interact this w (Keydown event))).
Proof.
  intros Hwired Htracked Htimers Hnd Hb Hb' Hctrl Hdir.
  assert (keys_of this = rtlKeys) as Hkeys by (unfold keys_of; by rewrite decide_False).
  assert (∀ k, k ∈ [keyLeft; keyDown] → k ∈ Keys.next (keys_of this)) as Hn.
  { rewrite Hkeys. simpl. set_solver. }
  assert (∀ k, k ∈ [keyRight; keyUp] → k ∈ Keys.prev (keys_of this)) as Hp.
  { rewrite Hkeys. simpl. set_solver. }
  destruct (newTarget_neighbours this event j b b') as [Hnext Hprev]; [done..|].
  split; intros Htarget Hkey; apply keydown_focus_on; try done.
  - rewrite Htarget. by eapply list_elem_of_lookup_2.
  - by destruct (next_key _ _ (Hn _ Hkey)) as (_ & _ & _ & ?).
  - rewrite Htarget. by apply Hnext, Hn.
  - rewrite Htarget. by eapply list_elem_of_lookup_2.
  - by destruct (prev_key _ _ (Hp _ Hkey)) as (_ & _ & ?).
  - rewrite Htarget. by apply Hprev, Hp.
Qed.

(** * More of the handlers *)

(** The handler of focus puts the ring on the toggle that received the
    focus and moves no focus itself: nothing is scheduled and the active
    element stays. *)
Theorem focus_marks_without_moving this event w :
  tracked this w = true → target event ∈ buttons this →
  ∃ w', focusButtonEventHandler this event w = (w', Normal ())
        ∧ focus_on this (target event) w'
        ∧ timers w' = timers w ∧ activeElement w' = activeElement w
        ∧ ∀ n k, k ∉ focus_ring → attr w' n k = attr w n k.
Proof.
  intros Htracked Htarget.
  pose proof (focusButtonEventHandler_modifies this event w) as Hw.
  rewrite focusButtonEventHandler_run in *. cbv zeta in *.
  rewrite (tracked_resolve this) in * by done.
  rewrite (tracked_query this) in * by done. simpl in Hw.
  eexists. split; [done|].
  destruct (same_bookkeeping_reset (buttons this) w) as (Ht & Ha & _).
  split_and!; [|done|done|apply (w_attr _ _ _ Hw)].
  apply ring_at_focus_on; [|apply ring_at_mark].
  rewrite (w_tag _ _ _ Hw). by apply (tracked_tag this).
Qed.

(** What a click leaves in the attributes of state. *)
Lemma attr_after_click this event w b p n k :
  resolve w (target event) = Elem b →
  getElementById_in w (DOMString (attr w b "aria-controls")) = Elem p →
  k ≠ "aria-selected" →
  attr (fst (clickButtonEventHandler this event w)) n k
  = attr (collapse_others this b p (toggled b p w)) n k.
Proof.
  intros Hb Hp Hk. rewrite (clickButtonEventHandler_run this event w b p) by done.
  by apply attr_clicked.
Qed.

(** A click opens the panel when the [aria-expanded] of the toggle is
    ["false"] and closes it in every other case, whatever the panel was;
    the toggle's own attribute follows. *)
Theorem click_flips_the_pair this event w b p :
  resolve w (target event) = Elem b →
  getElementById_in w (DOMString (attr w b "aria-controls")) = Elem p →
  snd (clickButtonEventHandler this event w) = Normal ()
  ∧ visible (fst (clickButtonEventHandler this event w)) p = bool_decide (closed w b)
  ∧ expanded (fst (clickButtonEventHandler this event w)) b
    = bool_decide (closed w b).
Proof.
  intros Hb Hp. split.
  { by rewrite (clickButtonEventHandler_run this event w b p). }
  unfold visible, hidden, expanded.
  rewrite !(attr_after_click this event w b p) by done.
  rewrite !attr_collapse_others, !attr_toggled. keys.
  rewrite !(decide_False (P := _ ∧ _ ≠ _)) by (by intros [_ ?]).
  rewrite (decide_True (P := p = p)), (decide_True (P := b = b)) by done.
  destruct (decide (closed w b));
    [rewrite (bool_decide_true (closed w b)) by done
    |rewrite (bool_decide_false (closed w b)) by done];
    by destruct (decide (multiselectable (options this) = false)).
Qed.

(** With several panels allowed, a click leaves every other panel and
    every other toggle as they are. *)
Theorem click_leaves_the_others this event w b p n :
  resolve w (target event) = Elem b →
  getElementById_in w (DOMString (attr w b "aria-controls")) = Elem p →
  multiselectable (options this) = true →
  (n ≠ p → visible (fst (clickButtonEventHandler this event w)) n = visible w n)
  ∧ (n ≠ b → expanded (fst (clickButtonEventHandler this event w)) n = expanded w n).
Proof.
  intros Hb Hp Hm. unfold visible, hidden, expanded.
  rewrite !(attr_after_click this event w b p) by done.
  rewrite !attr_collapse_others, !attr_toggled. keys.
  split; intros Hn;
    rewrite ?(decide_False (P := multiselectable (options this) = false))
      by (by rewrite Hm);
    by rewrite (decide_False (P := n = _)) by done.
Qed.

(** With one panel allowed, a click hides every other panel of the
    accordion and takes [aria-expanded] from every other tracked toggle,
    also when the click closes its own panel. *)
Theorem click_collapses_the_others this event w b p :
  resolve w (target event) = Elem b →
  getElementById_in w (DOMString (attr w b "aria-controls")) = Elem p →
  multiselectable (options this) = false →
  (∀ p', p' ∈ panels this → p' ≠ p →
         visible (fst (clickButtonEventHandler this event w)) p' = false)
  ∧ (∀ b', b' ∈ buttons this → b' ≠ b →
           expanded (fst (clickButtonEventHandler this event w)) b' = false).
Proof.
  intros Hb Hp Hm. unfold visible, hidden, expanded.
  split; intros n Hn Hne;
    rewrite !(attr_after_click this event w b p) by done;
    rewrite !attr_collapse_others; keys;
    rewrite (decide_True (P := multiselectable (options this) = false)) by done.
  - by rewrite decide_True.
  - by rewrite decide_True.
Qed.

(** A click selects its toggle and no other tracked toggle, stops the
    event, suppresses the default action and schedules the focus for
    later: the active element is still the one it was. *)
Theorem click_selects_and_defers this event w b p :
  resolve w (target event) = Elem b →
  getElementById_in w (DOMString (attr w b "aria-controls")) = Elem p →
  let w' := fst (clickButtonEventHandler this event w) in
  selected w' b = true
  ∧ (∀ b', b' ∈ buttons this → b' ≠ b → selected w' b' = false)
  ∧ propagationStopped w' = true ∧ defaultPrevented w' = true
  ∧ timers w' = timers w ++ [b] ∧ activeElement w' = activeElement w.
Proof.
  intros Hb Hp. cbv zeta.
  rewrite (clickButtonEventHandler_run this event w b p) by done. simpl fst.
  assert (∀ n, attr (clicked this b p w) n "aria-selected"
               = if decide (n = b) then Some "true"
                 else if decide (n ∈ buttons this) then Some "false"
                      else attr w n "aria-selected") as Hsel.
  { intros n. unfold clicked. cbv zeta.
    rewrite attr_prevented, attr_stopped, attr_with_timers.
    rewrite attr_collapse_others, attr_toggled. keys.
    rewrite attr_update_set. unfold unselect_all. rewrite attr_set_where. keys.
    destruct (decide (multiselectable (options this) = false));
      destruct (decide (n = b)); try done;
      apply decide_ext; naive_solver. }
  unfold selected. split_and!.
  - by rewrite Hsel, decide_True.
  - intros b' Hb' Hne. by rewrite Hsel, decide_False, decide_True.
  - done.
  - done.
  - unfold clicked. cbv zeta. simpl timers. f_equal.
    unfold collapse_others, toggled, unselect_all.
    repeat case_decide;
      repeat first
        [ progress change (timers (update ?n ?f ?x)) with (timers x)
        | match goal with
          | |- context [timers (foldl (set_where ?P ?k ?v) ?x ?l)] =>
              destruct (same_bookkeeping_set_where P k v l x) as (-> & _)
          end ]; done.
  - unfold clicked. cbv zeta. simpl activeElement.
    unfold collapse_others, toggled, unselect_all.
    repeat case_decide;
      repeat first
        [ progress change (activeElement (update ?n ?f ?x)) with (activeElement x)
        | match goal with
          | |- context [activeElement (foldl (set_where ?P ?k ?v) ?x ?l)] =>
              destruct (same_bookkeeping_set_where P k v l x) as (_ & -> & _)
          end ]; done.
Qed.

(** * The closest ancestor *)

(** The search of [closest] along a chain of nodes: the nodes passed over
    neither match nor are the html element. *)
Definition passed_over (w : World) (s : Selector) (l : list nid) : Prop :=
  Forall (λ x, matches (elems w x) s = false
               ∧ isHTMLHtmlElement (elems w x) = false) l.

Lemma closest_in_Elem w chain s a :
  closest_in w chain s = Elem a →
  ∃ l1 l2, chain = l1 ++ a :: l2 ∧ passed_over w s l1
           ∧ matches (elems w a) s = true.
Proof.
  induction chain as [|e up IH]; simpl; [done|].
  destruct (matches (elems w e) s) eqn:Hm.
  - intros [= <-]. exists [], up. split; [done|]; split; [apply Forall_nil_2|done].
  - destruct (isHTMLHtmlElement (elems w e)) eqn:Hh; [done|].
    intros (l1 & l2 & -> & Hl1 & Ha)%IH.
    exists (e :: l1), l2. split; [done|]; split; [by apply Forall_cons_2|done].
Qed.

Lemma closest_in_Null w chain s :
  closest_in w chain s = Null →
  ∃ l1 l2, chain = l1 ++ l2 ∧ passed_over w s l1
           ∧ match l2 with
             | [] => True
             | h :: _ => matches (elems w h) s = false
                         ∧ isHTMLHtmlElement (elems w h) = true
             end.
Proof.
  induction chain as [|e up IH]; simpl.
  - intros _. exists [], []. split; [done|]; split; [apply Forall_nil_2|done].
  - destruct (matches (elems w e) s) eqn:Hm; [done|].
    destruct (isHTMLHtmlElement (elems w e)) eqn:Hh.
    + intros _. exists [], (e :: up). split; [done|]; split; [apply Forall_nil_2|done].
    + intros (l1 & l2 & -> & Hl1 & Ha)%IH.
      exists (e :: l1), l2. split; [done|]; split; [by apply Forall_cons_2|done].
Qed.

Lemma closest_in_defined w chain s : closest_in w chain s ≠ Undefined.
Proof.
  induction chain as [|e up IH]; simpl; [done|].
  by repeat case_match.
Qed.

(** * More of construction *)

(** Construction on a page without listeners registers the three handlers
    of toggles on each element that the buttons selector finds, in their
    order, then the handler of panels on each element that the panels
    selector finds; the toggles that the object tracks are the ones that
    carry the handlers. *)
Theorem construction_wires container opts readableIndex w0 w1 this :
  fst (constructor container opts readableIndex w0) = w1 →
  snd (constructor container opts readableIndex w0) = Normal this →
  well_formed w0 container opts = true →
  listeners w0 = [] →
  buttons this = querySelectorAll_in w1 container (buttonsSelector opts)
  ∧ listeners w1
    = flat_map listeners_of (buttons this)
      ++ map panel_listener (querySelectorAll_in w1 container (panelsSelector opts))
  ∧ wired this w1 = true.
Proof.
  intros H1 H2 Hwf Hl.
  destruct (constructor_initial _ _ _ _ _ _ Hwf (constructor_pair _ _ _ _ _ _ H1 H2))
    as (Ho & Hr & _ & Hinit).
  split_and!.
  - rewrite <- Ho, <- Hr. apply (i_buttons _ _ _ _ Hinit).
  - rewrite (i_listeners _ _ _ _ Hinit), Hl, Ho, Hr. done.
  - by apply (initial_wired _ readableIndex w0).
Qed.

(** What the loop over the panels leaves alone among the elements of the
    page: all but the panels, the clones and the [tabindex] of headers. *)
Lemma constructor_frame container opts readableIndex w0 w1 this x k :
  constructor container opts readableIndex w0 = (w1, Normal this) →
  well_formed w0 container opts = true →
  (x < fresh w0)%nat → x ∉ panels this → k ≠ "tabindex" →
  attr w1 x k = attr (rooted this readableIndex w0) x k.
Proof.
  intros Hc Hwf Hx Hxp Hk.
  destruct (constructor_Normal container opts readableIndex w0 this)
    as (wa & Eo & Er & Ep & Eb & T0 & Hloop & Ew).
  { by rewrite Hc. }
  rewrite Hc in Ew. simpl in Ew. subst w1.
  assert (fit (fresh w0) this (rooted this readableIndex w0) (panels this)) as Hfit.
  { apply well_formed_fit; by rewrite ?Eo, ?Er. }
  destruct (loop_frame _ _ _ _ _ _ Hfit Hloop) as (_ & _ & _ & Hframe).
  destruct (rooted_static this readableIndex w0) as (_ & Ef & _).
  change (attr (listening ?l wa) x k) with (attr wa x k).
  apply Hframe; [by rewrite Ef|done|by left].
Qed.

(** The container after construction: its role, the flag for several open
    panels as ["true"] or ["false"], and an id, which is the one it had
    or, when it had none, the prefix of the configuration followed by
    ["-"] and the random part. *)
Theorem container_decorated container opts readableIndex w0 w1 this :
  fst (constructor container opts readableIndex w0) = w1 →
  snd (constructor container opts readableIndex w0) = Normal this →
  well_formed w0 container opts = true →
  attr w1 container "role" = Some "tablist"
  ∧ attr w1 container "aria-multiselectable"
    = Some (if multiselectable opts then "true" else "false")
  ∧ attr w1 container "id"
    = Some (match attr w0 container "id" with
            | Some i => i
            | None => accordionPrefixId opts +:+ "-" +:+ readableIndex
            end).
Proof.
  intros H1 H2 Hwf.
  pose proof (constructor_pair _ _ _ _ _ _ H1 H2) as Hc.
  destruct (constructor_initial _ _ _ _ _ _ Hwf Hc) as (Ho & Hr & Hp & Hinit).
  assert (container < fresh w0)%nat as Hold.
  { unfold well_formed in Hwf.
    apply andb_prop in Hwf as [[[_ Hb]%andb_prop Hin]%andb_prop _].
    apply bool_decide_eq_true in Hin. rewrite forallb_forall in Hb.
    apply list_elem_of_In, Hb in Hin. by apply bool_decide_eq_true in Hin. }
  assert (container ∉ panels this) as Hnp.
  { rewrite Hp. unfold querySelectorAll_in. intros [_ Hin]%list_elem_of_filter.
    unfold well_formed in Hwf.
    apply andb_prop in Hwf as [[[Hnd _]%andb_prop _]%andb_prop _].
    apply bool_decide_eq_true in Hnd.
    by apply (descendants_NoDup (tree w0) container). }
  rewrite !(constructor_frame _ _ _ _ _ _ _ _ Hc) by done.
  subst opts container. split_and!.
  - unfold rooted. cbv zeta. case_match;
      rewrite ?attr_update_set, ?attr_update_class, ?attr_update_set; keys;
      by rewrite ?decide_True by done.
  - unfold rooted. cbv zeta. case_match;
      rewrite ?attr_update_set, ?attr_update_class, ?attr_update_set; keys;
      by rewrite ?decide_True by done.
  - pose proof (id_of_rooted this readableIndex w0) as Hid.
    unfold id_of, root_id in Hid.
    unfold rooted in *. cbv zeta in *.
    destruct (attr w0 (root this) "id") as [i|] eqn:E.
    + rewrite bool_decide_true by done.
      rewrite attr_update_class, !attr_update_set. keys. done.
    + rewrite bool_decide_false by (by intros [? ?]).
      rewrite attr_update_set. by rewrite decide_True.
Qed.

Lemma finished_panel_role this b p i pid w :
  p ≠ b → attr (finished this b p i pid w) p "role" = Some "tabpanel".
Proof.
  intros Hpb. unfold finished, first_focusable, open_by_default. cbv zeta.
  repeat match goal with
         | |- context [if decide ?P then update _ _ _ else _] => destruct (decide P)
         end;
    unfold dress_panel, dress_toggle; cbv zeta;
    rewrite ?attr_update_del, ?attr_update_set, ?attr_update_class,
      ?attr_update_set, ?attr_update_class, ?attr_update_set;
    keys; rewrite ?(decide_False (P := p = b)) by done;
    by rewrite ?(decide_True (P := p = p)) by done.
Qed.

(** The roles and the selection that the loop leaves on each pair. *)
Lemma loop_roles N this ps i w w' :
  fit N this w ps →
  forEach_from i ps (decoratePanel this) w = (w', Normal ()) →
  ∀ j p, ps !! j = Some p →
    attr w' p "role" = Some "tabpanel"
    ∧ attr w' (fresh w + j)%nat "role" = Some "tab"
    ∧ attr w' (fresh w + j)%nat "aria-selected" = Some "false".
Proof.
  revert i w. induction ps as [|p ps IH]; intros i w Hfit Hloop j q Hj; [done|].
  destruct (loop_turn _ _ _ _ _ _ _ Hfit Hloop) as (h & t & Hh & Ht & Hfit1 & Hloop1).
  destruct (loop_frame _ _ _ _ _ _ Hfit1 Hloop1) as (_ & _ & _ & Hframe).
  pose proof (fit_fresh _ _ _ _ Hfit) as HN.
  pose proof (fit_NoDup _ _ _ _ Hfit) as [Hpps Hnd]%NoDup_cons.
  assert ((p < N)%nat) as HpN.
  { by destruct (fit_panel _ _ _ _ Hfit p) as (? & _); [set_solver|]. }
  assert (∀ x, x ∈ ps → (x < N)%nat) as Hps.
  { intros x Hx. destruct (fit_panel _ _ _ _ Hfit x) as (? & _); [set_solver|done]. }
  rewrite decorated_fresh in Hframe.
  destruct j as [|j]; simpl in Hj.
  - injection Hj as <-. rewrite !Nat.add_0_r.
    assert (fresh w ∉ ps) as Hbps by (intros ?%Hps; lia).
    split_and!.
    + rewrite Hframe; [|lia|done|by left]. unfold decorated.
      apply finished_panel_role. lia.
    + rewrite Hframe; [|lia|done|by left]. apply decorated_toggle_role. lia.
    + rewrite Hframe; [|lia|done|by left]. apply decorated_toggle_selected. lia.
  - destruct (IH _ _ Hfit1 Hloop1 j q Hj) as (D1 & D2 & D3).
    rewrite decorated_fresh in D2, D3.
    replace (fresh w + S j)%nat with (S (fresh w) + j)%nat by lia. done.
Qed.

(** Each panel and the toggle cloned for it after construction: the roles,
    a toggle that is not selected, a panel that is visible exactly when it
    carried the marker [data-accordion-open="true"], and a toggle that is
    expanded in the same case. *)
Theorem pairs_decorated container opts readableIndex w0 w1 this j p :
  fst (constructor container opts readableIndex w0) = w1 →
  snd (constructor container opts readableIndex w0) = Normal this →
  well_formed w0 container opts = true →
  panels this !! j = Some p →
  attr w1 p "role" = Some "tabpanel"
  ∧ attr w1 (toggle_of w0 j) "role" = Some "tab"
  ∧ selected w1 (toggle_of w0 j) = false
  ∧ visible w1 p = bool_decide (marked w0 p)
  ∧ expanded w1 (toggle_of w0 j) = bool_decide (marked w0 p)
  ∧ tagName (elems w1 (toggle_of w0 j)) = tagName (elems w0 (button opts)).
Proof.
  intros H1 H2 Hwf Hj.
  pose proof (constructor_pair _ _ _ _ _ _ H1 H2) as Hc.
  destruct (constructor_initial _ _ _ _ _ _ Hwf Hc) as (Ho & Hr & Hp & Hinit).
  destruct (constructor_Normal container opts readableIndex w0 this)
    as (wa & _ & _ & _ & _ & T0 & Hloop & Ew).
  { by rewrite Hc. }
  rewrite Hc in Ew. simpl in Ew.
  assert (fit (fresh w0) this (rooted this readableIndex w0) (panels this)) as Hfit.
  { apply well_formed_fit; by rewrite ?Ho, ?Hr. }
  destruct (loop_roles _ _ _ _ _ _ Hfit Hloop j p Hj) as (R1 & R2 & R3).
  destruct (rooted_static this readableIndex w0) as (_ & Ef & _).
  rewrite Ef in R2, R3.
  change (fresh w0 + j)%nat with (toggle_of w0 j) in R2, R3.
  assert (∀ x k, attr w1 x k = attr wa x k) as Hattr by (by rewrite Ew).
  unfold selected, visible, hidden, expanded.
  rewrite !Hattr, R1, R2, R3, <- !Hattr.
  rewrite (i_hidden _ _ _ _ Hinit p) by (by eapply list_elem_of_lookup_2).
  rewrite (i_expanded _ _ _ _ Hinit j p Hj).
  rewrite (i_tag _ _ _ _ Hinit j) by (by eapply lookup_lt_Some).
  rewrite Ho.
  destruct (decide (marked w0 p));
    [rewrite !(bool_decide_true (marked w0 p)) by done
    |rewrite !(bool_decide_false (marked w0 p)) by done]; done.
Qed.

Lemma classList_add_bad n c w :
  token_ok c = false →
  classList_add n c w
  = (w, Throw (if decide (c = "") then SyntaxError else InvalidCharacterError)).
Proof.
  unfold token_ok, classList_add. intros H.
  destruct (decide (c = "")); [done|].
  rewrite bool_decide_false in H by done. simpl in H.
  apply negb_false_iff in H. by rewrite H.
Qed.

(** A class prefix that is empty or holds white space makes construction
    throw before any panel is decorated: the container has its role by
    then and no toggle is cloned. *)
Theorem bad_class_prefix_aborts container opts readableIndex w0 :
  token_ok (prefixClass opts) = false →
  ∃ w' e, constructor container opts readableIndex w0 = (w', Throw e)
          ∧ e = (if decide (prefixClass opts = "") then SyntaxError
                 else InvalidCharacterError)
          ∧ attr w' container "role" = Some "tablist"
          ∧ fresh w' = fresh w0 ∧ tree w' = tree w0.
Proof.
  intros T0. unfold constructor.
  rewrite run_bind, run_querySelectorAll. cbv beta iota zeta.
  set (this := {| options := opts; root := container;
                  panels := querySelectorAll_in w0 container (panelsSelector opts);
                  buttons := [] |}).
  rewrite run_bind. unfold initAttributes. cbv zeta. mrun.
  rewrite (classList_add_bad (root this) (prefixClass (options this))) by done.
  cbv beta iota. eexists _, _. split; [done|]. split; [done|].
  split; [|done]. rewrite attr_update_set. keys.
  rewrite attr_update_set. by rewrite decide_True.
Qed.

(** * More of the sample pages *)

Module Sample2.

Definition toggles : list nid := [10; 11; 12]%nat.

Definition right_to_left : AriaAccordionOptions :=
  {| headersSelector := headersSelector Sample.config;
     panelsSelector := panelsSelector Sample.config;
     buttonsSelector := buttonsSelector Sample.config;
     buttonsGeneratedContent := buttonsGeneratedContent Sample.config;
     button := button Sample.config;
     buttonSuffixId := buttonSuffixId Sample.config;
     multiselectable := multiselectable Sample.config;
     prefixClass := prefixClass Sample.config;
     headerSuffixClass := headerSuffixClass Sample.config;
     buttonSuffixClass := buttonSuffixClass Sample.config;
     panelSuffixClass := panelSuffixClass Sample.config;
     direction := "rtl";
     accordionPrefixId := accordionPrefixId Sample.config |}.

Definition no_prefix : AriaAccordionOptions :=
  {| headersSelector := headersSelector Sample.config;
     panelsSelector := panelsSelector Sample.config;
     buttonsSelector := buttonsSelector Sample.config;
     buttonsGeneratedContent := buttonsGeneratedContent Sample.config;
     button := button Sample.config;
     buttonSuffixId := buttonSuffixId Sample.config;
     multiselectable := multiselectable Sample.config;
     prefixClass := "";
     headerSuffixClass := headerSuffixClass Sample.config;
     buttonSuffixClass := buttonSuffixClass Sample.config;
     panelSuffixClass := panelSuffixClass Sample.config;
     direction := direction Sample.config;
     accordionPrefixId := accordionPrefixId Sample.config |}.

(** The accordion of the plain page under a configuration, and the page
    it is on. *)
Definition acc (o : AriaAccordionOptions) : AriaAccordion := Sample.accordion o toggles.

Definition at_start (o : AriaAccordionOptions) : World := Sample.built o Sample.plain.

End Sample2.

Lemma home_end_navigation_witness :
  focus_on (Sample2.acc Sample.config) 10%nat
    (interact (Sample2.acc Sample.config) (Sample2.at_start Sample.config)
       (Keydown (Sample.key 12%nat keyHome)))
  ∧ focus_on (Sample2.acc Sample.config) 12%nat
      (interact (Sample2.acc Sample.config) (Sample2.at_start Sample.config)
         (Keydown (Sample.key 11%nat keyEnd))).
Proof.
  split.
  - apply (home_end_navigation (Sample2.acc Sample.config)
             (Sample2.at_start Sample.config) (Sample.key 12%nat keyHome)
             10%nat 12%nat);
      [vm_compute; reflexivity..|compute_done|reflexivity|reflexivity].
  - apply (home_end_navigation (Sample2.acc Sample.config)
             (Sample2.at_start Sample.config) (Sample.key 11%nat keyEnd)
             10%nat 12%nat);
      [vm_compute; reflexivity..|compute_done|reflexivity|reflexivity].
Defined.

Lemma neighbour_navigation_witness :
  focus_on (Sample2.acc Sample.config) 12%nat
    (interact (Sample2.acc Sample.config) (Sample2.at_start Sample.config)
       (Keydown (Sample.key 11%nat keyRight)))
  ∧ focus_on (Sample2.acc Sample.config) 11%nat
      (interact (Sample2.acc Sample.config) (Sample2.at_start Sample.config)
         (Keydown (Sample.key 12%nat keyUp))).
Proof.
  split.
  - apply (neighbour_navigation (Sample2.acc Sample.config)
             (Sample2.at_start Sample.config) (Sample.key 11%nat keyRight)
             1%nat 11%nat 12%nat);
      [vm_compute; reflexivity|vm_compute; reflexivity|reflexivity|compute_done
      |reflexivity..|compute_done].
  - apply (neighbour_navigation (Sample2.acc Sample.config)
             (Sample2.at_start Sample.config) (Sample.key 12%nat keyUp)
             1%nat 11%nat 12%nat);
      [vm_compute; reflexivity|vm_compute; reflexivity|reflexivity|compute_done
      |reflexivity..|compute_done].
Defined.

Lemma other_directions_swap_left_and_right_witness :
  focus_on (Sample2.acc Sample2.right_to_left) 11%nat
    (interact (Sample2.acc Sample2.right_to_left)
       (Sample2.at_start Sample2.right_to_left)
       (Keydown (Sample.key 10%nat keyLeft)))
  ∧ focus_on (Sample2.acc Sample2.right_to_left) 10%nat
      (interact (Sample2.acc Sample2.right_to_left)
         (Sample2.at_start Sample2.right_to_left)
         (Keydown (Sample.key 11%nat keyRight))).
Proof.
  split.
  - apply (other_directions_swap_left_and_right (Sample2.acc Sample2.right_to_left)
             (Sample2.at_start Sample2.right_to_left) (Sample.key 10%nat keyLeft)
             0%nat 10%nat 11%nat);
      [vm_compute; reflexivity|vm_compute; reflexivity|reflexivity|compute_done
      |reflexivity|reflexivity|reflexivity|compute_done|reflexivity|compute_done].
  - apply (other_directions_swap_left_and_right (Sample2.acc Sample2.right_to_left)
             (Sample2.at_start Sample2.right_to_left) (Sample.key 11%nat keyRight)
             0%nat 10%nat 11%nat);
      [vm_compute; reflexivity|vm_compute; reflexivity|reflexivity|compute_done
      |reflexivity|reflexivity|reflexivity|compute_done|reflexivity|compute_done].
Defined.

Lemma focus_marks_without_moving_witness :
  ∃ w', focusButtonEventHandler (Sample2.acc Sample.config) (eventAt 11%nat)
          (Sample2.at_start Sample.config) = (w', Normal ())
        ∧ focus_on (Sample2.acc Sample.config) 11%nat w'
        ∧ timers w' = timers (Sample2.at_start Sample.config)
        ∧ activeElement w' = activeElement (Sample2.at_start Sample.config)
        ∧ ∀ n k, k ∉ focus_ring →
                 attr w' n k = attr (Sample2.at_start Sample.config) n k.
Proof.
  apply (focus_marks_without_moving (Sample2.acc Sample.config) (eventAt 11%nat)).
  - vm_compute. reflexivity.
  - compute_done.
Defined.

Lemma click_flips_the_pair_witness :
  snd (clickButtonEventHandler (Sample2.acc Sample.config) (eventAt 11%nat)
         (Sample2.at_start Sample.config)) = Normal ()
  ∧ visible (fst (clickButtonEventHandler (Sample2.acc Sample.config) (eventAt 11%nat)
                    (Sample2.at_start Sample.config))) 5%nat
    = @bool_decide _ (closed_dec (Sample2.at_start Sample.config) 11%nat)
  ∧ expanded (fst (clickButtonEventHandler (Sample2.acc Sample.config)
                     (eventAt 11%nat) (Sample2.at_start Sample.config))) 11%nat
    = @bool_decide _ (closed_dec (Sample2.at_start Sample.config) 11%nat).
Proof.
  apply (click_flips_the_pair (Sample2.acc Sample.config) (eventAt 11%nat)).
  - vm_compute. reflexivity.
  - vm_compute. reflexivity.
Defined.

Lemma click_leaves_the_others_witness :
  (3%nat ≠ 5%nat →
   visible (fst (clickButtonEventHandler (Sample2.acc Sample.config) (eventAt 11%nat)
                   (Sample2.at_start Sample.config))) 3%nat
   = visible (Sample2.at_start Sample.config) 3%nat)
  ∧ (3%nat ≠ 11%nat →
     expanded (fst (clickButtonEventHandler (Sample2.acc Sample.config)
                      (eventAt 11%nat) (Sample2.at_start Sample.config))) 3%nat
     = expanded (Sample2.at_start Sample.config) 3%nat).
Proof.
  apply (click_leaves_the_others (Sample2.acc Sample.config) (eventAt 11%nat)
           (Sample2.at_start Sample.config) 11%nat 5%nat 3%nat).
  - vm_compute. reflexivity.
  - vm_compute. reflexivity.
  - reflexivity.
Defined.

Lemma click_collapses_the_others_witness :
  (∀ p', p' ∈ panels (Sample2.acc Sample.single_select) → p' ≠ 3%nat →
         visible (fst (clickButtonEventHandler (Sample2.acc Sample.single_select)
                         (eventAt 10%nat) (Sample2.at_start Sample.single_select)))
           p' = false)
  ∧ (∀ b', b' ∈ buttons (Sample2.acc Sample.single_select) → b' ≠ 10%nat →
           expanded (fst (clickButtonEventHandler (Sample2.acc Sample.single_select)
                            (eventAt 10%nat)
                            (Sample2.at_start Sample.single_select))) b' = false).
Proof.
  apply (click_collapses_the_others (Sample2.acc Sample.single_select)
           (eventAt 10%nat)).
  - vm_compute. reflexivity.
  - vm_compute. reflexivity.
  - reflexivity.
Defined.

Lemma click_selects_and_defers_witness :
  let w' := fst (clickButtonEventHandler (Sample2.acc Sample.config) (eventAt 12%nat)
                   (Sample2.at_start Sample.config)) in
  selected w' 12%nat = true
  ∧ (∀ b', b' ∈ buttons (Sample2.acc Sample.config) → b' ≠ 12%nat →
           selected w' b' = false)
  ∧ propagationStopped w' = true ∧ defaultPrevented w' = true
  ∧ timers w' = timers (Sample2.at_start Sample.config) ++ [12%nat]
  ∧ activeElement w' = activeElement (Sample2.at_start Sample.config).
Proof.
  apply (click_selects_and_defers (Sample2.acc Sample.config) (eventAt 12%nat)
           (Sample2.at_start Sample.config) 12%nat 7%nat).
  - vm_compute. reflexivity.
  - vm_compute. reflexivity.
Defined.

Lemma construction_wires_witness :
  buttons (Sample2.acc Sample.config)
  = querySelectorAll_in (Sample2.at_start Sample.config) 2%nat
      (buttonsSelector Sample.config)
  ∧ listeners (Sample2.at_start Sample.config)
    = flat_map listeners_of (buttons (Sample2.acc Sample.config))
      ++ map panel_listener
           (querySelectorAll_in (Sample2.at_start Sample.config) 2%nat
              (panelsSelector Sample.config))
  ∧ wired (Sample2.acc Sample.config) (Sample2.at_start Sample.config) = true.
Proof.
  apply (construction_wires 2%nat Sample.config "k3v9" Sample.plain).
  - reflexivity.
  - vm_compute. reflexivity.
  - vm_compute. reflexivity.
  - reflexivity.
Defined.

Lemma container_decorated_witness :
  attr (Sample2.at_start Sample.config) 2%nat "role" = Some "tablist"
  ∧ attr (Sample2.at_start Sample.config) 2%nat "aria-multiselectable" = Some "true"
  ∧ attr (Sample2.at_start Sample.config) 2%nat "id" = Some "acc".
Proof.
  apply (container_decorated 2%nat Sample.config "k3v9" Sample.plain
           (Sample2.at_start Sample.config) (Sample2.acc Sample.config)).
  - reflexivity.
  - vm_compute. reflexivity.
  - vm_compute. reflexivity.
Defined.

Lemma pairs_decorated_witness :
  attr (Sample2.at_start Sample.config) 5%nat "role" = Some "tabpanel"
  ∧ attr (Sample2.at_start Sample.config) 11%nat "role" = Some "tab"
  ∧ selected (Sample2.at_start Sample.config) 11%nat = false
  ∧ visible (Sample2.at_start Sample.config) 5%nat
    = @bool_decide _ (marked_dec Sample.plain 5%nat)
  ∧ expanded (Sample2.at_start Sample.config) 11%nat
    = @bool_decide _ (marked_dec Sample.plain 5%nat)
  ∧ tagName (elems (Sample2.at_start Sample.config) 11%nat)
    = tagName (elems Sample.plain 9%nat).
Proof.
  apply (pairs_decorated 2%nat Sample.config "k3v9" Sample.plain
           (Sample2.at_start Sample.config) (Sample2.acc Sample.config) 1%nat 5%nat).
  - reflexivity.
  - vm_compute. reflexivity.
  - vm_compute. reflexivity.
  - reflexivity.
Defined.

Lemma bad_class_prefix_aborts_witness :
  ∃ w' e, constructor 2%nat Sample2.no_prefix "k3v9" Sample.plain = (w', Throw e)
          ∧ e = SyntaxError
          ∧ attr w' 2%nat "role" = Some "tablist"
          ∧ fresh w' = fresh Sample.plain ∧ tree w' = tree Sample.plain.
Proof.
  apply (bad_class_prefix_aborts 2%nat Sample2.no_prefix "k3v9" Sample.plain).
  reflexivity.
Defined.

(** * Construction, continued *)

(** ** Children and insertion *)

(** [element.children], as node names. *)
Definition children (t : Tree) (n : nid) : list nid :=
  match subtree t n with
  | Some s => map node_id (node_kids s)
  | None => []
  end.

Lemma subtree_is_Some t n : n ∈ preorder t → is_Some (subtree t n).
Proof.
  intros Hn. destruct (subtree t n) eqn:E; [done|].
  by apply subtree_None in E.
Qed.

Lemma first_insert_first_subtree ks r b p ks' :
  Forall (λ k, ∀ t', tree_insert_before k r (Node b []) p = Some t' →
                     ∃ js js', subtree k r = Some (Node r js)
                               ∧ kids_insert_before js (Node b []) p = Some js'
                               ∧ subtree t' r = Some (Node r js')) ks →
  first_insert ks r (Node b []) p = Some ks' →
  ∃ js js', first_subtree ks r = Some (Node r js)
            ∧ kids_insert_before js (Node b []) p = Some js'
            ∧ first_subtree ks' r = Some (Node r js').
Proof.
  intros IH. revert ks'. induction ks as [|k ks IHks]; intros ks'; [done|].
  rewrite first_insert_cons. inversion IH as [|?? Hk Hks]; subst.
  destruct (bool_decide (r ∈ preorder k)) eqn:Hr.
  - destruct (tree_insert_before k r (Node b []) p) as [k'|] eqn:Ek; [|done].
    intros [= <-]. destruct (Hk _ eq_refl) as (js & js' & E1 & E2 & E3).
    exists js, js'. rewrite !first_subtree_cons, E1, E3. done.
  - destruct (first_insert ks r (Node b []) p) as [ks''|] eqn:E; [|done].
    intros [= <-]. destruct (IHks Hks _ eq_refl) as (js & js' & E1 & E2 & E3).
    exists js, js'. rewrite !first_subtree_cons.
    apply bool_decide_eq_false in Hr.
    destruct (subtree k r) eqn:Ek; [|done].
    destruct (subtree_segment _ _ _ Ek) as (Hid & l1 & l2 & Hseg).
    exfalso. apply Hr. rewrite Hseg. destruct t as [m js0]. simpl in Hid. subst m.
    rewrite preorder_Node. set_solver.
Qed.

(** [insertBefore] works on the children of the parent: it succeeds when
    the reference is one of them, and the parent has the new child
    afterwards. *)
Lemma tree_insert_before_children t r b p t' :
  tree_insert_before t r (Node b []) p = Some t' →
  ∃ ks ks', subtree t r = Some (Node r ks)
            ∧ kids_insert_before ks (Node b []) p = Some ks'
            ∧ subtree t' r = Some (Node r ks').
Proof.
  revert t'. induction t as [m ks IH] using Tree_ind. intros t'.
  rewrite tree_insert_before_Node. destruct (decide (m = r)) as [->|Hm].
  - destruct (kids_insert_before ks (Node b []) p) as [ks'|] eqn:E; [|done].
    intros [= <-]. exists ks, ks'. rewrite !subtree_Node, !decide_True by done. done.
  - destruct (first_insert ks r (Node b []) p) as [ks'|] eqn:E; [|done].
    intros [= <-]. rewrite !subtree_Node, !decide_False by done.
    by eapply first_insert_first_subtree.
Qed.

Lemma tree_insert_before_child t r b p t' :
  tree_insert_before t r (Node b []) p = Some t' → p ∈ children t r.
Proof.
  intros (ks & ks' & E1 & E2 & _)%tree_insert_before_children.
  unfold children. rewrite E1. simpl.
  by apply kids_insert_before_preorder in E2 as [_ ?].
Qed.


(** ** The order of the elements after the insertions *)

(** [b] put before the first [p] of a list. *)
Fixpoint insert_before (b p : nid) (l : list nid) : list nid :=
  match l with
  | [] => []
  | x :: l' => if decide (x = p) then b :: x :: l' else x :: insert_before b p l'
  end.

(** The insertions of a loop over [ps] that starts with the new name [b]. *)
Fixpoint arrange (b : nid) (ps : list nid) (l : list nid) : list nid :=
  match ps with
  | [] => l
  | p :: ps' => arrange (S b) ps' (insert_before b p l)
  end.

Lemma insert_before_app b p l1 l2 :
  p ∉ l1 → insert_before b p (l1 ++ l2) = l1 ++ insert_before b p l2.
Proof.
  induction l1 as [|x l1 IH]; intros Hp; simpl; [done|].
  rewrite decide_False by set_solver. rewrite IH by set_solver. done.
Qed.

Lemma insert_before_head b p l : insert_before b p (p :: l) = b :: p :: l.
Proof. simpl. destruct (decide (p = p)); [reflexivity|congruence]. Qed.

Lemma kids_insert_before_flat ks b p ks' :
  kids_insert_before ks (Node b []) p = Some ks' →
  NoDup (flat_map preorder ks) →
  flat_map preorder ks' = insert_before b p (flat_map preorder ks).
Proof.
  revert ks'. induction ks as [|k ks IH]; intros ks'; simpl; [done|].
  destruct (decide (node_id k = p)) as [<-|Hk].
  - intros [= <-] _. destruct k as [m js]. simpl.
    destruct (decide (m = m)); [reflexivity|congruence].
  - destruct (kids_insert_before ks (Node b []) p) as [ks''|] eqn:E; [|done].
    intros [= <-] [Hnd1 [Hnd2 Hnd3]]%NoDup_app. simpl.
    rewrite (IH _ eq_refl) by done. rewrite insert_before_app; [done|].
    apply kids_insert_before_preorder in E as [_ Hp].
    intros Hin. apply (Hnd2 p Hin).
    apply list_elem_of_fmap in Hp as (k' & -> & Hk').
    apply list_elem_of_In, in_flat_map. exists k'. split; [by apply list_elem_of_In|].
    destruct k'. simpl. by left.
Qed.

(** The descendants of the parent after an insertion. *)
Lemma tree_insert_before_arranged t r b p t' :
  tree_insert_before t r (Node b []) p = Some t' →
  NoDup (preorder t) →
  descendants t' r = insert_before b p (descendants t r).
Proof.
  intros (ks & ks' & E1 & E2 & E3)%tree_insert_before_children Hnd.
  unfold descendants. rewrite E1, E3. simpl.
  apply kids_insert_before_flat; [done|].
  destruct (subtree_segment _ _ _ E1) as (_ & l1 & l2 & Hseg).
  rewrite Hseg, preorder_Node in Hnd.
  apply NoDup_app in Hnd as (_ & _ & Hnd).
  apply NoDup_app in Hnd as (Hnd & _ & _).
  by apply NoDup_cons in Hnd as [_ ?].
Qed.

Section order.
Context (N : nid).

(** Whether an element was made by the loop. *)
Definition new (x : nid) : Prop := (N ≤ x)%nat.

#[global] Instance new_dec x : Decision (new x).
Proof. unfold new. apply _. Defined.

Lemma filter_new_old (l : list nid) :
  (∀ x, x ∈ l → (x < N)%nat) → filter new l = [].
Proof.
  induction l as [|x l IH]; intros Hl; [done|].
  rewrite filter_cons, decide_False, IH; [done|set_solver|].
  unfold new. pose proof (Hl x). set_solver by lia.
Qed.

Lemma arrange_filter b ps A R :
  ps `sublist_of` R → NoDup R → (∀ x, x ∈ R → (x < N)%nat) →
  (∀ p, p ∈ ps → p ∉ A) → (N ≤ b)%nat →
  filter new (arrange b ps (A ++ R)) = filter new A ++ seq b (length ps).
Proof.
  revert b A R. induction ps as [|p ps IH]; intros b A R Hsub Hnd Hold HA Hb; simpl.
  - rewrite filter_app, (filter_new_old R) by done. done.
  - apply sublist_cons_l in Hsub as (r1 & r2 & -> & Hsub).
    apply NoDup_app in Hnd as (Hnd1 & Hnd2 & [Hp Hnd3]%NoDup_cons).
    rewrite insert_before_app by (apply HA; by left).
    rewrite insert_before_app by (intros ?; by apply (Hnd2 p); [|left]).
    rewrite insert_before_head.
    trans (filter new (arrange (S b) ps ((A ++ r1 ++ [b; p]) ++ r2))).
    { do 2 f_equal. rewrite <- !app_assoc. reflexivity. }
    rewrite IH; [|done|done| | |lia].
    + rewrite !filter_app, (filter_new_old r1) by (intros; apply Hold; set_solver).
      rewrite !filter_cons, filter_nil.
      rewrite decide_True by (unfold new; lia).
      rewrite decide_False.
      * by rewrite <- app_assoc.
      * unfold new. pose proof (Hold p). set_solver by lia.
    + intros; apply Hold; set_solver.
    + intros q Hq. assert (q ∈ r2) as Hq2 by (by eapply elem_of_sublist).
      rewrite !elem_of_app, !elem_of_cons, elem_of_nil.
      intros [?|[?|[->|[->|[]]]]].
      * apply (HA q); [by right|done].
      * apply (Hnd2 q); [done|by right].
      * pose proof (Hold b). set_solver by lia.
      * done.
Qed.

Lemma elem_of_insert_before b p l x :
  x ∈ insert_before b p l → x = b ∨ x ∈ l.
Proof.
  induction l as [|y l IH]; simpl; [by right|].
  case_decide; set_solver.
Qed.

Lemma elem_of_arrange b ps l x :
  x ∈ arrange b ps l → (b ≤ x < b + length ps)%nat ∨ x ∈ l.
Proof.
  revert b l. induction ps as [|p ps IH]; intros b l; simpl; [by right|].
  intros [?|[->|?]%elem_of_insert_before]%IH; [left; lia|left; lia|by right].
Qed.
End order.

(** ** The toggles that the buttons selector finds *)

(** Decoration takes no class and no tag away: what matched a selector
    still matches it. *)
Lemma matches_update_kept n f w x s :
  (∀ e, matches e s = true → matches (f e) s = true) →
  matches (elems w x) s = true → matches (elems (update n f w) x) s = true.
Proof.
  intros Hf Hx. unfold update. simpl. destruct (decide (x = n)) as [->|]; auto.
Qed.

Lemma matches_staged_kept this h t w x s :
  matches (elems (cloned (button (options this)) w) x) s = true →
  matches (elems (staged this h t w) x) s = true.
Proof.
  intros Hx. unfold staged. cbv zeta.
  change (elems (with_tree ?t ?w)) with (elems w).
  repeat (apply matches_update_kept;
          [first [intros ?; apply matches_add_class_mono|intros ? Hkept; exact Hkept]|]).
  done.
Qed.

Lemma matches_finished_kept this b p i pid w x s :
  matches (elems w x) s = true →
  matches (elems (finished this b p i pid w) x) s = true.
Proof.
  intros Hx. unfold finished, first_focusable, open_by_default.
  repeat match goal with
         | |- context [if decide ?P then update _ _ _ else _] => destruct (decide P)
         end;
    unfold dress_panel, dress_toggle; cbv zeta;
    repeat (apply matches_update_kept;
            [first [intros ?; apply matches_add_class_mono|intros ? Hkept; exact Hkept]|]);
    done.
Qed.

Lemma matches_decorated_kept this p i h t w x s :
  matches (elems (cloned (button (options this)) w) x) s = true →
  matches (elems (decorated this p i h t w) x) s = true.
Proof.
  intros Hx. unfold decorated. by apply matches_finished_kept, matches_staged_kept.
Qed.

Lemma matches_clone n w s :
  matches (elems (cloned n w) (fresh w)) s = matches (elems w n) s.
Proof. unfold cloned. simpl. by rewrite decide_True. Qed.

(** One turn of the loop touches the clone, the panel and the header. *)
Lemma elems_update_ne n f w x : x ≠ n → elems (update n f w) x = elems w x.
Proof. intros Hx. unfold update. simpl. by rewrite decide_False. Qed.

Lemma elems_decorated_other this p i h t w x :
  x ≠ fresh w → x ≠ p → x ≠ h → elems (decorated this p i h t w) x = elems w x.
Proof.
  intros Hb Hp Hh. unfold decorated, finished, first_focusable, open_by_default.
  repeat match goal with
         | |- context [if decide ?P then update _ _ _ else _] => destruct (decide P)
         end;
    unfold dress_panel, dress_toggle, staged; cbv zeta;
    rewrite ?elems_update_ne by done;
    change (elems (with_tree ?t ?w)) with (elems w);
    rewrite ?elems_update_ne by done;
    unfold cloned; simpl; by rewrite decide_False.
Qed.

(** The clones of earlier turns are left alone by the later ones. *)
Lemma loop_frame_elems N this ps i w w' :
  fit N this w ps →
  forEach_from i ps (decoratePanel this) w = (w', Normal ()) →
  ∀ x, (N ≤ x < fresh w)%nat → elems w' x = elems w x.
Proof.
  revert i w. induction ps as [|p ps IH]; intros i w Hfit Hloop x Hx.
  { rewrite forEach_from_nil in Hloop. by injection Hloop as <-. }
  destruct (loop_turn _ _ _ _ _ _ _ Hfit Hloop) as (h & t & Hh & Ht & Hfit1 & Hloop1).
  destruct (fit_panel _ _ _ _ Hfit p) as (HpN & _ & _ & Hold); [by left|].
  pose proof (Hold h Hh) as HhN.
  rewrite (IH _ _ Hfit1 Hloop1) by (rewrite decorated_fresh; lia).
  apply elems_decorated_other; lia.
Qed.

(** Every clone matches what the template matched. *)
Lemma loop_clones_match N this ps i w w' s :
  fit N this w ps →
  forEach_from i ps (decoratePanel this) w = (w', Normal ()) →
  matches (elems w (button (options this))) s = true →
  ∀ j, (j < length ps)%nat → matches (elems w' (fresh w + j)%nat) s = true.
Proof.
  revert i w. induction ps as [|p ps IH]; intros i w Hfit Hloop Hm j Hj; [simpl in Hj; lia|].
  destruct (loop_turn _ _ _ _ _ _ _ Hfit Hloop) as (h & t & Hh & Ht & Hfit1 & Hloop1).
  pose proof (fit_fresh _ _ _ _ Hfit) as HN.
  pose proof (fit_template _ _ _ _ Hfit) as Htmpl.
  destruct j as [|j].
  - rewrite Nat.add_0_r.
    rewrite (loop_frame_elems _ _ _ _ _ _ Hfit1 Hloop1)
      by (rewrite decorated_fresh; lia).
    apply matches_decorated_kept. by rewrite matches_clone.
  - replace (fresh w + S j)%nat with (fresh (decorated this p i h t w) + j)%nat
      by (rewrite decorated_fresh; lia).
    apply (IH _ _ Hfit1 Hloop1); [|simpl in Hj; lia].
    apply matches_decorated_kept. rewrite matches_cloned by lia. done.
Qed.

(** The elements of the page are distinct and were allocated before. *)
Definition tidy (w : World) : Prop :=
  NoDup (preorder (tree w)) ∧ ∀ x, x ∈ preorder (tree w) → (x < fresh w)%nat.

(** The descendants of the container after the loop: each clone stands
    before its panel. *)
Lemma loop_arranged N this ps i w w' :
  fit N this w ps → tidy w →
  forEach_from i ps (decoratePanel this) w = (w', Normal ()) →
  descendants (tree w') (root this)
  = arrange (fresh w) ps (descendants (tree w) (root this)).
Proof.
  revert i w. induction ps as [|p ps IH]; intros i w Hfit [Hnd Hbound] Hloop.
  { rewrite forEach_from_nil in Hloop. by injection Hloop as <-. }
  destruct (loop_turn _ _ _ _ _ _ _ Hfit Hloop) as (h & t & Hh & Ht & Hfit1 & Hloop1).
  rewrite (IH (S i) _ Hfit1) ; [| |done].
  - rewrite decorated_fresh, decorated_tree. simpl.
    by rewrite (tree_insert_before_arranged _ _ _ _ _ Ht).
  - pose proof (tree_insert_before_preorder _ _ _ _ _ Ht) as Hperm.
    unfold tidy. rewrite decorated_fresh, decorated_tree. split.
    + rewrite Hperm. apply NoDup_cons. split; [|done].
      intros Hin%Hbound. lia.
    + intros x. rewrite Hperm. intros [->|Hin%Hbound]%elem_of_cons; lia.
Qed.

Lemma seq_toggles w0 n : seq (fresh w0) n = map (toggle_of w0) (seq 0 n).
Proof.
  unfold toggle_of.
  change (map (λ j, (fresh w0 + j)%nat) (seq 0 n))
    with ((λ j, (fresh w0 + j)%nat) <$> seq 0 n).
  rewrite fmap_add_seq. by rewrite Nat.add_0_r.
Qed.

(** When the buttons selector selects button elements, the container holds
    no button element before construction and the template matches the
    selector, the toggles that the object tracks are the clones, one per
    panel and in the order of the panels. *)
Lemma constructor_generated container opts readableIndex w0 w1 this :
  fst (constructor container opts readableIndex w0) = w1 →
  snd (constructor container opts readableIndex w0) = Normal this →
  well_formed w0 container opts = true →
  sel_tag (buttonsSelector opts) = Some "button" →
  matches (elems w0 (button opts)) (buttonsSelector opts) = true →
  forallb (λ x, negb (bool_decide (tagName (elems w0 x) = "button")))
    (descendants (tree w0) container) = true →
  buttons this = map (toggle_of w0) (seq 0 (length (panels this)))
  ∧ generated this w0 = true.
Proof.
  intros H1 H2 Hwf Htag Htmpl Hnone.
  enough (buttons this = map (toggle_of w0) (seq 0 (length (panels this)))) as E.
  { split; [done|]. unfold generated. by apply bool_decide_eq_true. }
  pose proof (constructor_pair _ _ _ _ _ _ H1 H2) as Hc.
  destruct (constructor_Normal container opts readableIndex w0 this)
    as (wa & Ho & Hr & Hp & Hb & T0 & Hloop & Ew).
  { by rewrite Hc. }
  assert (fit (fresh w0) this (rooted this readableIndex w0) (panels this)) as Hfit.
  { apply well_formed_fit; by rewrite ?Ho, ?Hr. }
  destruct (rooted_static this readableIndex w0) as (Et & Ef & _ & Etag).
  pose proof Hwf as Hwf'. unfold well_formed in Hwf'.
  apply andb_prop in Hwf' as [[[Hnd Hbd]%andb_prop Hin]%andb_prop Hbt].
  apply bool_decide_eq_true in Hnd, Hin, Hbt. rewrite forallb_forall in Hbd.
  assert (∀ x, x ∈ preorder (tree w0) → (x < fresh w0)%nat) as Hbound.
  { intros x Hx. apply list_elem_of_In, Hbd in Hx. by apply bool_decide_eq_true in Hx. }
  assert (tidy (rooted this readableIndex w0)) as Htidy.
  { unfold tidy. by rewrite Et, Ef. }
  pose proof (loop_arranged _ _ _ _ _ _ Hfit Htidy Hloop) as Harr.
  rewrite Et, Ef in Harr.
  destruct (loop_frame _ _ _ _ _ _ Hfit Hloop) as (_ & _ & Hframe_tag & _).
  rewrite Ef in Hframe_tag.
  assert (matches (elems (rooted this readableIndex w0) (button (options this)))
            (buttonsSelector opts) = true) as Htmpl'.
  { unfold rooted. cbv zeta. rewrite Ho.
    case_match;
      repeat (apply matches_update_kept;
              [first [intros ?; apply matches_add_class_mono
                     |intros ? Hkept; exact Hkept]|]);
      done. }
  pose proof (loop_clones_match _ _ _ _ _ _ _ Hfit Hloop Htmpl') as Hclones.
  rewrite Ef in Hclones.
  rewrite Hb, <- seq_toggles. unfold querySelectorAll_in.
  rewrite <- Hr, Harr.
  trans (filter (new (fresh w0))
           (arrange (fresh w0) (panels this) (descendants (tree w0) (root this))));
    [|apply (arrange_filter (fresh w0) (fresh w0) (panels this) []
               (descendants (tree w0) (root this)))].
  - apply filter_ext_elem. intros x [Hx|Hx]%elem_of_arrange.
    + replace x with (fresh w0 + (x - fresh w0))%nat by lia.
      rewrite Hclones by lia. unfold new. split; [lia|done].
    + assert (x < fresh w0)%nat as Hold by (by eapply Hbound, descendants_elem).
      unfold matches. rewrite Htag, Hframe_tag, Etag by done.
      rewrite forallb_forall in Hnone. rewrite Hr in Hx.
      apply list_elem_of_In, Hnone, negb_true_iff in Hx. rewrite Hx. simpl.
      unfold new. split; [done|lia].
  - rewrite Hp, Hr. unfold querySelectorAll_in. apply sublist_filter.
  - by apply descendants_NoDup.
  - intros x Hx. by eapply Hbound, descendants_elem.
  - intros p _. apply not_elem_of_nil.
  - done.
Qed.

(** ** A loop that stops at a panel without header *)

Lemma subtree_Some_elem t n s : subtree t n = Some s → n ∈ preorder t.
Proof.
  intros Hs. destruct (subtree_segment _ _ _ Hs) as (Hid & l1 & l2 & ->).
  destruct s as [m js]. simpl in Hid. subst m. rewrite preorder_Node. set_solver.
Qed.

Lemma subtree_Some_id t n s : subtree t n = Some s → ∃ ks, s = Node n ks.
Proof.
  intros Hs. destruct (subtree_segment _ _ _ Hs) as (Hid & _).
  destruct s as [m js]. simpl in Hid. subst m. by exists js.
Qed.

(** [insertBefore] succeeds when the reference is a child of the parent. *)
Lemma kids_insert_before_is_Some ks new p :
  p ∈ map node_id ks → is_Some (kids_insert_before ks new p).
Proof.
  induction ks as [|k ks IH]; simpl; [by intros ?%elem_of_nil|].
  intros Hp. destruct (decide (node_id k = p)); [done|].
  apply elem_of_cons in Hp as [?|Hp]; [done|].
  destruct (IH Hp) as [ks' ->]. done.
Qed.

Lemma first_insert_is_Some ks r new p js :
  Forall (λ k, ∀ js, subtree k r = Some (Node r js) → p ∈ map node_id js →
               is_Some (tree_insert_before k r new p)) ks →
  first_subtree ks r = Some (Node r js) → p ∈ map node_id js →
  is_Some (first_insert ks r new p).
Proof.
  induction ks as [|k ks IHks]; intros IH; [done|].
  rewrite first_subtree_cons, first_insert_cons.
  inversion IH as [|?? Hk Hks]; subst.
  destruct (subtree k r) as [s|] eqn:Ek.
  - intros [= ->] Hp.
    rewrite bool_decide_true by (by eapply subtree_Some_elem).
    destruct (Hk js eq_refl Hp) as [k' ->]. done.
  - intros Hf Hp. rewrite bool_decide_false by (by apply subtree_None).
    destruct (IHks Hks Hf Hp) as [ks' ->]. done.
Qed.

Lemma tree_insert_before_is_Some t r new p :
  p ∈ children t r → is_Some (tree_insert_before t r new p).
Proof.
  unfold children. destruct (subtree t r) as [s|] eqn:Hs; [|by intros ?%elem_of_nil].
  destruct (subtree_Some_id _ _ _ Hs) as [js ->]. simpl. revert js Hs.
  induction t as [m ks IH] using Tree_ind. intros js.
  rewrite subtree_Node, tree_insert_before_Node.
  destruct (decide (m = r)) as [->|Hm].
  - intros [= <-] Hp. destruct (kids_insert_before_is_Some ks new p Hp) as [ks' ->].
    done.
  - intros Hf Hp. destruct (first_insert_is_Some ks r new p js IH Hf Hp) as [ks' ->].
    done.
Qed.

Lemma kids_insert_before_ids ks new p ks' x :
  kids_insert_before ks new p = Some ks' →
  x ∈ map node_id ks → x ∈ map node_id ks'.
Proof.
  revert ks'. induction ks as [|k ks IH]; intros ks'; simpl; [done|].
  destruct (decide (node_id k = p)).
  - intros [= <-]. simpl. set_solver.
  - destruct (kids_insert_before ks new p) as [ks''|]; [|done].
    intros [= <-]. simpl. specialize (IH _ eq_refl). set_solver.
Qed.

(** The children of the parent stay its children. *)
Lemma tree_insert_before_children_kept t r b p t' x :
  tree_insert_before t r (Node b []) p = Some t' →
  x ∈ children t r → x ∈ children t' r.
Proof.
  intros (ks & ks' & E1 & E2 & E3)%tree_insert_before_children.
  unfold children. rewrite E1, E3. simpl. by eapply kids_insert_before_ids.
Qed.

(** *** Document order *)

(** No element of the list lies below one that comes later in it. *)
Definition in_order (t : Tree) (ps : list nid) : Prop :=
  ∀ l1 q l2 p, ps = l1 ++ q :: l2 → p ∈ l2 → q ∉ descendants t p.

Lemma in_order_tail t p ps : in_order t (p :: ps) → in_order t ps.
Proof. intros H l1 q l2 p' ->. by apply (H (p :: l1)). Qed.

Lemma in_order_head t p ps q : in_order t (p :: ps) → q ∈ ps → p ∉ descendants t q.
Proof. intros H. by apply (H []). Qed.

Lemma in_order_ext t t' ps :
  (∀ q, q ∈ ps → descendants t' q = descendants t q) →
  in_order t ps → in_order t' ps.
Proof.
  intros Hd H l1 q l2 p -> Hp. rewrite Hd by set_solver. by eapply H.
Qed.

Lemma filter_split {A} (P : A → Prop) `{∀ x, Decision (P x)} (l : list A) l1 x l2 :
  filter P l = l1 ++ x :: l2 →
  ∃ d1 d2, l = d1 ++ x :: d2 ∧ l2 = filter P d2.
Proof.
  revert l1. induction l as [|y l IH]; intros l1; [by destruct l1|].
  rewrite filter_cons. destruct (decide (P y)).
  - destruct l1 as [|z l1]; simpl.
    + intros [= -> <-]. by exists [], l.
    + intros [= -> E]. destruct (IH _ E) as (d1 & d2 & -> & ->).
      by exists (z :: d1), d2.
  - intros E. destruct (IH _ E) as (d1 & d2 & -> & ->).
    by exists (y :: d1), d2.
Qed.

Lemma NoDup_twice {A} (l l1 l2 l3 l1' l2' l3' : list A) x y :
  NoDup l →
  l = l1 ++ x :: l2 ++ y :: l3 → l = l1' ++ y :: l2' ++ x :: l3' → False.
Proof.
  intros Hnd E1 E2.
  assert (l !! length l1 = Some x) as L1.
  { rewrite E1. by apply list_lookup_middle. }
  assert (l !! (length l1 + S (length l2))%nat = Some y) as L2.
  { rewrite E1. rewrite lookup_app_r by lia.
    replace (length l1 + S (length l2) - length l1)%nat with (S (length l2)) by lia.
    simpl. by apply list_lookup_middle. }
  assert (l !! length l1' = Some y) as L3.
  { rewrite E2. by apply list_lookup_middle. }
  assert (l !! (length l1' + S (length l2'))%nat = Some x) as L4.
  { rewrite E2. rewrite lookup_app_r by lia.
    replace (length l1' + S (length l2') - length l1')%nat with (S (length l2'))
      by lia.
    simpl. by apply list_lookup_middle. }
  pose proof (NoDup_lookup _ _ _ _ Hnd L1 L4).
  pose proof (NoDup_lookup _ _ _ _ Hnd L2 L3). lia.
Qed.

(** [querySelectorAll] lists its matches in document order. *)
Lemma querySelectorAll_in_order w n s :
  NoDup (preorder (tree w)) → in_order (tree w) (querySelectorAll_in w n s).
Proof.
  intros Hnd l1 q l2 p E Hp Hq. unfold querySelectorAll_in in E.
  apply filter_split in E as (d1 & d2 & E & ->).
  apply list_elem_of_filter in Hp as [_ Hp].
  apply list_elem_of_split in Hp as (e1 & e2 & ->).
  assert (n ∈ preorder (tree w)) as Hn.
  { destruct (subtree (tree w) n) as [sn|] eqn:Hs; [by eapply subtree_Some_elem|].
    unfold descendants in E. rewrite Hs in E. by destruct d1. }
  destruct (descendants_segment _ _ Hn) as (a & c & E1). rewrite E in E1.
  assert (p ∈ preorder (tree w)) as Hpt by (rewrite E1; set_solver).
  destruct (descendants_segment _ _ Hpt) as (a' & c' & E2).
  apply list_elem_of_split in Hq as (b1 & b2 & Eq). rewrite Eq in E2.
  apply (NoDup_twice (preorder (tree w)) (a ++ n :: d1) e1 (e2 ++ c)
           a' b1 (b2 ++ c') q p Hnd).
  - rewrite E1. by simplify_list_eq.
  - rewrite E2. by simplify_list_eq.
Qed.

(** *** The headers of the panels to come *)

Lemma elems_finished_other this b p i pid w x :
  x ≠ b → x ≠ p → elems (finished this b p i pid w) x = elems w x.
Proof.
  intros Hb Hp. unfold finished, first_focusable, open_by_default.
  repeat match goal with
         | |- context [if decide ?P then update _ _ _ else _] => destruct (decide P)
         end;
    unfold dress_panel, dress_toggle; cbv zeta;
    by rewrite ?elems_update_ne by done.
Qed.

(** One turn changes what an element other than the clone and the panel
    matches only by the class it gives to the header, which matched the
    selector of headers before. *)
Lemma matches_decorated_apart this p i h t w d s :
  d ≠ fresh w → d ≠ p → matches (elems w h) s = true →
  matches (elems (decorated this p i h t w) d) s = matches (elems w d) s.
Proof.
  intros Hb Hp Hh. unfold decorated. rewrite elems_finished_other by done.
  by apply matches_staged.
Qed.

Lemma headers_decorated N this p ps i h t w q :
  fit N this w (p :: ps) → in_order (tree w) (p :: ps) →
  h ∈ querySelectorAll_in w p (headersSelector (options this)) →
  descendants t q = descendants (tree w) q → q ∈ ps →
  querySelectorAll_in (decorated this p i h t w) q (headersSelector (options this))
  = querySelectorAll_in w q (headersSelector (options this)).
Proof.
  intros Hfit Hord Hh Hdesc Hq. unfold querySelectorAll_in.
  rewrite decorated_tree, Hdesc. apply filter_ext_elem. intros d Hd.
  rewrite matches_decorated_apart; [done| | |].
  - destruct (fit_panel _ _ _ _ Hfit q) as (_ & _ & _ & Hold); [by right|].
    pose proof (Hold d Hd). pose proof (fit_fresh _ _ _ _ Hfit). lia.
  - intros ->. by apply (in_order_head _ _ _ _ Hord Hq).
  - unfold querySelectorAll_in in Hh.
    apply list_elem_of_filter in Hh as [Hh _]. by apply Is_true_true.
Qed.

Lemma fit_app_l N this w l1 l2 : fit N this w (l1 ++ l2) → fit N this w l1.
Proof.
  intros [F1 F2 F3 F4 F5]. split; [done|done|done| |].
  - by apply NoDup_app in F4 as (? & _).
  - intros p Hp. apply F5. set_solver.
Qed.

(** The loop runs through the panels that have a header and are children
    of the container, and stops with a [TypeError] at the first panel that
    has no header, the template cloned once more. *)
Lemma loop_stops N this l1 p l2 i w :
  fit N this w (l1 ++ p :: l2) → in_order (tree w) (l1 ++ p :: l2) →
  tokens_ok (options this) = true →
  (∀ q, q ∈ l1 →
     querySelectorAll_in w q (headersSelector (options this)) ≠ []
     ∧ q ∈ children (tree w) (root this)) →
  querySelectorAll_in w p (headersSelector (options this)) = [] →
  ∃ w', forEach_from i l1 (decoratePanel this) w = (w', Normal ())
        ∧ forEach_from i (l1 ++ p :: l2) (decoratePanel this) w
          = (cloned (button (options this)) w', Throw TypeError).
Proof.
  intros Hfit Hord Htok. revert i w Hfit Hord.
  induction l1 as [|q l1 IH]; intros i w Hfit Hord Hl1 Hp.
  { exists w. split; [done|]. simpl app.
    by rewrite forEach_from_cons, decoratePanel_no_header. }
  simpl app in *.
  destruct (Hl1 q) as [Hq Hc]; [by left|].
  destruct (querySelectorAll_in w q (headersSelector (options this)))
    as [|h hs] eqn:Eh; [done|].
  destruct (tree_insert_before_is_Some (tree w) (root this) (Node (fresh w) []) q Hc)
    as [t Ht].
  pose proof (decoratePanel_run this q i w h hs t Htok Eh Ht) as Erun.
  destruct (turn_fit _ _ _ _ i _ Hfit) as (h' & t' & _ & _ & E1 & Hfit1 & Hdesc).
  { by rewrite Erun. }
  rewrite Erun in E1. simpl in E1.
  assert (t' = t) as ->.
  { by rewrite <- (decorated_tree this q i h' t' w), <- E1, decorated_tree. }
  rewrite <- E1 in Hfit1.
  assert (h ∈ querySelectorAll_in w q (headersSelector (options this))) as Hh
    by (rewrite Eh; by left).
  destruct (IH (S i) (decorated this q i h t w)) as (w' & Hpre & Hall).
  - done.
  - rewrite decorated_tree. eapply in_order_ext; [|by eapply in_order_tail].
    done.
  - intros x Hx. destruct (Hl1 x) as [Hxh Hxc]; [by right|].
    assert (x ∈ l1 ++ p :: l2) as Hin by (apply elem_of_app; by left).
    rewrite (headers_decorated N this q (l1 ++ p :: l2) i h t w x Hfit Hord Hh
               (Hdesc x Hin) Hin).
    split; [done|]. rewrite decorated_tree.
    by eapply tree_insert_before_children_kept.
  - assert (p ∈ l1 ++ p :: l2) as Hin by (apply elem_of_app; right; by left).
    by rewrite (headers_decorated N this q (l1 ++ p :: l2) i h t w p Hfit Hord Hh
                  (Hdesc p Hin) Hin).
  - exists w'. rewrite !forEach_from_cons, Erun. cbv beta iota.
    exact (conj Hpre Hall).
Qed.

(** The elements of the page after a loop that returned: those it had, and
    one clone per panel. *)
Lemma loop_preorder N this ps i w w' x :
  fit N this w ps →
  forEach_from i ps (decoratePanel this) w = (w', Normal ()) →
  x ∈ preorder (tree w')
  ↔ (fresh w ≤ x < fresh w + length ps)%nat ∨ x ∈ preorder (tree w).
Proof.
  revert i w. induction ps as [|p ps IH]; intros i w Hfit Hloop.
  { rewrite forEach_from_nil in Hloop. injection Hloop as <-.
    simpl. split; [by right|]. intros [?|?]; [lia|done]. }
  destruct (loop_turn _ _ _ _ _ _ _ Hfit Hloop) as (h & t & Hh & Ht & Hfit1 & Hloop1).
  rewrite (IH _ _ Hfit1 Hloop1).
  assert (p ≠ fresh w) as Hpb.
  { destruct (fit_panel _ _ _ _ Hfit p) as (? & _); [by left|].
    pose proof (fit_fresh _ _ _ _ Hfit). lia. }
  rewrite decorated_fresh, decorated_tree by done.
  rewrite (tree_insert_before_preorder _ _ _ _ _ Ht), elem_of_cons.
  simpl length. split.
  - intros [?|[?|?]]; [left; lia|left; lia|by right].
  - intros [?|?]; [|by right; right].
    destruct (decide (x = fresh w)); [by right; left|left; lia].
Qed.

(** *** Construction on a page with a panel that has no header *)

(** The object while [initAttributes] runs: [this.buttons] is assigned
    when it is over. *)
Definition under_construction (container : nid) (opts : AriaAccordionOptions)
    (w0 : World) : AriaAccordion :=
  {| options := opts; root := container;
     panels := querySelectorAll_in w0 container (panelsSelector opts);
     buttons := [] |}.

(** The panel has a header and is a child of the container: its turn in
    the loop of [initAttributes] will not fail. *)
Definition decorable (w : World) (container : nid) (o : AriaAccordionOptions)
    (q : nid) : bool :=
  negb (bool_decide (querySelectorAll_in w q (headersSelector o) = []))
  && bool_decide (q ∈ children (tree w) container).

(** C8 (amended). There is no error of its own for a missing header. When
    the panel of ordinal [j] has no descendant that matches the header
    selector, while the panels before it have one and are children of the
    container, and the class names of the options are class tokens,
    construction throws the [TypeError] of reading a property of [null].
    Nothing is undone: in the page that is left the panels before the
    faulty one are decorated, with their toggles in the document; the
    faulty panel and the panels after it have the attributes they had,
    but for the [tabindex] and the class they may have got as headers of
    earlier panels; no listener is registered. *)
Theorem missing_header_aborts container opts readableIndex w0 p j :
  well_formed w0 container opts = true →
  tokens_ok opts = true →
  panels (under_construction container opts w0) !! j = Some p →
  querySelectorAll_in w0 p (headersSelector opts) = [] →
  forallb (decorable w0 container opts)
    (take j (panels (under_construction container opts w0))) = true →
  ∃ w', constructor container opts readableIndex w0 = (w', Throw TypeError)
        ∧ listeners w' = listeners w0
        ∧ (∀ i q, (i < j)%nat →
             panels (under_construction container opts w0) !! i = Some q →
             attr w' q "id"
             = Some (assigned_id (under_construction container opts w0)
                       readableIndex w0 q i)
             ∧ attr w' q "aria-hidden"
               = Some (if decide (marked w0 q) then "false" else "true")
             ∧ attr w' (toggle_of w0 i) "aria-controls"
               = Some (assigned_id (under_construction container opts w0)
                         readableIndex w0 q i)
             ∧ toggle_of w0 i ∈ preorder (tree w'))
        ∧ (∀ q k, q ∈ drop j (panels (under_construction container opts w0)) →
             k ≠ "tabindex" → k ≠ "class" → attr w' q k = attr w0 q k).
Proof.
  intros Hwf Htok Hj Hq Hpre.
  set (this := under_construction container opts w0) in *.
  set (ps := panels this) in *.
  assert (∀ q, q ∈ take j ps →
            querySelectorAll_in w0 q (headersSelector opts) ≠ []
            ∧ q ∈ children (tree w0) container) as Hpre'.
  { intros q Hin. rewrite forallb_forall in Hpre.
    apply list_elem_of_In, Hpre, andb_prop in Hin as [Hh Hc].
    apply negb_true_iff, bool_decide_eq_false in Hh.
    by apply bool_decide_eq_true in Hc. }
  clear Hpre. rename Hpre' into Hpre.
  assert (token_ok (prefixClass opts) = true) as T0.
  { unfold tokens_ok in Htok. by apply andb_prop in Htok as [[[? _]%andb_prop _]%andb_prop _]. }
  assert (fit (fresh w0) this (rooted this readableIndex w0) ps) as Hfit.
  { by apply (well_formed_fit this). }
  destruct (rooted_static this readableIndex w0) as (Et & Ef & El & _).
  assert (NoDup (preorder (tree w0))) as Hnd.
  { unfold well_formed in Hwf.
    apply andb_prop in Hwf as [[[Hnd _]%andb_prop _]%andb_prop _].
    by apply bool_decide_eq_true in Hnd. }
  assert (in_order (tree (rooted this readableIndex w0)) ps) as Hord.
  { rewrite Et. by apply querySelectorAll_in_order. }
  pose proof (take_drop_middle _ _ _ Hj) as Eps.
  assert (length (take j ps) = j) as Hlen.
  { rewrite length_take. apply lookup_lt_Some in Hj. lia. }
  assert (∀ q, q ∈ ps → q ≠ container ∧ (root this ∉ descendants (tree w0) q)
                         ∧ (q < fresh w0)%nat) as Hpanel.
  { intros q Hin. destruct (fit_panel _ _ _ _ Hfit q Hin) as (? & ? & Hr & _).
    rewrite Et in Hr. done. }
  assert (p ∈ ps) as Hp by (by eapply list_elem_of_lookup_2).
  rewrite <- Eps in Hfit, Hord.
  destruct (loop_stops (fresh w0) this (take j ps) p (drop (S j) ps) 0
              (rooted this readableIndex w0) Hfit Hord Htok)
    as (wj & Hloop & Hall).
  { intros q Hin. destruct (Hpre q Hin) as [Hh Hc].
    assert (q ∈ ps) as Hin'
      by (eapply elem_of_sublist; [exact Hin|apply sublist_take]).
    destruct (Hpanel q Hin') as (_ & Hr & _).
    rewrite querySelectorAll_in_rooted by done. by rewrite Et. }
  { destruct (Hpanel p Hp) as (_ & Hr & _).
    by rewrite querySelectorAll_in_rooted. }
  exists (cloned (button opts) wj).
  pose proof (fit_NoDup _ _ _ _ Hfit) as Hnd'.
  apply fit_app_l in Hfit.
  destruct (loop_frame _ _ _ _ _ _ Hfit Hloop) as (Hfresh & Hlist & _ & Hframe).
  pose proof (loop_spec _ _ _ _ _ _ Hfit Hloop) as Hspec.
  rewrite Ef, Hlen in Hfresh. rewrite Ef in Hframe, Hspec. rewrite El in Hlist.
  split_and!.
  - unfold constructor. rewrite run_bind, run_querySelectorAll. cbv beta iota zeta.
    fold (under_construction container opts w0). fold this.
    rewrite run_bind, (initAttributes_run this) by done.
    change (forEach (panels this) (decoratePanel this)) with
      (forEach_from 0 ps (decoratePanel this)).
    rewrite <- Eps, Hall. done.
  - done.
  - intros i q Hi Hiq.
    assert (take j ps !! i = Some q) as Hiq' by (by rewrite lookup_take_lt).
    assert (q ∈ ps) as Hin by (by eapply list_elem_of_lookup_2).
    destruct (Hpanel q Hin) as (Hqr & _ & Hqold).
    destruct (Hspec i q Hiq') as [D1 D2 _ _ D5 _ _ _].
    rewrite !attr_cloned.
    rewrite !(decide_False (P := q = fresh wj)) by lia.
    rewrite !(decide_False (P := toggle_of w0 i = fresh wj))
      by (unfold toggle_of; lia).
    split_and!.
    + rewrite D1. by rewrite panelId_of_rooted.
    + rewrite D2. f_equal. apply decide_ext. by apply marked_rooted.
    + unfold toggle_of. rewrite D5. by rewrite panelId_of_rooted.
    + rewrite tree_cloned. apply (loop_preorder _ _ _ _ _ _ _ Hfit Hloop).
      left. rewrite Ef, Hlen. unfold toggle_of. lia.
  - intros q k Hin Hk _.
    assert (q ∈ ps) as Hin'
      by (eapply elem_of_sublist; [exact Hin|apply sublist_drop]).
    destruct (Hpanel q Hin') as (Hqr & _ & Hqold).
    rewrite attr_cloned, decide_False by lia.
    rewrite Hframe; [by apply attr_rooted|lia| |by left].
    intros Hq'. apply NoDup_app in Hnd' as (_ & Hdis & _).
    apply (Hdis q Hq'). by rewrite <- (drop_S _ _ _ Hj).
Qed.

(** ** The clones are leaves of the document *)

Lemma subtree_not_elem t n : n ∉ preorder t → subtree t n = None.
Proof.
  intros Hn. destruct (subtree t n) as [s|] eqn:Hs; [|done].
  by apply subtree_Some_elem in Hs.
Qed.

Lemma kids_insert_before_leaf ks b p ks' :
  kids_insert_before ks (Node b []) p = Some ks' →
  b ∉ flat_map preorder ks →
  first_subtree ks' b = Some (Node b []).
Proof.
  revert ks'. induction ks as [|k ks IH]; intros ks'; simpl; [done|].
  destruct (decide (node_id k = p)).
  - intros [= <-] _. rewrite first_subtree_cons, subtree_Node.
    by rewrite decide_True.
  - destruct (kids_insert_before ks (Node b []) p) as [ks''|]; [|done].
    intros [= <-] Hb. rewrite first_subtree_cons.
    rewrite subtree_not_elem by set_solver. apply IH; [done|set_solver].
Qed.

(** The node that [insertBefore] puts into the tree has nothing below
    it. *)
Lemma tree_insert_before_leaf t r b p t' :
  tree_insert_before t r (Node b []) p = Some t' →
  b ∉ preorder t → subtree t' b = Some (Node b []).
Proof.
  revert t'. induction t as [m ks IH] using Tree_ind. intros t'.
  rewrite tree_insert_before_Node, preorder_Node.
  destruct (decide (m = r)) as [->|Hm].
  - destruct (kids_insert_before ks (Node b []) p) as [ks'|] eqn:E; [|done].
    intros [= <-] Hb. rewrite subtree_Node, decide_False by set_solver.
    apply (kids_insert_before_leaf _ _ _ _ E). set_solver.
  - destruct (first_insert ks r (Node b []) p) as [ks'|] eqn:E; [|done].
    intros [= <-] Hb. rewrite subtree_Node, decide_False by set_solver.
    assert (b ∉ flat_map preorder ks) as Hb' by set_solver. clear Hb.
    revert ks' E. induction ks as [|k ks IHks]; intros ks'; [done|].
    rewrite first_insert_cons. inversion IH as [|?? Hk Hks]; subst.
    simpl in Hb'. rewrite not_elem_of_app in Hb'. destruct Hb' as [Hbk Hbks].
    destruct (bool_decide (r ∈ preorder k)).
    + destruct (tree_insert_before k r (Node b []) p) as [k'|] eqn:Ek; [|done].
      intros [= <-]. rewrite first_subtree_cons. by rewrite (Hk _ eq_refl).
    + destruct (first_insert ks r (Node b []) p) as [ks''|] eqn:E'; [|done].
      intros [= <-]. rewrite first_subtree_cons, (subtree_not_elem k b) by done.
      by apply IHks.
Qed.

Lemma tree_insert_before_leaf_descendants t r b p t' :
  tree_insert_before t r (Node b []) p = Some t' →
  b ∉ preorder t → descendants t' b = [].
Proof.
  intros E Hb. unfold descendants. by rewrite (tree_insert_before_leaf _ _ _ _ _ E).
Qed.

(** A loop that returns keeps the pages tidy. *)
Lemma loop_tidy N this ps i w w' :
  fit N this w ps → tidy w →
  forEach_from i ps (decoratePanel this) w = (w', Normal ()) →
  tidy w'.
Proof.
  revert i w. induction ps as [|p ps IH]; intros i w Hfit [Hnd Hbound] Hloop.
  { rewrite forEach_from_nil in Hloop. by injection Hloop as <-. }
  destruct (loop_turn _ _ _ _ _ _ _ Hfit Hloop) as (h & t & Hh & Ht & Hfit1 & Hloop1).
  apply (IH (S i) _ Hfit1); [|done].
  pose proof (tree_insert_before_preorder _ _ _ _ _ Ht) as Hperm.
  unfold tidy. rewrite decorated_fresh, decorated_tree. split.
  - rewrite Hperm. apply NoDup_cons. split; [|done].
    intros Hin%Hbound. lia.
  - intros x. rewrite Hperm. intros [->|Hin%Hbound]%elem_of_cons; lia.
Qed.

(** What a loop leaves below an element that has not the container below
    it. *)
Lemma loop_descendants N this ps i w w' q :
  fit N this w ps →
  forEach_from i ps (decoratePanel this) w = (w', Normal ()) →
  (q < fresh w)%nat → q ≠ root this → root this ∉ descendants (tree w) q →
  descendants (tree w') q = descendants (tree w) q.
Proof.
  revert i w. induction ps as [|p ps IH]; intros i w Hfit Hloop Hq Hqr Hr.
  { rewrite forEach_from_nil in Hloop. by injection Hloop as <-. }
  destruct (loop_turn _ _ _ _ _ _ _ Hfit Hloop) as (h & t & Hh & Ht & Hfit1 & Hloop1).
  assert (descendants t q = descendants (tree w) q) as E.
  { apply (tree_insert_before_descendants _ _ _ _ _ _ Ht); [lia|done|done]. }
  rewrite (IH _ _ Hfit1 Hloop1).
  - by rewrite decorated_tree.
  - rewrite decorated_fresh. lia.
  - done.
  - by rewrite decorated_tree, E.
Qed.

Lemma loop_leaves N this ps i w w' :
  fit N this w ps → tidy w →
  forEach_from i ps (decoratePanel this) w = (w', Normal ()) →
  ∀ j, (j < length ps)%nat → descendants (tree w') (fresh w + j)%nat = [].
Proof.
  revert i w. induction ps as [|p ps IH]; intros i w Hfit Htidy Hloop j Hj;
    [simpl in Hj; lia|].
  destruct (loop_turn _ _ _ _ _ _ _ Hfit Hloop) as (h & t & Hh & Ht & Hfit1 & Hloop1).
  pose proof Htidy as [Hnd Hbound].
  pose proof (fit_fresh _ _ _ _ Hfit) as HN.
  pose proof (fit_root _ _ _ _ Hfit) as Hroot.
  assert (fresh w ∉ preorder (tree w)) as Hnew by (intros ?%Hbound; lia).
  assert (tidy (decorated this p i h t w)) as Htidy1.
  { pose proof (tree_insert_before_preorder _ _ _ _ _ Ht) as Hperm.
    unfold tidy. rewrite decorated_fresh, decorated_tree. split.
    - rewrite Hperm. apply NoDup_cons. by split.
    - intros x. rewrite Hperm. intros [->|Hin%Hbound]%elem_of_cons; lia. }
  destruct j as [|j].
  - rewrite Nat.add_0_r.
    pose proof (tree_insert_before_leaf_descendants _ _ _ _ _ Ht Hnew) as Hleaf.
    rewrite (loop_descendants _ _ _ _ _ _ (fresh w) Hfit1 Hloop1).
    + by rewrite decorated_tree.
    + rewrite decorated_fresh. lia.
    + lia.
    + rewrite decorated_tree, Hleaf. apply not_elem_of_nil.
  - replace (fresh w + S j)%nat with (fresh (decorated this p i h t w) + j)%nat
      by (rewrite decorated_fresh; lia).
    apply (IH (S i) _ Hfit1 Htidy1 Hloop1). simpl in Hj. lia.
Qed.

(** ** Ancestors and descendants *)

(** The inner loop of [ancestors], by name. *)
Definition first_ancestors (ks : list Tree) (n m : nid) : option (list nid) :=
  (fix first (l : list Tree) : option (list nid) :=
     match l with
     | [] => None
     | k :: l' =>
         match ancestors k n with
         | Some up => Some (up ++ [m])
         | None => first l'
         end
     end) ks.

Lemma ancestors_Node m ks n :
  ancestors (Node m ks) n
  = if decide (m = n) then Some [] else first_ancestors ks n m.
Proof. reflexivity. Qed.

Lemma first_ancestors_cons k ks n m :
  first_ancestors (k :: ks) n m
  = match ancestors k n with
    | Some up => Some (up ++ [m])
    | None => first_ancestors ks n m
    end.
Proof. reflexivity. Qed.

Lemma first_ancestors_last ks n m up :
  first_ancestors ks n m = Some up → last up = Some m.
Proof.
  induction ks as [|k ks IH]; [done|]. rewrite first_ancestors_cons.
  destruct (ancestors k n) as [up'|]; [|done].
  intros [= <-]. apply last_snoc.
Qed.

(** An element of the document has a chain of ancestors, and the chain
    ends with the root element. *)
Lemma ancestors_is_Some t n : n ∈ preorder t → is_Some (ancestors t n).
Proof.
  induction t as [m ks IH] using Tree_ind.
  rewrite preorder_Node, ancestors_Node.
  destruct (decide (m = n)) as [|Hm]; [done|].
  intros [?|Hn]%elem_of_cons; [done|].
  induction ks as [|k ks IHks]; [by apply elem_of_nil in Hn|].
  inversion IH as [|?? Hk Hks]; subst. rewrite first_ancestors_cons.
  simpl in Hn. apply elem_of_app in Hn as [Hn|Hn].
  - by destruct (Hk Hn) as [up ->].
  - destruct (ancestors k n); [done|]. by apply IHks.
Qed.

Lemma chain_ends_at_the_root t n :
  n ∈ preorder t → last (n :: parentChain t n) = Some (node_id t).
Proof.
  intros Hn. destruct (ancestors_is_Some t n Hn) as [up Hup].
  unfold parentChain. rewrite Hup. simpl default.
  destruct t as [m ks]. rewrite ancestors_Node in Hup.
  destruct (decide (m = n)) as [->|Hm].
  - by injection Hup as <-.
  - apply first_ancestors_last in Hup.
    destruct up as [|x up]; [done|]. by rewrite last_cons, Hup.
Qed.

(** The element and its ancestors are elements of the tree. *)
Lemma ancestors_elem t n up :
  ancestors t n = Some up → n ∈ preorder t ∧ ∀ a, a ∈ up → a ∈ preorder t.
Proof.
  revert up. induction t as [m ks IH] using Tree_ind. intros up.
  rewrite ancestors_Node, preorder_Node.
  destruct (decide (m = n)) as [->|Hm].
  - intros [= <-]. split; [by left|]. by intros a ?%elem_of_nil.
  - induction ks as [|k ks IHks]; [done|].
    inversion IH as [|?? Hk Hks]; subst. rewrite first_ancestors_cons.
    destruct (ancestors k n) as [up'|] eqn:Ek.
    + intros [= <-]. destruct (Hk _ eq_refl) as [Hn Hup]. simpl. split.
      * set_solver.
      * intros a [Ha|Ha%list_elem_of_singleton]%elem_of_app; [|set_solver].
        specialize (Hup a Ha). set_solver.
    + intros Hf. destruct (IHks Hks Hf) as [Hn Hup]. simpl. split.
      * set_solver.
      * intros a Ha. specialize (Hup a Ha). set_solver.
Qed.

(** An element lies below each of its ancestors. *)
Lemma ancestors_descendants t n up a :
  NoDup (preorder t) → ancestors t n = Some up → a ∈ up → n ∈ descendants t a.
Proof.
  revert up. induction t as [m ks IH] using Tree_ind. intros up.
  rewrite ancestors_Node, preorder_Node.
  destruct (decide (m = n)) as [->|Hm]; [by intros _ [= <-] ?%elem_of_nil|].
  intros [Hmks Hnd]%NoDup_cons Hf Ha.
  destruct (decide (a = m)) as [->|Ham].
  { (* the root *)
    unfold descendants. rewrite subtree_Node, decide_True by done. simpl.
    clear IH Hnd Hmks Ha. revert Hf.
    induction ks as [|k ks IHks]; [done|]. rewrite first_ancestors_cons.
    destruct (ancestors k n) as [up'|] eqn:Ek.
    - intros _. destruct (ancestors_elem _ _ _ Ek) as [Hn _]. simpl. set_solver.
    - intros Hf. simpl. apply elem_of_app. right. by apply IHks. }
  unfold descendants. rewrite subtree_Node, decide_False by done.
  revert Hf. induction ks as [|k ks IHks]; [done|].
  inversion IH as [|?? Hk Hks]; subst.
  rewrite first_ancestors_cons, first_subtree_cons.
  simpl in Hnd, Hmks. apply NoDup_app in Hnd as (Hndk & Hdis & Hndks).
  destruct (ancestors k n) as [up'|] eqn:Ek.
  - intros [= <-].
    apply elem_of_app in Ha as [Ha|Ha%list_elem_of_singleton]; [|done].
    specialize (Hk _ Hndk eq_refl Ha). unfold descendants in Hk.
    destruct (subtree k a); [done|by apply elem_of_nil in Hk].
  - intros Hf.
    assert (a ∈ flat_map preorder ks) as Haks.
    { clear -Hf Ha Ham. revert Hf.
      induction ks as [|k' ks IHks]; [done|]. rewrite first_ancestors_cons.
      destruct (ancestors k' n) as [up'|] eqn:Ek'.
      - intros [= <-].
        apply elem_of_app in Ha as [Ha|Ha%list_elem_of_singleton]; [|done].
        destruct (ancestors_elem _ _ _ Ek') as [_ Hup]. specialize (Hup a Ha).
        simpl. set_solver.
      - intros Hf. simpl. apply elem_of_app. right. by apply IHks. }
    rewrite subtree_not_elem by (intros ?; by apply (Hdis a)).
    apply IHks; [done|set_solver|done|done].
Qed.

Lemma parentChain_descendants t n a :
  NoDup (preorder t) → a ∈ parentChain t n → n ∈ descendants t a.
Proof.
  intros Hnd. unfold parentChain.
  destruct (ancestors t n) as [up|] eqn:E; [|by intros ?%elem_of_nil].
  by apply ancestors_descendants.
Qed.

(** * The page that construction needs *)

(** ** The toggles are the clones *)

(** The buttons selector finds the clones and nothing else: it selects
    button elements, the template matches it, and the container holds no
    button element before construction. *)
Definition clones_only (w : World) (container : nid) (o : AriaAccordionOptions)
  : bool :=
  bool_decide (sel_tag (buttonsSelector o) = Some "button")
  && matches (elems w (button o)) (buttonsSelector o)
  && forallb (λ x, negb (bool_decide (tagName (elems w x) = "button")))
       (descendants (tree w) container).

Lemma clones_only_generated container opts readableIndex w0 w1 this :
  fst (constructor container opts readableIndex w0) = w1 →
  snd (constructor container opts readableIndex w0) = Normal this →
  well_formed w0 container opts = true →
  clones_only w0 container opts = true →
  sel_tag (buttonsSelector opts) = Some "button" ∧ generated this w0 = true.
Proof.
  intros H1 H2 Hwf [[Htag Htmpl]%andb_prop Hnone]%andb_prop.
  apply bool_decide_eq_true in Htag. split; [done|].
  by apply (constructor_generated container opts readableIndex w0 w1 this).
Qed.

(** ** Labels without tags *)

(** Whether the string holds no ["<"], the character that opens a tag: as
    markup such a string is text and nothing else. *)
Fixpoint tagless (s : string) : bool :=
  match s with
  | EmptyString => true
  | String c s' => negb (bool_decide (c = "<"%char)) && tagless s'
  end.

(** What the toggles are labelled with holds no tag: the content of the
    first header of each panel, as text or, in the mode ["html"], as
    markup. The browser then puts text below the toggles and no element,
    as [set_innerHTML] has it. *)
Definition plain_labels (w : World) (container : nid) (o : AriaAccordionOptions)
  : bool :=
  forallb (λ p, match querySelectorAll_in w p (headersSelector o) with
                | h :: _ => tagless (header_content (under_construction container o w) h w)
                | [] => true
                end)
    (querySelectorAll_in w container (panelsSelector o)).

(** ** The ids of the panels belong to the panels *)

(** The ids that construction gives to the panels, as the page before
    construction tells them. *)
Definition panel_ids (this : AriaAccordion) (readableIndex : string) (w0 : World)
  : list string :=
  imap (λ j p, assigned_id this readableIndex w0 p j) (panels this).

(** When construction is over no other element bears the id of a panel:
    the ids given to the panels differ from one another, from the ids
    given to the toggles, from the id of the container, and from the ids
    of the elements that construction gives no id to. *)
Definition ids_apart (w0 : World) (container : nid) (o : AriaAccordionOptions)
    (readableIndex : string) : bool :=
  let this := under_construction container o w0 in
  let ids := panel_ids this readableIndex w0 in
  bool_decide (NoDup ids)
  && forallb (λ i, negb (bool_decide (i +:+ buttonSuffixId o ∈ ids))) ids
  && negb (bool_decide (root_id this readableIndex w0 ∈ ids))
  && forallb (λ x, bool_decide (x = container ∨ x ∈ panels this)
                   || match attr w0 x "id" with
                      | Some i => negb (bool_decide (i ∈ ids))
                      | None => true
                      end)
       (preorder (tree w0)).

Lemma assigned_id_ext this this' readableIndex w0 p j :
  root this = root this' → options this = options this' →
  assigned_id this readableIndex w0 p j = assigned_id this' readableIndex w0 p j.
Proof. intros Hr Ho. unfold assigned_id, root_id. by rewrite Hr, Ho. Qed.

Lemma assigned_id_nonempty this readableIndex w0 p j :
  assigned_id this readableIndex w0 p j ≠ "".
Proof.
  unfold assigned_id.
  by destruct (if decide (id_of w0 p = "") then root_id this readableIndex w0
               else id_of w0 p).
Qed.

Lemma find_unique {A} (P : A → bool) (l : list A) x :
  x ∈ l → P x = true → (∀ y, y ∈ l → P y = true → y = x) → find P l = Some x.
Proof.
  induction l as [|y l IH]; intros Hx HP Hu; [by apply elem_of_nil in Hx|].
  simpl. destruct (P y) eqn:Hy.
  - f_equal. apply Hu; [by left|done].
  - apply IH; [|done|intros z Hz; apply Hu; by right].
    apply elem_of_cons in Hx as [->|?]; [congruence|done].
Qed.

(** The elements of the page after construction: those it had, and the
    clones. *)
Lemma constructor_preorder container opts readableIndex w0 w1 this x :
  constructor container opts readableIndex w0 = (w1, Normal this) →
  well_formed w0 container opts = true →
  x ∈ preorder (tree w1)
  ↔ (fresh w0 ≤ x < fresh w0 + length (panels this))%nat ∨ x ∈ preorder (tree w0).
Proof.
  intros Hc Hwf.
  destruct (constructor_Normal container opts readableIndex w0 this)
    as (wa & Eo & Er & Ep & Eb & T0 & Hloop & Ew).
  { by rewrite Hc. }
  rewrite Hc in Ew. simpl in Ew. subst w1.
  assert (fit (fresh w0) this (rooted this readableIndex w0) (panels this)) as Hfit.
  { apply well_formed_fit; by rewrite ?Eo, ?Er. }
  destruct (rooted_static this readableIndex w0) as (Et & Ef & _).
  change (tree (listening ?l wa)) with (tree wa).
  rewrite (loop_preorder _ _ _ _ _ _ x Hfit Hloop). by rewrite Et, Ef.
Qed.

(** On such a page [document.getElementById] finds, for the id that a
    toggle controls, the panel of the toggle. *)
Lemma constructor_paired container opts readableIndex w0 w1 this :
  fst (constructor container opts readableIndex w0) = w1 →
  snd (constructor container opts readableIndex w0) = Normal this →
  well_formed w0 container opts = true →
  generated this w0 = true →
  ids_apart w0 container opts readableIndex = true →
  paired this w1 = true.
Proof.
  intros H1 H2 Hwf Hgen Hids.
  pose proof (constructor_pair _ _ _ _ _ _ H1 H2) as Hc.
  destruct (constructor_initial _ _ _ _ _ _ Hwf Hc) as (Ho & Hr & Hp & Hinit).
  pose proof Hwf as Hwf'. unfold well_formed in Hwf'.
  apply andb_prop in Hwf' as [[[Hnd Hbd]%andb_prop Hin]%andb_prop Hbt].
  apply bool_decide_eq_true in Hnd, Hin, Hbt. rewrite forallb_forall in Hbd.
  assert (∀ x, x ∈ preorder (tree w0) → (x < fresh w0)%nat) as Hbound.
  { intros x Hx. apply list_elem_of_In, Hbd in Hx. by apply bool_decide_eq_true in Hx. }
  (* the ids, in terms of the object that construction returned *)
  assert (panel_ids (under_construction container opts w0) readableIndex w0
          = panel_ids this readableIndex w0) as Eids.
  { unfold panel_ids. simpl panels. rewrite <- Hp.
    apply imap_ext. intros j p _. by apply assigned_id_ext. }
  assert (root_id (under_construction container opts w0) readableIndex w0
          = root_id this readableIndex w0) as Eroot.
  { unfold root_id. simpl. by rewrite Hr, Ho. }
  unfold ids_apart in Hids. cbv zeta in Hids. rewrite Eids, Eroot in Hids.
  apply andb_prop in Hids as [[[I1 I2]%andb_prop I3]%andb_prop I4].
  apply bool_decide_eq_true in I1. apply negb_true_iff, bool_decide_eq_false in I3.
  rewrite forallb_forall in I2. rewrite forallb_forall in I4.
  set (ids := panel_ids this readableIndex w0) in *.
  assert (∀ j p, panels this !! j = Some p →
            ids !! j = Some (assigned_id this readableIndex w0 p j)) as Hlook.
  { intros j p Hj. unfold ids, panel_ids. by rewrite list_lookup_imap, Hj. }
  unfold paired. apply andb_true_intro. split; [apply andb_true_intro; split|].
  - apply bool_decide_eq_true. apply bool_decide_eq_true in Hgen.
    by rewrite Hgen, length_map, length_seq.
  - apply bool_decide_eq_true, (i_NoDup _ _ _ _ Hinit).
  - apply forallb_forall. intros [b p] Hbp%list_elem_of_In.
    apply (generated_pairs _ w0) in Hbp as (j & Hj & ->); [|done].
    apply bool_decide_eq_true. cbn [fst snd].
    rewrite (i_controls _ _ _ _ Hinit j p Hj). simpl DOMString.
    unfold getElementById_in.
    rewrite decide_False by apply assigned_id_nonempty.
    assert (p ∈ panels this) as Hpin by (by eapply list_elem_of_lookup_2).
    assert (p ∈ preorder (tree w0)) as Hpt.
    { rewrite Hp in Hpin. unfold querySelectorAll_in in Hpin.
      apply list_elem_of_filter in Hpin as [_ Hd]. by eapply descendants_elem. }
    rewrite (find_unique _ _ p); [done| | |].
    + apply (constructor_preorder _ _ _ _ _ _ _ Hc Hwf). by right.
    + apply bool_decide_eq_true, (i_panel_id _ _ _ _ Hinit j p Hj).
    + intros y Hy Hid%bool_decide_eq_true.
      apply (constructor_preorder _ _ _ _ _ _ _ Hc Hwf) in Hy as [Hy|Hy].
      * (* a clone *)
        exfalso.
        destruct (lookup_lt_is_Some_2 (panels this) (y - fresh w0)) as [q Hq]; [lia|].
        pose proof (i_toggle_id _ _ _ _ Hinit _ _ Hq) as Hty.
        unfold toggle_of in Hty.
        replace (fresh w0 + (y - fresh w0))%nat with y in Hty by lia.
        rewrite Hty in Hid. injection Hid as Hid.
        pose proof (Hlook _ _ Hq) as Hq'. apply list_elem_of_lookup_2 in Hq'.
        apply list_elem_of_In, I2, negb_true_iff, bool_decide_eq_false in Hq'.
        apply Hq'. rewrite <- Ho, Hid. by eapply list_elem_of_lookup_2, Hlook.
      * destruct (decide (y ∈ panels this)) as [Hyp|Hyp].
        { (* another panel *)
          apply list_elem_of_lookup_1 in Hyp as [i Hi].
          rewrite (i_panel_id _ _ _ _ Hinit i y Hi) in Hid. injection Hid as Hid.
          pose proof (Hlook _ _ Hi) as L1. pose proof (Hlook _ _ Hj) as L2.
          rewrite Hid in L1.
          pose proof (NoDup_lookup _ _ _ _ I1 L1 L2) as ->. congruence. }
        exfalso.
        rewrite (constructor_frame _ _ _ _ _ _ _ _ Hc Hwf) in Hid;
          [|by apply Hbound|done|done].
        destruct (decide (y = root this)) as [->|Hyr].
        { (* the container *)
          fold (id_of (rooted this readableIndex w0) (root this)) in Hid.
          pose proof (id_of_rooted this readableIndex w0) as Er.
          unfold id_of in Er. rewrite Hid in Er. simpl in Er.
          apply I3. rewrite <- Er. by eapply list_elem_of_lookup_2, Hlook. }
        rewrite attr_rooted in Hid by done.
        apply list_elem_of_In, I4 in Hy.
        rewrite bool_decide_false in Hy.
        2:{ simpl panels. rewrite <- Hp, <- Hr. tauto. }
        rewrite Hid in Hy. simpl in Hy.
        apply negb_true_iff, bool_decide_eq_false in Hy.
        apply Hy. by eapply list_elem_of_lookup_2, Hlook.
Qed.

(** ** Every event is aimed *)

(** After construction the page is tidy and the clones have nothing below
    them. *)
Lemma constructor_leaves container opts readableIndex w0 w1 this :
  constructor container opts readableIndex w0 = (w1, Normal this) →
  well_formed w0 container opts = true →
  NoDup (preorder (tree w1))
  ∧ ∀ j, (j < length (panels this))%nat → descendants (tree w1) (toggle_of w0 j) = [].
Proof.
  intros Hc Hwf.
  destruct (constructor_Normal container opts readableIndex w0 this)
    as (wa & Eo & Er & Ep & Eb & T0 & Hloop & Ew).
  { by rewrite Hc. }
  rewrite Hc in Ew. simpl in Ew. subst w1.
  assert (fit (fresh w0) this (rooted this readableIndex w0) (panels this)) as Hfit.
  { apply well_formed_fit; by rewrite ?Eo, ?Er. }
  destruct (rooted_static this readableIndex w0) as (Et & Ef & _).
  pose proof Hwf as Hwf'. unfold well_formed in Hwf'.
  apply andb_prop in Hwf' as [[[Hnd Hbd]%andb_prop Hin]%andb_prop Hbt].
  apply bool_decide_eq_true in Hnd. rewrite forallb_forall in Hbd.
  assert (tidy (rooted this readableIndex w0)) as Htidy.
  { unfold tidy. rewrite Et, Ef. split; [done|].
    intros x Hx. apply list_elem_of_In, Hbd in Hx. by apply bool_decide_eq_true in Hx. }
  change (tree (listening ?l wa)) with (tree wa). split.
  - by destruct (loop_tidy _ _ _ _ _ _ Hfit Htidy Hloop).
  - intros j Hj. unfold toggle_of. rewrite <- Ef.
    by apply (loop_leaves _ _ _ _ _ _ Hfit Htidy Hloop).
Qed.

(** When the toggles are the clones, an event that passes through a toggle
    has that toggle as its target: every interaction is aimed. *)
Lemma constructor_well_aimed container opts readableIndex w0 w1 this i :
  constructor container opts readableIndex w0 = (w1, Normal this) →
  well_formed w0 container opts = true →
  generated this w0 = true → tracked this w1 = true →
  well_aimed this w1 i = true.
Proof.
  intros Hc Hwf Hgen Htracked.
  destruct (constructor_leaves _ _ _ _ _ _ Hc Hwf) as [Hnd Hleaves].
  assert (∀ t n, n ∈ t :: parentChain (tree w1) t → n ∈ buttons this →
            on_toggle this w1 t = true) as H.
  { intros t n [->|Hn]%elem_of_cons Hb.
    - unfold on_toggle. rewrite (tracked_resolve _ _ _ Htracked Hb).
      by apply bool_decide_eq_true.
    - exfalso. apply (parentChain_descendants _ _ _ Hnd) in Hn.
      destruct (generated_buttons _ _ _ Hgen Hb) as (j & Hj & ->).
      rewrite (Hleaves j Hj) in Hn. by apply elem_of_nil in Hn. }
  destruct i as [t|t|event]; [done|..]; unfold well_aimed;
    (destruct (passes_toggle this w1 _) eqn:Hpass; [|done]); simpl implb;
    apply bool_decide_eq_true, Exists_exists in Hpass as (n & Hn & Hb);
    by apply (H _ n).
Qed.

Lemma constructor_aimed container opts readableIndex w0 w1 this trace :
  constructor container opts readableIndex w0 = (w1, Normal this) →
  well_formed w0 container opts = true →
  generated this w0 = true → tracked this w1 = true →
  forallb (well_aimed this w1) trace = true.
Proof.
  intros Hc Hwf Hgen Htracked. apply forallb_forall. intros i _.
  by apply (constructor_well_aimed container opts readableIndex w0).
Qed.

(** * The toggles from construction on *)



(** * The closest ancestor in a document *)

(** In a document whose root is the html element, [closest] on an
    element of the document reads the page and returns without throwing.
    What it returns is the first match among the element and its
    ancestors, when no html element comes before that match; it is [null]
    when the walk meets an html element that does not match, and the walk
    goes no further than that. *)
Theorem closest_finds_the_nearest e s w :
  e ∈ preorder (tree w) →
  isHTMLHtmlElement (elems w (node_id (tree w))) = true →
  ∃ r, closest (Elem e) s w = (w, Normal r)
       ∧ match r with
         | Elem a =>
             ∃ l1 l2, e :: parentChain (tree w) e = l1 ++ a :: l2
                      ∧ passed_over w s l1 ∧ matches (elems w a) s = true
         | Null =>
             ∃ l1 h l2, e :: parentChain (tree w) e = l1 ++ h :: l2
                        ∧ passed_over w s l1
                        ∧ matches (elems w h) s = false
                        ∧ isHTMLHtmlElement (elems w h) = true
         | Undefined => False
         end.
Proof.
  intros He Hroot. eexists. split; [reflexivity|].
  destruct (closest_in w (e :: parentChain (tree w) e) s) as [| |a] eqn:E.
  - apply closest_in_Null in E as (l1 & l2 & E & Hl1 & Hl2).
    destruct l2 as [|h l2]; [|by exists l1, h, l2].
    exfalso. rewrite app_nil_r in E.
    pose proof (chain_ends_at_the_root _ _ He) as Hlast. rewrite E in Hlast.
    apply last_Some in Hlast as [l' ->].
    apply Forall_app in Hl1 as [_ Hl1]. apply Forall_singleton in Hl1 as [_ Hl1].
    congruence.
  - by apply closest_in_defined in E.
  - by apply closest_in_Elem.
Qed.

(** * The sample pages, continued *)

Module Sample3.

(** The page with [h2] headers and one more element, element 10, which
    stands before the container and bears the id that the first panel
    will be given; the clones are the elements 11, 12 and 13. *)
Definition claimed_id : World :=
  Sample.document
    [ Sample.el "html" [] [] ""; Sample.el "body" [] [] "";
      Sample.el "div" ["js-accordion"] [("id", "acc")] "";
      Sample.panel []; Sample.header "h2" "One";
      Sample.panel []; Sample.header "h2" "Two";
      Sample.panel []; Sample.header "h2" "Three";
      defaultButton;
      Sample.el "div" [] [("id", "acc-0")] "" ]
    (Node 0 [Node 1 [Node 10 [];
                     Node 2 [Node 3 [Node 4 []]; Node 5 [Node 6 []];
                             Node 7 [Node 8 []]]]])%nat.

End Sample3.

(** * The amended claims at work *)





Lemma missing_header_aborts_witness :
  ∃ w', constructor 2%nat Sample.config "k3v9" Sample.headless = (w', Throw TypeError)
        ∧ listeners w' = listeners Sample.headless
        ∧ (∀ i q, (i < 2)%nat →
             panels (under_construction 2%nat Sample.config Sample.headless) !! i
             = Some q →
             attr w' q "id"
             = Some (assigned_id (under_construction 2%nat Sample.config Sample.headless)
                       "k3v9" Sample.headless q i)
             ∧ attr w' q "aria-hidden"
               = Some (if decide (marked Sample.headless q) then "false" else "true")
             ∧ attr w' (toggle_of Sample.headless i) "aria-controls"
               = Some (assigned_id (under_construction 2%nat Sample.config Sample.headless)
                         "k3v9" Sample.headless q i)
             ∧ toggle_of Sample.headless i ∈ preorder (tree w'))
        ∧ (∀ q k, q ∈ drop 2 (panels (under_construction 2%nat Sample.config
                                         Sample.headless)) →
             k ≠ "tabindex" → k ≠ "class" →
             attr w' q k = attr Sample.headless q k).
Proof.
  apply (missing_header_aborts 2%nat Sample.config "k3v9" Sample.headless 7%nat 2%nat).
  - vm_compute. reflexivity.
  - vm_compute. reflexivity.
  - vm_compute. reflexivity.
  - vm_compute. reflexivity.
  - vm_compute. reflexivity.
Defined.

Lemma closest_finds_the_nearest_witness :
  ∃ r, closest (Elem 4%nat) button_selector Sample.plain = (Sample.plain, Normal r)
       ∧ match r with
         | Elem a =>
             ∃ l1 l2, 4%nat :: parentChain (tree Sample.plain) 4%nat = l1 ++ a :: l2
                      ∧ passed_over Sample.plain button_selector l1
                      ∧ matches (elems Sample.plain a) button_selector = true
         | Null =>
             ∃ l1 h l2, 4%nat :: parentChain (tree Sample.plain) 4%nat = l1 ++ h :: l2
                        ∧ passed_over Sample.plain button_selector l1
                        ∧ matches (elems Sample.plain h) button_selector = false
                        ∧ isHTMLHtmlElement (elems Sample.plain h) = true
         | Undefined => False
         end.
Proof.
  apply (closest_finds_the_nearest 4%nat button_selector Sample.plain).
  - vm_compute. do 4 right. by left.
  - vm_compute. reflexivity.
Defined.
